(** * Mini-Agent: context-budget enforcer and relevance-based context selector

    A shallow embedding of
    - [mini_agent/tools/context_selector.py] ([ContextSelector]),
    - [mini_agent/llm/base.py] ([LLMClientBase.enforce_context_limit]),
    - [mini_agent/config_override.py] ([ConfigOverride]: the merge, the
      nested assignment and [apply_overrides]), and
    - [mini_agent/utils/keyboard_utils.py] ([KeyboardListener.is_esc_pressed]),
    together with the properties of the specification that concern them.

    Conventions of the embedding.
    - Python [int] is [Z]; list lengths and slice bounds are [nat].
    - Python [str] is [string]; the characters are the ASCII ones.
    - Python [float] is [Q], with exact arithmetic: the model agrees with the
      code wherever the floating-point operations involved are exact (small
      integers, the factors 1.0, 0.5, 2.0, ...). A float that can be NaN, as
      a metadata weight and so a score can, is a [pyfloat]: a rational or
      NaN. There is no infinity.
    - [time.time()] is an explicit argument [now].
    - Objects that the code mutates or compares by [id] live in a heap and are
      named by their address. *)

From Stdlib Require Import ZArith QArith Qround Ascii String Lia.
From stdpp Require Import base decidable option list sorting gmap strings.

Local Open Scope string_scope.
Local Open Scope list_scope.
Local Open Scope Z_scope.

(** ** Python strings *)

Module PyStr.

(** The ASCII characters that [str.split()] and [str.strip()] treat as
    white space: TAB, LF, VT, FF, CR, FS, GS, RS, US and SPACE. *)
Definition is_space (c : ascii) : bool :=
  let n := nat_of_ascii c in
  ((9 <=? n)%nat && (n <=? 13)%nat) || ((28 <=? n)%nat && (n <=? 32)%nat).

Definition cons_word (w : string) (ws : list string) : list string :=
  match w with
  | EmptyString => ws
  | _ => w :: ws
  end.

(** [split_aux s] is the word that [s] starts with (empty when [s] starts
    with white space) and the words after it. *)
Fixpoint split_aux (s : string) : string * list string :=
  match s with
  | EmptyString => (EmptyString, [])
  | String c s' =>
      let '(w, ws) := split_aux s' in
      if is_space c then (EmptyString, cons_word w ws) else (String c w, ws)
  end.

(** [s.split()] *)
Definition split (s : string) : list string :=
  let '(w, ws) := split_aux s in cons_word w ws.

(** [sep.join(l)] *)
Fixpoint join (sep : string) (l : list string) : string :=
  match l with
  | [] => EmptyString
  | [w] => w
  | w :: l' => w +:+ sep +:+ join sep l'
  end.

Definition lower_ascii (c : ascii) : ascii :=
  let n := nat_of_ascii c in
  if ((65 <=? n)%nat && (n <=? 90)%nat) then ascii_of_nat (n + 32) else c.

(** [s.lower()] *)
Fixpoint lower (s : string) : string :=
  match s with
  | EmptyString => EmptyString
  | String c s' => String (lower_ascii c) (lower s')
  end.

Fixpoint lstrip (s : string) : string :=
  match s with
  | EmptyString => EmptyString
  | String c s' => if is_space c then lstrip s' else s
  end.

(** [rstrip] keeps a character when it is not white space or when something
    that is kept follows it. *)
Fixpoint rstrip (s : string) : string :=
  match s with
  | EmptyString => EmptyString
  | String c s' =>
      match rstrip s' with
      | EmptyString => if is_space c then EmptyString else String c EmptyString
      | r => String c r
      end
  end.

(** [s.strip()] *)
Definition strip (s : string) : string := rstrip (lstrip s).

(** [s[:n]] for [n >= 0] *)
Definition prefix (n : nat) (s : string) : string := String.substring 0 n s.

Fixpoint no_space (s : string) : bool :=
  match s with
  | EmptyString => true
  | String c s' => negb (is_space c) && no_space s'
  end.

(** A word: not empty and free of white space. *)
Definition is_word (w : string) : Prop := w ≠ EmptyString ∧ no_space w = true.

End PyStr.

(** ** Python numbers *)

Module PyNum.

(** [int(x)] on a float: truncation toward zero. *)
Definition py_int (q : Q) : Z :=
  if Qle_bool 0 q then Qfloor q else Qceiling q.

(** [max(1, f)] for an int [1] and a float [f]: the first argument wins
    unless the second is strictly larger. *)
Definition max_1 (f : Q) : Q :=
  if Qle_bool f 1 then 1%Q else f.

(** [max(0.0, x)] *)
Definition max_0 (x : Q) : Q :=
  if Qle_bool x 0 then 0%Q else x.

(** A [float] that can be NaN. *)
Inductive pyfloat :=
| Fin (q : Q)
| NaN.

(** [a + b] and [a * b]: NaN as soon as an argument is. *)
Definition fl_add (a b : pyfloat) : pyfloat :=
  match a, b with
  | Fin x, Fin y => Fin (x + y)
  | _, _ => NaN
  end.

Definition fl_mul (a b : pyfloat) : pyfloat :=
  match a, b with
  | Fin x, Fin y => Fin (x * y)
  | _, _ => NaN
  end.

(** [a == b], [a < b] and [a <= b]: false as soon as an argument is NaN. *)
Definition fl_eq (a b : pyfloat) : bool :=
  match a, b with
  | Fin x, Fin y => Qeq_bool x y
  | _, _ => false
  end.

Definition fl_lt (a b : pyfloat) : bool :=
  match a, b with
  | Fin x, Fin y => negb (Qle_bool y x)
  | _, _ => false
  end.

Definition fl_le (a b : pyfloat) : bool :=
  match a, b with
  | Fin x, Fin y => Qle_bool x y
  | _, _ => false
  end.

End PyNum.

(** ** The relevance-based context selector ([context_selector.py]) *)

Module Selector.
Import PyStr PyNum.

(** Metadata values. The two keys the scorer reads, [ts] and [w], hold a
    number, [None], or a value that [float()] turns into NaN (the float NaN,
    or a string such as ['nan']); the model gives every other key the same
    type. *)
Inductive pyval :=
| PyNone
| PyNum (q : Q)
| PyNaN.

Record ContextItem := mkItem {
  source : string;
  text : string;
  metadata : gmap string pyval;
  score : pyfloat
}.

(** A pool element that is a [dict]: its [text] and [content] entries hold a
    string when present, the other entries are metadata. *)
Record DictEntry := mkDict {
  d_text : option string;
  d_content : option string;
  d_rest : gmap string pyval
}.

(** A pool element: [str] or [dict]. *)
Inductive entry :=
| EStr (s : string)
| EDict (d : DictEntry).

(** The dictionaries of the returned list. *)
Record Selected := mkSel {
  sel_source : string;
  sel_text : string;
  sel_metadata : gmap string pyval;
  sel_score : pyfloat;
  est_tokens : Z
}.

Record ContextSelector := mkSelector {
  avg_tokens_per_word : Q
}.

(** [ContextSelector()] : the default factor is 1.0 *)
Definition default_selector : ContextSelector := mkSelector 1.

Definition _estimate_tokens (self : ContextSelector) (txt : string) : Z :=
  let words := split txt in
  Z.max 1 (py_int (inject_Z (Z.of_nat (length words)) * avg_tokens_per_word self)).

Definition word_set (s : string) : gset string :=
  list_to_set (lower <$> split s).

Definition _lexical_score (query txt : string) : Q :=
  let q_words := word_set query in
  let t_words := word_set txt in
  if decide (q_words = ∅ ∨ t_words = ∅) then 0%Q
  else
    let overlap := q_words ∩ t_words in
    (inject_Z (Z.of_nat (size overlap)) /
     inject_Z (Z.max 1 (Z.of_nat (size q_words))))%Q.

(** [not ts] : [None] and zero are false, NaN is true. *)
Definition falsy (v : option pyval) : bool :=
  match v with
  | None | Some PyNone => true
  | Some (PyNum q) => Qeq_bool q 0
  | Some PyNaN => false
  end.

(** For a NaN timestamp [time.time() - float(ts)] is NaN and
    [max(0.0, nan)] is 0.0: [max] keeps its first argument unless a later
    one is greater. *)
Definition _recency_score (now : Q) (meta : gmap string pyval) : Q :=
  let ts := meta !! "ts" in
  if falsy ts then 0%Q
  else
    match ts with
    | Some (PyNum t) =>
        let age := max_0 (now - t) in
        let days := (age / inject_Z (60 * 60 * 24))%Q in
        (1 / (1 + days))%Q
    | Some PyNaN =>
        let age := 0%Q in
        let days := (age / inject_Z (60 * 60 * 24))%Q in
        (1 / (1 + days))%Q
    | _ => 0%Q
    end.

(** [float(w)], which is NaN for the weight NaN, and 0.0 when it raises
    ([w] missing or [None]). *)
Definition _importance_score (meta : gmap string pyval) : pyfloat :=
  match meta !! "w" with
  | Some (PyNum q) => Fin q
  | Some PyNaN => NaN
  | _ => Fin 0
  end.

Definition score_item (now : Q) (item : ContextItem) (query : string) : pyfloat :=
  let lex := _lexical_score query (text item) in
  let rec := _recency_score now (metadata item) in
  let imp := _importance_score (metadata item) in
  fl_add (Fin ((7 # 10) * lex + (2 # 10) * rec)) (fl_mul (Fin (1 # 10)) imp).

(** [a or b] on optional strings: [None] and the empty string are false. *)
Definition or_str (a : option string) (b : string) : string :=
  match a with
  | Some (String c s) => String c s
  | _ => b
  end.

Definition normalize (src : string) (e : entry) : ContextItem :=
  match e with
  | EStr s => mkItem src s ∅ (Fin 0)
  | EDict d =>
      let txt := or_str (d_text d) (or_str (d_content d) "") in
      let meta := delete "content" (delete "text" (d_rest d)) in
      mkItem src txt meta (Fin 0)
  end.

(** The sort key [(x.score, -len(x.text))]. *)
Definition sort_key (x : ContextItem) : pyfloat * Z :=
  (score x, - Z.of_nat (String.length (text x))).

(** [a < b] on keys, as Python compares tuples: by the first components
    unless they are equal, and then by the second ones. A key with the score
    NaN is neither less nor greater than any key. *)
Definition key_lt (a b : pyfloat * Z) : bool :=
  if fl_eq a.1 b.1 then a.2 <? b.2 else fl_lt a.1 b.1.

Definition key_gt (a b : pyfloat * Z) : bool := key_lt b a.

(** [items.sort(key=..., reverse=True)]. The built-in sort uses [<] on the
    keys only and is stable: where [<] orders the keys, which it does when no
    score is NaN, the result is the one list in descending key order in
    which items of equal key keep their order. [sort_desc] computes it by
    insertion. With a NaN score among the keys the built-in still returns
    the items in some order, which depends on its merge strategy; the model
    then gives one such order, and the properties of the order are stated
    for scores without NaN. *)
Fixpoint insert_desc (x : ContextItem) (l : list ContextItem) : list ContextItem :=
  match l with
  | [] => [x]
  | y :: l' =>
      if key_gt (sort_key y) (sort_key x) then y :: insert_desc x l' else x :: l
  end.

Fixpoint sort_desc (l : list ContextItem) : list ContextItem :=
  match l with
  | [] => []
  | x :: l' => insert_desc x (sort_desc l')
  end.

(** The item appended by the truncation branch when [used_tokens] is
    [used]. *)
Definition truncated_item (self : ContextSelector) (token_budget used : Z)
    (it : ContextItem) : Selected :=
  let remaining := token_budget - used in
  let words := split (text it) in
  let n := Z.max 1 (py_int (inject_Z remaining / max_1 (avg_tokens_per_word self))) in
  let truncated := join " " (take (Z.to_nat n) words) in
  let sel_text := truncated in
  let sel_est := _estimate_tokens self sel_text in
  mkSel (source it) sel_text (metadata it) (score it) sel_est.

Definition full_item (self : ContextSelector) (it : ContextItem) : Selected :=
  mkSel (source it) (text it) (metadata it) (score it)
        (_estimate_tokens self (text it)).

(** The condition of the truncation branch. *)
Definition truncates (self : ContextSelector) (token_budget used : Z)
    (it : ContextItem) : bool :=
  (token_budget <? used + _estimate_tokens self (text it))
  && fl_le (Fin (6 # 10)) (score it) && (used <? token_budget).

(** The loop [for it in items: ...] from the state [(selected, used_tokens)];
    [continue] is the recursive call, [break] returns. *)
Fixpoint greedy_fill (self : ContextSelector) (token_budget : Z)
    (items : list ContextItem) (selected : list Selected) (used_tokens : Z)
    : list Selected :=
  match items with
  | [] => selected
  | it :: rest =>
      let est := _estimate_tokens self (text it) in
      if token_budget <? used_tokens + est then
        if fl_le (Fin (6 # 10)) (score it) && (used_tokens <? token_budget) then
          let t := truncated_item self token_budget used_tokens it in
          greedy_fill self token_budget rest (selected ++ [t])
                      (used_tokens + est_tokens t)
        else greedy_fill self token_budget rest selected used_tokens
      else
        let selected' := selected ++ [full_item self it] in
        let used' := used_tokens + est in
        if token_budget <=? used' then selected'
        else greedy_fill self token_budget rest selected' used'
  end.

(** The items after normalisation and scoring, before the sort. *)
Definition scored_items (now : Q) (query : string)
    (documents messages tools_outputs : list entry) : list ContextItem :=
  let items :=
    (normalize "document" <$> documents) ++
    (normalize "message" <$> messages) ++
    (normalize "tool" <$> tools_outputs) in
  (fun it => mkItem (source it) (text it) (metadata it) (score_item now it query))
    <$> items.

Definition select_context (self : ContextSelector) (now : Q) (query : string)
    (documents messages tools_outputs : list entry) (token_budget : Z)
    : list Selected :=
  let items := sort_desc (scored_items now query documents messages tools_outputs) in
  greedy_fill self token_budget items [] 0.

(** *** Vocabulary of the specification *)

(** [sum(it["est_tokens"] for it in selected)] *)
Definition total_est (l : list Selected) : Z :=
  foldr (fun s acc => est_tokens s + acc) 0 l.

(** Scores do not increase from an element to a later one: [a >= b] on
    floats, which is false when one of them is NaN. *)
Definition score_desc (a b : Selected) : Prop :=
  fl_le (sel_score b) (sel_score a) = true.

Definition item_desc (a b : ContextItem) : Prop :=
  fl_le (score b) (score a) = true.

(** The weight [w] of a pool element is NaN. *)
Definition nan_weight (e : entry) : Prop :=
  match e with
  | EStr _ => False
  | EDict d => d_rest d !! "w" = Some PyNaN
  end.

(** The score of an item is a number. *)
Definition finite_score (x : ContextItem) : Prop := score x ≠ NaN.

Global Instance score_desc_dec a b : Decision (score_desc a b).
Proof. unfold score_desc. apply _. Defined.

(** The budget rule: the estimates sum to at most the budget, or the last
    returned item is the truncated version of an item of [pool] of score at
    least 0.6 that was cut down to a single word, the items before it
    summing to less than the budget. *)
Definition within_budget (self : ContextSelector) (token_budget : Z)
    (pool : list ContextItem) (out : list Selected) : Prop :=
  total_est out <= token_budget ∨
  ∃ pre it,
    out = pre ++ [truncated_item self token_budget (total_est pre) it] ∧
    total_est pre < token_budget ∧
    it ∈ pool ∧
    fl_le (Fin (6 # 10)) (score it) = true ∧
    length (split (sel_text
      (truncated_item self token_budget (total_est pre) it))) = 1%nat ∧
    est_tokens (truncated_item self token_budget (total_est pre) it) =
      Z.max 1 (py_int (avg_tokens_per_word self)).

(** *** Vocabulary for the sort and for the origin of returned items *)

(** [b] does not sort before [a]: the key of [b] is not greater. *)
Definition key_desc (a b : ContextItem) : Prop :=
  key_gt (sort_key b) (sort_key a) = false.

(** The item [x] has the sort key [k]: its key equals [k] as Python
    compares tuples. *)
Definition same_key (k : pyfloat * Z) (x : ContextItem) : Prop :=
  fl_eq (score x) k.1 = true ∧ (sort_key x).2 = k.2.

Global Instance same_key_dec k x : Decision (same_key k x).
Proof.
  unfold same_key. destruct (fl_eq (score x) k.1); [| right; intros [? _]; discriminate].
  destruct (decide ((sort_key x).2 = k.2)); [left | right]; tauto.
Defined.

(** What a returned dictionary takes over from its item unchanged. *)
Definition origin (it : ContextItem) : string * gmap string pyval * pyfloat :=
  (source it, metadata it, score it).

Definition sel_origin (s : Selected) : string * gmap string pyval * pyfloat :=
  (sel_source s, sel_metadata s, sel_score s).

(** *** Inputs of the repository's tests and of the scenarios C and D *)

(** ["word " * 1000] *)
Definition long_doc : string := String.concat "" (replicate 1000 "word ").

Definition log_doc (ts : Z) : entry :=
  EDict (mkDict (Some "The system encountered an error while saving file.") None
           {["ts" := PyNum (inject_Z ts)]}).

Definition notes_doc (ts : Z) : entry :=
  EDict (mkDict (Some "Release notes: added new endpoint for payments.") None
           {["ts" := PyNum (inject_Z ts)]}).

(** [['a', {'text': 'b', 'w': float('nan')}, {'text': 'c', 'w': 5}]] *)
Definition nan_docs : list entry :=
  [EStr "a";
   EDict (mkDict (Some "b") None {["w" := PyNaN]});
   EDict (mkDict (Some "c") None {["w" := PyNum 5]})].

(** A pool in which the second document does not fit a budget of 3 and
    scores too little to be truncated. *)
Definition skip_docs : list entry :=
  [EDict (mkDict (Some "a b") None {["w" := PyNum 1]});
   EStr "a x x x x x";
   EStr "z"].

(** Items of equal and of different scores, none of them NaN. *)
Definition tie_items : list ContextItem :=
  [mkItem "document" "abcdefgh" ∅ (Fin 0);
   mkItem "document" "a b c" ∅ (Fin 0);
   mkItem "document" "z" ∅ (Fin (1 # 2));
   mkItem "message" "a b c" ∅ (Fin 0)].

End Selector.

(** ** The context-budget enforcer ([llm/base.py]) *)

Module Enforcer.
Import PyStr.

(** Modelled from the spec: the [Message] class of [mini_agent/schema.py],
    which is not among the sources. A message has a role, one of system,
    user, assistant and tool; a content, plain text or a structured payload;
    an optional thinking text; and an optional list of tool-call records. *)
Inductive Role := system | user | assistant | tool.

Global Instance Role_eq_dec : EqDecision Role.
Proof. solve_decision. Defined.

Definition role_str (r : Role) : string :=
  match r with
  | system => "system"
  | user => "user"
  | assistant => "assistant"
  | tool => "tool"
  end.

(** What the enforcer takes from outside this repository's sources: the
    structured payloads and tool-call records with their serialisation
    ([json.dumps], or [str] when that raises), the tokenizer
    ([len(encoding.encode(s, disallowed_special=()))] for tiktoken's
    [cl100k_base]) and [truncate_text_by_tokens] of
    [mini_agent/tools/file_tools.py]. *)
Class Externals := {
  Payload : Type;
  ToolCall : Type;
  dumps_content : Payload → string;
  dumps_tool_calls : list ToolCall → string;
  encode_len : string → nat;
  truncate_text_by_tokens : string → Z → string
}.

Inductive exn := IndexError | UnboundLocalError.

Section Model.
Context `{Ext : Externals}.

Inductive Content :=
| CText (s : string)
| CStruct (p : Payload).

Record Message := mkMessage {
  role : Role;
  content : Content;
  thinking : option string;
  tool_calls : option (list ToolCall)
}.

Definition set_content (m : Message) (c : Content) : Message :=
  mkMessage (role m) c (thinking m) (tool_calls m).

Record LLMClientBase := mkClient {
  model_context_limit : option Z;
  context_safety_margin : Z
}.

(** *** The heap of message objects

    [id(m)] is the address of [m]; a new object takes the next free
    address. Python has no dangling reference: reading an address that was
    never allocated gives a blank message here. *)
Abbreviation addr := nat (only parsing).
Abbreviation heap := (list Message) (only parsing).

Definition blank : Message := mkMessage system (CText "") None None.

Definition deref (h : heap) (a : addr) : Message := default blank (h !! a).

Definition alloc (h : heap) (m : Message) : heap * addr :=
  (h ++ [m], length h).

(** *** Token estimates *)

Definition nl : string := String (ascii_of_nat 10) EmptyString.

(** The parts that are joined by a line feed: the role, the content, the
    thinking when it is not empty, the tool calls when there are some. *)
Definition message_parts (msg : Message) : list string :=
  [role_str (role msg)] ++
  [match content msg with
   | CText s => s
   | CStruct p => dumps_content p
   end] ++
  match thinking msg with
  | Some (String c s) => [String c s]
  | _ => []
  end ++
  match tool_calls msg with
  | Some (tc :: tcs) => [dumps_tool_calls (tc :: tcs)]
  | _ => []
  end.

Definition _estimate_tokens_for_message (msg : Message) : Z :=
  let chunk := join nl (message_parts msg) in
  Z.of_nat (encode_len chunk).

Definition _estimate_tokens_for_messages (h : heap) (messages : list addr) : Z :=
  foldl (fun total a => total + _estimate_tokens_for_message (deref h a)) 0 messages.

(** *** Stage 0: the copy *)

(** [[m.copy() for m in messages]]: one new object per element, in order. *)
Definition copy_messages (h : heap) (messages : list addr) : heap * list addr :=
  (h ++ (deref h <$> messages), seq (length h) (length messages)).

(** *** Stage 1: truncation of long contents, in place *)

Definition truncate_content (per_message_target : Z) (m : Message) : Message :=
  match content m with
  | CText s =>
      let tok := Z.of_nat (encode_len s) in
      if per_message_target <? tok
      then set_content m (CText (truncate_text_by_tokens s per_message_target))
      else m
  | CStruct _ => m
  end.

Definition truncate_long (per_message_target : Z) (h : heap) (msgs : list addr)
    : heap :=
  foldl (fun h a => <[a := truncate_content per_message_target (deref h a)]> h)
        h msgs.

(** *** Stage 2: the preserved set *)

Definition has_role (h : heap) (r : Role) (a : addr) : Prop :=
  role (deref h a) = r.

Global Instance has_role_dec h r a : Decision (has_role h r a).
Proof. unfold has_role. apply _. Defined.

(** [m.thinking] as a condition: neither [None] nor empty. *)
Definition is_planning (h : heap) (a : addr) : Prop :=
  match thinking (deref h a) with
  | Some (String _ _) => True
  | _ => False
  end.

Global Instance is_planning_dec h a : Decision (is_planning h a).
Proof. unfold is_planning. destruct (thinking (deref h a)) as [[|]|]; apply _. Defined.

(** [l[-n:]] for [n > 0] *)
Definition last_n {A} (n : nat) (l : list A) : list A :=
  drop (length l - n) l.

(** The state of the two locals [preserved] and [preserved_ids];
    [preserved_ids] is [None] while the name is unbound. *)
Definition pstate : Type := list addr * option (gset addr).

(** Lines 167-184: system messages, the first user message, the last
    three planning messages, the last user message. [preserved_ids] is
    assigned only when there is a user message. *)
Definition preserve_essentials (h : heap) (msgs : list addr) : pstate :=
  let system_msgs := filter (has_role h system) msgs in
  let user_msgs := filter (has_role h user) msgs in
  let assistant_msgs := filter (has_role h assistant) msgs in
  let preserved := system_msgs in
  let preserved :=
    match user_msgs with
    | u :: _ => preserved ++ [u]
    | [] => preserved
    end in
  let planning_msgs := filter (is_planning h) assistant_msgs in
  let preserved :=
    match planning_msgs with
    | _ :: _ => preserved ++ last_n 3 planning_msgs
    | [] => preserved
    end in
  match last user_msgs with
  | Some u =>
      let preserved_ids : gset addr := list_to_set preserved in
      if decide (u ∈ preserved_ids) then (preserved, Some preserved_ids)
      else (preserved ++ [u], Some ({[u]} ∪ preserved_ids))
  | None => (preserved, None)
  end.

(** Lines 187-191: the loop over [recent_msgs]. Reading [preserved_ids]
    while it is unbound raises. *)
Fixpoint preserve_recent (recent_msgs : list addr) (st : pstate) : exn + pstate :=
  match recent_msgs with
  | [] => inr st
  | m :: rest =>
      match st.2 with
      | None => inl UnboundLocalError
      | Some preserved_ids =>
          if decide (m ∈ preserved_ids) then preserve_recent rest st
          else preserve_recent rest (st.1 ++ [m], Some ({[m]} ∪ preserved_ids))
      end
  end.

(** *** Stage 2: pruning *)

(** [sum(...)] *)
Definition sum_Z (l : list Z) : Z := foldl Z.add 0 l.

(** The [while] loop of lines 209-218 from the state
    [(prunable, prunable_tokens, iterations, removed_accumulator)]; it
    returns the final [prunable] and [removed_accumulator]. *)
Fixpoint prune_loop (target preserved_tokens max_iterations : Z)
    (token_counts : gmap addr Z) (h : heap)
    (prunable : list addr) (prunable_tokens iterations : Z)
    (removed_accumulator : list addr) : list addr * list addr :=
  match prunable with
  | [] => (prunable, removed_accumulator)
  | removed :: prunable' =>
      if target <? preserved_tokens + prunable_tokens then
        if max_iterations <=? iterations then (prunable, removed_accumulator)
        else
          let removed_tokens :=
            default (_estimate_tokens_for_message (deref h removed))
                    (token_counts !! removed) in
          prune_loop target preserved_tokens max_iterations token_counts h
            prunable' (prunable_tokens - removed_tokens) (iterations + 1)
            (removed_accumulator ++ [removed])
      else (prunable, removed_accumulator)
  end.

(** *** Stage 2: the summary notice *)

(** The excerpt of a removed message: [f"[{rm.role}] {excerpt_text}"]. *)
Definition excerpt (rm : Message) : string :=
  let excerpt_text :=
    match content rm with
    | CText s => prefix 400 (strip s)
    | CStruct p => prefix 400 (dumps_content p)
    end in
  "[" +:+ role_str (role rm) +:+ "] " +:+ excerpt_text.

Definition summary_header : string :=
  nl +:+ nl +:+ "... [Earlier conversation truncated to fit model context window] ..."
     +:+ nl +:+ nl.

Definition make_notice (h : heap) (removed_accumulator : list addr)
    (per_message_target : Z) : Message :=
  let excerpts := (fun rm => excerpt (deref h rm)) <$> removed_accumulator in
  let summary_text := summary_header +:+ join (nl +:+ "---" +:+ nl) excerpts in
  let summary_text := truncate_text_by_tokens summary_text per_message_target in
  mkMessage system
    (CText ("Conversation summary (truncated):" +:+ nl +:+ summary_text))
    None None.

(** The loop of lines 250-252 from index [i]: one past the last system
    message. *)
Fixpoint find_insert_index (h : heap) (compressed : list addr)
    (i insert_index : nat) : nat :=
  match compressed with
  | [] => insert_index
  | m :: rest =>
      find_insert_index h rest (S i)
        (if decide (has_role h system m) then S i else insert_index)
  end.

(** [l.insert(i, x)] for [0 <= i] *)
Definition list_insert_at {A} (i : nat) (x : A) (l : list A) : list A :=
  take i l ++ x :: drop i l.

(** Lines 160-257. *)
Definition prune (h : heap) (msgs : list addr) (target per_message_target : Z)
    : heap * (exn + list addr) :=
  let system_msgs := filter (has_role h system) msgs in
  let recent_msgs := last_n 4 msgs in
  match preserve_recent recent_msgs (preserve_essentials h msgs) with
  | inl e => (h, inl e)
  | inr (_, None) => (h, inl UnboundLocalError)
  | inr (preserved, Some preserved_ids) =>
      let prunable := filter (fun a => a ∉ preserved_ids) msgs in
      let token_counts : gmap addr Z :=
        foldl (fun tc a => <[a := _estimate_tokens_for_message (deref h a)]> tc)
              ∅ (preserved ++ prunable) in
      let count a := default 0 (token_counts !! a) in
      let preserved_tokens := sum_Z (count <$> preserved) in
      let prunable_tokens := sum_Z (count <$> prunable) in
      let max_iterations := Z.max 1000 (Z.of_nat (length prunable) * 2) in
      let '(prunable, removed_accumulator) :=
        prune_loop target preserved_tokens max_iterations token_counts h
                   prunable prunable_tokens 0 [] in
      let allowed_ids : gset addr := preserved_ids ∪ list_to_set prunable in
      let compressed := filter (fun a => a ∈ allowed_ids) msgs in
      match removed_accumulator with
      | [] => (h, inr compressed)
      | _ :: _ =>
          let '(h', notice) :=
            alloc h (make_notice h removed_accumulator per_message_target) in
          let insert_index :=
            match system_msgs with
            | _ :: _ => find_insert_index h compressed 0 0
            | [] => 0%nat
            end in
          (h', inr (list_insert_at insert_index notice compressed))
      end
  end.

(** [a or b] on an optional int: [None] and 0 are false. *)
Definition or_int (a : option Z) (b : Z) : Z :=
  match a with
  | Some x => if x =? 0 then b else x
  | None => b
  end.

(** The result is the heap after the call and either the exception
    raised or the returned list. *)
Definition enforce_context_limit (self : LLMClientBase) (h : heap)
    (messages : list addr) (model_context_limit_arg safety_margin : option Z)
    : heap * (exn + list addr) :=
  let limit :=
    or_int model_context_limit_arg (or_int (model_context_limit self) 65536) in
  let margin := default (context_safety_margin self) safety_margin in
  let target := Z.max 1024 (limit - margin) in
  let '(h, msgs) := copy_messages h messages in
  (* print(msgs[1]) *)
  match msgs !! 1%nat with
  | None => (h, inl IndexError)
  | Some _ =>
      let total := _estimate_tokens_for_messages h msgs in
      if total <=? target then (h, inr msgs)
      else
        let per_message_target := Z.min 8192 (Z.max 512 (target / 8)) in
        let h := truncate_long per_message_target h msgs in
        let total := _estimate_tokens_for_messages h msgs in
        if total <=? target then (h, inr msgs)
        else prune h msgs target per_message_target
  end.

(** *** Vocabulary of the specification *)

(** The addresses of the copies that a call on [messages] makes in the heap
    [h], in the order of [messages], and the address that a summary notice
    gets. *)
Definition copies (h : heap) (messages : list addr) : list addr :=
  seq (length h) (length messages).

Definition notice_addr (h : heap) (messages : list addr) : addr :=
  (length h + length messages)%nat.

(** [m'] is [m] with the same role, thinking and tool calls, and the same
    content or the truncation of its text. *)
Definition same_but_truncated (m m' : Message) : Prop :=
  role m' = role m ∧ thinking m' = thinking m ∧ tool_calls m' = tool_calls m ∧
  (content m' = content m ∨
   ∃ s k, content m = CText s ∧ content m' = CText (truncate_text_by_tokens s k)).

(** The copy of the message at position [i] of [messages]. *)
Definition copy_at (h : heap) (i : nat) : addr := (length h + i)%nat.

(** The notice goes right after the last system message, or to the front
    when there is none. *)
Definition notice_place h (kept : list addr) (k : nat) : Prop :=
  Forall (fun a => ¬ has_role h system a) (drop k kept) ∧
  (k = 0%nat ∨ ∃ a, kept !! (k - 1)%nat = Some a ∧ has_role h system a).

(** What [prune] does on a list of distinct addresses: it raises
    [UnboundLocalError] and allocates nothing, or it returns the whole list,
    or it returns what it kept with a notice put in. *)
Inductive prune_result h msgs : heap * (exn + list addr) → Prop :=
| prune_raises :
    filter (has_role h user) msgs = [] →
    prune_result h msgs (h, inl UnboundLocalError)
| prune_keeps_all :
    prune_result h msgs (h, inr msgs)
| prune_removes (ids : gset addr) (kept : list addr) (k : nat) (notice : Message) :
    (∀ u us, filter (has_role h user) msgs = u :: us → u ∈ ids) →
    (∀ a, a ∈ msgs → has_role h system a → a ∈ ids) →
    (∀ a, a ∈ last_n 4 msgs → a ∈ ids) →
    kept `sublist_of` msgs →
    (length kept < length msgs)%nat →
    (∀ a, a ∈ msgs → a ∈ ids → a ∈ kept) →
    role notice = system →
    notice_place h kept k →
    prune_result h msgs
      (h ++ [notice], inr (list_insert_at k (length h) kept)).

(** The copies of [messages] are the messages [cs]: one per input message,
    in order, each the input message up to truncation. *)
Definition copied (h : heap) (messages : list addr) (cs : heap) : Prop :=
  length cs = length messages ∧
  ∀ i src, messages !! i = Some src →
    ∃ c, cs !! i = Some c ∧ same_but_truncated (deref h src) c.

(** The target and the per-message target of a call, and the heap after the
    copy and after the truncation of long contents. *)
Definition target_for (self : LLMClientBase) (limit_arg margin_arg : option Z) : Z :=
  Z.max 1024 (or_int limit_arg (or_int (model_context_limit self) 65536)
              - default (context_safety_margin self) margin_arg).

Definition per_message_target_for (target : Z) : Z :=
  Z.min 8192 (Z.max 512 (target / 8)).

Definition stage0_heap (h : heap) (messages : list addr) : heap :=
  h ++ (deref h <$> messages).

Definition stage1_heap (k : Z) (h : heap) (messages : list addr) : heap :=
  h ++ (truncate_content k <$> (deref h <$> messages)).

(** The estimate exceeds the target before and after the truncation. *)
Definition over_budget (self : LLMClientBase) (h : heap) (messages : list addr)
    (limit_arg margin_arg : option Z) : Prop :=
  let target := target_for self limit_arg margin_arg in
  target < _estimate_tokens_for_messages (stage0_heap h messages) (copies h messages)
  ∧ target < _estimate_tokens_for_messages
               (stage1_heap (per_message_target_for target) h messages)
               (copies h messages).

(** Position [i] holds the first user message of [messages]. *)
Definition first_user (h : heap) (messages : list addr) (i : nat) : Prop :=
  ∃ src, messages !! i = Some src ∧ role (deref h src) = user ∧
    ∀ j s, (j < i)%nat → messages !! j = Some s → role (deref h s) ≠ user.

(** *** Vocabulary for the preserved set and the budget *)

(** The preserved set that Stage 2 builds for a call, [None] when
    [preserved_ids] stays unbound. *)
Definition preserved_ids_of (self : LLMClientBase) (h : heap) (messages : list addr)
    (limit_arg margin_arg : option Z) : option (gset addr) :=
  let target := target_for self limit_arg margin_arg in
  let h1 := stage1_heap (per_message_target_for target) h messages in
  match preserve_recent (last_n 4 (copies h messages))
          (preserve_essentials h1 (copies h messages)) with
  | inr (_, Some ids) => Some ids
  | _ => None
  end.

(** Position [i] holds the last user message of [messages]. *)
Definition last_user (h : heap) (messages : list addr) (i : nat) : Prop :=
  ∃ src, messages !! i = Some src ∧ role (deref h src) = user ∧
    ∀ j s, (i < j)%nat → messages !! j = Some s → role (deref h s) ≠ user.

(** A planning message: an assistant message with a thinking text. *)
Definition planning (m : Message) : Prop :=
  role m = assistant ∧
  match thinking m with
  | Some (String _ _) => True
  | _ => False
  end.

Global Instance planning_dec m : Decision (planning m).
Proof. unfold planning. destruct (thinking m) as [[|]|]; apply _. Defined.

(** Position [i] holds one of the last three planning messages. *)
Definition recent_planning (h : heap) (messages : list addr) (i : nat) : Prop :=
  ∃ src, messages !! i = Some src ∧ planning (deref h src) ∧
    (length (filter (fun a => planning (deref h a)) (drop (S i) messages)) < 3)%nat.

(** The returned list without the notice. *)
Definition survivors (h : heap) (messages : list addr) (out : list addr) : list addr :=
  filter (fun a => a ≠ notice_addr h messages) out.

End Model.

Global Arguments Message : clear implicits.
Global Arguments Message {Ext}.

Abbreviation addr := nat (only parsing).
Abbreviation heap := (list Message) (only parsing).

(** *** A small instance to run the model on

    One token per character; truncation keeps the first [max_tokens]
    characters; no structured payloads. *)
Definition char_tokens : Externals := {|
  Payload := Empty_set;
  ToolCall := Empty_set;
  dumps_content := fun _ => "";
  dumps_tool_calls := fun _ => "";
  encode_len := String.length;
  truncate_text_by_tokens := fun s n => prefix (Z.to_nat n) s
|}.

(** A conversation to run the model on: eight messages of which seven have
    600 characters of text. *)
Definition sample_text (n : nat) : string := String.concat "" (replicate n "a").

Definition sample_message (r : Role) (n : nat) : Message (Ext := char_tokens) :=
  mkMessage r (CText (sample_text n)) None None.

Definition sample_heap : list (Message (Ext := char_tokens)) :=
  [sample_message user 600; sample_message assistant 600;
   sample_message assistant 600; sample_message system 10;
   sample_message assistant 600; sample_message tool 600;
   sample_message user 600; sample_message assistant 600].

Definition sample_client : LLMClientBase := mkClient None 512.

End Enforcer.

(** ** The configuration overrides ([config_override.py]) *)

Module ConfigOverride.
Import PyStr.

(** Configuration values: scalars and nested dictionaries with string keys,
    as a YAML file without sequences and without anchors gives them. A
    dictionary is the list of its items in insertion order; values are
    trees, no sub-dictionary is shared between two places. Dictionaries
    with sharing are the subject of [ConfigStore] below. *)
Inductive leaf :=
| LNone
| LBool (b : bool)
| LInt (z : Z)
| LFloat (q : Q)
| LStr (s : string).

#[warnings="-register-all"]
Inductive cfg :=
| Leaf (v : leaf)
| Dict (d : list (string * cfg)).

Abbreviation dict := (list (string * cfg)) (only parsing).

Inductive exn := IndexError | TypeError | ValueError.

(** [d.get(k)] *)
Fixpoint dict_get (k : string) (d : dict) : option cfg :=
  match d with
  | [] => None
  | (k', v) :: d' => if decide (k = k') then Some v else dict_get k d'
  end.

(** [d[k] = v]: an existing key keeps its place, a new key goes last. *)
Fixpoint dict_set (k : string) (v : cfg) (d : dict) : dict :=
  match d with
  | [] => [(k, v)]
  | (k', v') :: d' =>
      if decide (k = k') then (k, v) :: d' else (k', v') :: dict_set k v d'
  end.

(** What [result[key]] becomes in [_deep_merge] for the override [value]
    when [result.get(key)] is [existing]: the merge of the two when both are
    dictionaries, and [value] otherwise. The inner loop is the [for] loop of
    [_deep_merge] over the items of the override. *)
Fixpoint merge_entry (value : cfg) (existing : option cfg) {struct value} : cfg :=
  match value, existing with
  | Dict override, Some (Dict base) =>
      Dict ((fix loop (override : dict) (result : dict) {struct override} : dict :=
               match override with
               | [] => result
               | (key, v) :: rest =>
                   loop rest (dict_set key (merge_entry v (dict_get key result)) result)
               end) override base)
  | _, _ => value
  end.

(** [_deep_merge(base, override)]; the deep copy is the identity on values. *)
Definition _deep_merge (base override : dict) : dict :=
  match merge_entry (Dict override) (Some (Dict base)) with
  | Dict result => result
  | Leaf _ => base
  end.

(** [_set_nested_value(data, path_parts, value)], returning the dictionary
    after the assignment. An empty path raises at [path_parts[-1]]; a scalar
    on the way raises [TypeError] at the membership test or at the item
    assignment. *)
Fixpoint _set_nested_value (data : dict) (path_parts : list string) (value : cfg)
    : exn + dict :=
  match path_parts with
  | [] => inl IndexError
  | [last_part] => inr (dict_set last_part value data)
  | part :: rest =>
      match dict_get part data with
      | None =>
          match _set_nested_value [] rest value with
          | inr sub => inr (dict_set part (Dict sub) data)
          | inl e => inl e
          end
      | Some (Dict current) =>
          match _set_nested_value current rest value with
          | inr sub => inr (dict_set part (Dict sub) data)
          | inl e => inl e
          end
      | Some (Leaf _) => inl TypeError
      end
  end.

(** [s.split(sep)] for a separator of one character. *)
Fixpoint split_on (sep : ascii) (s : string) : list string :=
  match s with
  | EmptyString => [EmptyString]
  | String c s' =>
      if decide (c = sep) then EmptyString :: split_on sep s'
      else match split_on sep s' with
           | w :: ws => String c w :: ws
           | [] => [String c EmptyString]
           end
  end.

(** The loop over [cli_args] in [apply_overrides]. *)
Fixpoint apply_cli (result : dict) (cli_args : list (string * cfg)) : exn + dict :=
  match cli_args with
  | [] => inr result
  | (path, value) :: rest =>
      let path_parts := split_on "." path in
      match _set_nested_value result path_parts value with
      | inr result' => apply_cli result' rest
      | inl e => inl e
      end
  end.

(** [apply_overrides] on the dictionaries that [get_file_overrides] and
    [get_env_overrides] return and on [self.cli_args]; the returned
    dictionary only, the bookkeeping in [self.overrides] is left out. *)
Definition apply_overrides (config_dict file_overrides env_overrides : dict)
    (cli_args : list (string * cfg)) : exn + dict :=
  let result := config_dict in
  let result :=
    match file_overrides with
    | [] => result
    | _ => _deep_merge result file_overrides
    end in
  let result :=
    match env_overrides with
    | [] => result
    | _ => _deep_merge result env_overrides
    end in
  apply_cli result cli_args.

(** *** Vocabulary of the specification *)

(** The value at a path of keys. *)
Fixpoint lookup_path (d : dict) (path : list string) : option cfg :=
  match path with
  | [] => Some (Dict d)
  | k :: rest =>
      match dict_get k d, rest with
      | Some v, [] => Some v
      | Some (Dict d'), _ => lookup_path d' rest
      | _, _ => None
      end
  end.

(** A scalar lies on the way of a path: a proper prefix of the path leads
    to a scalar. *)
Definition blocked (d : dict) (path : list string) : Prop :=
  ∃ pre suf x, path = pre ++ suf ∧ suf ≠ [] ∧ lookup_path d pre = Some (Leaf x).

(** The keys of a dictionary. *)
Definition keys (d : dict) : list string := d.*1.

(** A dictionary as Python has it: no key twice, at any depth. *)
Fixpoint wf_cfg (c : cfg) : Prop :=
  match c with
  | Leaf _ => True
  | Dict d =>
      NoDup d.*1 ∧
      (fix all (d : dict) : Prop :=
         match d with
         | [] => True
         | (_, v) :: d' => wf_cfg v ∧ all d'
         end) d
  end.

(** Induction on configuration values, through the dictionaries. *)
Fixpoint cfg_induction (P : cfg → Prop)
    (Hleaf : ∀ v, P (Leaf v))
    (Hdict : ∀ d, Forall (fun kv => P kv.2) d → P (Dict d))
    (c : cfg) {struct c} : P c :=
  match c with
  | Leaf v => Hleaf v
  | Dict d =>
      Hdict d
        ((fix all (d : dict) : Forall (fun kv => P kv.2) d :=
            match d with
            | [] => List.Forall_nil _
            | (k, v) :: d' =>
                @List.Forall_cons _ (fun kv => P kv.2) (k, v) d'
                  (cfg_induction P Hleaf Hdict v) (all d')
            end) d)
  end.

End ConfigOverride.

(** ** Nested assignment on shared dictionaries ([config_override.py]) *)

Module ConfigStore.

(** [_set_nested_value] assigns in place, and one dictionary object can sit
    at two places of a configuration (a YAML alias; [copy.deepcopy] and
    [result[key] = value] keep such sharing). What the assignment does to
    other paths therefore needs the objects: a value is a scalar or the
    address of a dictionary object, and a store lists the objects, each the
    list of its items in insertion order. *)

Inductive val :=
| VLeaf (x : ConfigOverride.leaf)
| VDict (a : nat).

Abbreviation obj := (list (string * val)) (only parsing).
Abbreviation store := (list (list (string * val))) (only parsing).

(** [o.get(k)] and [o[k] = v] on the items of one dictionary object. *)
Fixpoint obj_get (k : string) (o : obj) : option val :=
  match o with
  | [] => None
  | (k', v) :: o' => if decide (k = k') then Some v else obj_get k o'
  end.

Fixpoint obj_set (k : string) (v : val) (o : obj) : obj :=
  match o with
  | [] => [(k, v)]
  | (k', v') :: o' =>
      if decide (k = k') then (k, v) :: o' else (k', v') :: obj_set k v o'
  end.

(** The object at an address. *)
Definition read (σ : store) (a : nat) : obj := default [] (σ !! a).

(** [current[k] = v], in place: the object at [current] changes, and every
    place that holds the address [current] sees the change. *)
Definition write (σ : store) (current : nat) (k : string) (v : val) : store :=
  <[current := obj_set k v (read σ current)]> σ.

(** [{}]: a new object at the next address. *)
Definition alloc (σ : store) : store * nat := (σ ++ [[]], length σ).

(** [_set_nested_value(data, path_parts, value)] on the object [data] at the
    address [current]: the store after the call and the exception raised, if
    any. *)
Fixpoint _set_nested_value (σ : store) (current : nat) (path_parts : list string)
    (value : val) : store * option ConfigOverride.exn :=
  match path_parts with
  | [] => (σ, Some ConfigOverride.IndexError)
  | [last_part] => (write σ current last_part value, None)
  | part :: rest =>
      match obj_get part (read σ current) with
      | None =>
          let '(σ1, new) := alloc σ in
          _set_nested_value (write σ1 current part (VDict new)) new rest value
      | Some (VDict next) => _set_nested_value σ next rest value
      | Some (VLeaf _) => (σ, Some ConfigOverride.TypeError)
      end
  end.

(** *** Vocabulary of the specification *)

(** The value at a path of keys, from the object at [current]. *)
Fixpoint lookup_path (σ : store) (current : nat) (path : list string) : option val :=
  match path with
  | [] => Some (VDict current)
  | k :: rest =>
      match obj_get k (read σ current), rest with
      | Some v, [] => Some v
      | Some (VDict next), _ => lookup_path σ next rest
      | _, _ => None
      end
  end.

(** The entries that the lookup of a path reads: an object and a key each. *)
Fixpoint reads (σ : store) (current : nat) (path : list string) : list (nat * string) :=
  match path with
  | [] => []
  | k :: rest =>
      (current, k) ::
      match obj_get k (read σ current) with
      | Some (VDict next) => reads σ next rest
      | _ => []
      end
  end.

(** The entry of an object of the store that the assignment writes: the
    last key of the path in the dictionary that the path leads to, or the
    first key of the path that is missing. *)
Fixpoint written (σ : store) (current : nat) (path_parts : list string)
    : option (nat * string) :=
  match path_parts with
  | [] => None
  | [last_part] => Some (current, last_part)
  | part :: rest =>
      match obj_get part (read σ current) with
      | None => Some (current, part)
      | Some (VDict next) => written σ next rest
      | Some (VLeaf _) => None
      end
  end.

(** Every address that an object holds is the address of an object. *)
Definition wf (σ : store) : Prop :=
  ∀ a k b, obj_get k (read σ a) = Some (VDict b) → (b < length σ)%nat.

(** [{'x': d, 'y': d}] with the one object [d = {'b': 2}] at both keys. *)
Definition shared_store : store :=
  [[("x", VDict 1); ("y", VDict 1)]; [("b", VLeaf (ConfigOverride.LInt 2))]].

End ConfigStore.

(** ** The keyboard listener ([keyboard_utils.py]) *)

Module Keyboard.

(** What a listener stores in [self._current_key]: [_listen_unix] stores
    the [str] that [sys.stdin.read] returns, [_listen_windows] the [bytes]
    that [msvcrt.getch] returns. *)
Inductive pykey :=
| KStr (s : string)
| KBytes (b : list Byte.byte).

(** What [is_esc_pressed] returns: the value of
    [key == ESC or (key and len(key) > 1 and key[0] == ESC)], which is a
    bool, or [None], or the empty string or the empty bytes. *)
Inductive pyres :=
| RBool (b : bool)
| RNone
| RStr (s : string)
| RBytes (b : list Byte.byte).

Definition truthy (r : pyres) : bool :=
  match r with
  | RBool b => b
  | RNone => false
  | RStr EmptyString => false
  | RStr _ => true
  | RBytes [] => false
  | RBytes _ => true
  end.

Definition esc : ascii := ascii_of_nat 27.

(** The body of [KeyboardListener.is_esc_pressed], run under the lock: from
    [self._current_key] to the result and the new [self._current_key]. For
    a [bytes] key both comparisons with the [str] ESC are false: [bytes]
    never equal a [str], and [key[0]] is an [int]. *)
Definition is_esc_pressed (_current_key : option pykey) : pyres * option pykey :=
  let key := _current_key in
  let result :=
    match key with
    | None => RNone
    | Some (KStr k) =>
        if decide (k = String esc EmptyString) then RBool true
        else match k with
             | EmptyString => RStr EmptyString
             | String c _ =>
                 RBool (bool_decide (1 < String.length k)%nat && bool_decide (c = esc))
             end
    | Some (KBytes k) =>
        match k with
        | [] => RBytes []
        | _ :: _ => RBool (bool_decide (1 < length k)%nat && false)
        end
    end in
  (result, None).

End Keyboard.

(** ** Facts about the string and number primitives *)

Module PyFacts.
Import PyStr PyNum.

Lemma append_cons (c : ascii) (s t : string) :
  String c s +:+ t = String c (s +:+ t).
Proof. reflexivity. Qed.

Lemma append_empty_r (s : string) : s +:+ EmptyString = s.
Proof.
  induction s as [|c s IH]; [reflexivity |]. now rewrite append_cons, IH.
Qed.

Lemma cons_word_word w ws : w ≠ EmptyString → cons_word w ws = w :: ws.
Proof. destruct w; [congruence | reflexivity]. Qed.

Lemma Forall_cons_word w ws :
  no_space w = true → Forall is_word ws → Forall is_word (cons_word w ws).
Proof.
  intros Hw Hws. destruct w as [|c w]; simpl; [exact Hws |].
  constructor; [split; [discriminate | exact Hw] | exact Hws].
Qed.

Lemma split_aux_words (s : string) :
  no_space (split_aux s).1 = true ∧ Forall is_word (split_aux s).2.
Proof.
  induction s as [|c s [IHw IHws]]; simpl; [split; [reflexivity | constructor] |].
  destruct (split_aux s) as [w ws]; simpl in *.
  destruct (is_space c) eqn:Hc; simpl.
  - split; [reflexivity | now apply Forall_cons_word].
  - rewrite Hc; simpl. split; assumption.
Qed.

Lemma split_words (s : string) : Forall is_word (split s).
Proof.
  unfold split. pose proof (split_aux_words s) as [Hw Hws].
  destruct (split_aux s) as [w ws]; simpl in *. now apply Forall_cons_word.
Qed.

Lemma split_aux_app (w s : string) :
  no_space w = true →
  split_aux (w +:+ s) = (w +:+ (split_aux s).1, (split_aux s).2).
Proof.
  induction w as [|c w IH]; intros Hw.
  - change (EmptyString +:+ s) with s.
    change (EmptyString +:+ (split_aux s).1) with (split_aux s).1.
    now destruct (split_aux s).
  - simpl in Hw. apply andb_prop in Hw as [Hc Hw].
    rewrite !append_cons. cbn [split_aux]. rewrite (IH Hw).
    apply negb_true_iff in Hc. now rewrite Hc.
Qed.

Lemma split_aux_no_space (w : string) :
  no_space w = true → split_aux w = (w, []).
Proof.
  intros Hw. rewrite <- (append_empty_r w) at 1.
  rewrite (split_aux_app w EmptyString Hw); simpl. now rewrite append_empty_r.
Qed.

(** Joining words with a space and splitting again gives the words back. *)
Lemma split_join (ws : list string) :
  Forall is_word ws → split (join " " ws) = ws.
Proof.
  induction 1 as [|w ws [Hne Hw] Hws IH]; [reflexivity |].
  destruct ws as [|w' ws'].
  - simpl. unfold split. rewrite (split_aux_no_space w Hw).
    now apply cons_word_word.
  - change (join " " (w :: w' :: ws')) with (w +:+ " " +:+ join " " (w' :: ws')).
    unfold split. rewrite (split_aux_app _ _ Hw).
    change (" " +:+ join " " (w' :: ws')) with (String " " (join " " (w' :: ws'))).
    cbn [split_aux]. unfold split in IH.
    destruct (split_aux (join " " (w' :: ws'))) as [u us].
    change (is_space " ") with true. cbn [fst snd].
    rewrite IH, append_empty_r. now apply cons_word_word.
Qed.

Lemma length_split_join_take (n : nat) (s : string) :
  length (split (join " " (take n (split s)))) = Nat.min n (length (split s)).
Proof.
  rewrite split_join by (apply Forall_take, split_words).
  apply length_take.
Qed.

(** [int] of an integer-valued float, and monotonicity of [int]. *)
Lemma py_int_inject_Z (z : Z) : py_int (inject_Z z) = z.
Proof.
  unfold py_int. destruct (Qle_bool 0 (inject_Z z)).
  - apply Qfloor_Z.
  - apply Qceiling_Z.
Qed.

Lemma py_int_comp (p q : Q) : (p == q)%Q → py_int p = py_int q.
Proof.
  intros E. unfold py_int.
  replace (Qle_bool 0 p) with (Qle_bool 0 q)
    by (symmetry; apply Qleb_comp; [reflexivity | exact E]).
  destruct (Qle_bool 0 q); [now apply Qfloor_comp | now apply Qceiling_comp].
Qed.

Lemma py_int_le (p q : Q) : (p <= q)%Q → (py_int p <= py_int q)%Z.
Proof.
  intros Hpq. unfold py_int.
  destruct (Qle_bool 0 p) eqn:Hp, (Qle_bool 0 q) eqn:Hq.
  - now apply Qfloor_resp_le.
  - apply Qle_bool_iff in Hp.
    assert (Qle_bool 0 q = true) by (apply Qle_bool_iff; now apply Qle_trans with p).
    congruence.
  - (* p < 0 <= q *)
    apply Qle_bool_iff in Hq.
    apply Z.le_trans with 0%Z.
    + change 0%Z with (Qceiling 0). apply Qceiling_resp_le.
      apply Qnot_lt_le. intros Hlt.
      apply Qlt_le_weak, Qle_bool_iff in Hlt. congruence.
    + change 0%Z with (Qfloor 0). now apply Qfloor_resp_le.
  - now apply Qceiling_resp_le.
Qed.

Lemma py_int_le_Z (p : Q) (z : Z) : (p <= inject_Z z)%Q → (py_int p <= z)%Z.
Proof. intros H. rewrite <- (py_int_inject_Z z). now apply py_int_le. Qed.

Lemma max_1_ge_1 (f : Q) : (1 <= max_1 f)%Q.
Proof.
  unfold max_1. destruct (Qle_bool f 1) eqn:E; [apply Qle_refl |].
  apply Qnot_lt_le. intros Hlt. apply Qlt_le_weak, Qle_bool_iff in Hlt. congruence.
Qed.

Lemma max_1_ge (f : Q) : (f <= max_1 f)%Q.
Proof.
  unfold max_1. destruct (Qle_bool f 1) eqn:E; [now apply Qle_bool_iff | apply Qle_refl].
Qed.

Lemma max_1_one (f : Q) : (f == 1)%Q → (max_1 f == 1)%Q.
Proof.
  intros E. unfold max_1.
  destruct (Qle_bool f 1) eqn:H; [reflexivity | exact E].
Qed.

(** The comparisons of floats. *)
Lemma fl_le_Fin (x y : Q) : fl_le (Fin x) (Fin y) = true ↔ (x <= y)%Q.
Proof. apply Qle_bool_iff. Qed.

Lemma fl_le_inv (a b : pyfloat) :
  fl_le a b = true → ∃ x y, a = Fin x ∧ b = Fin y ∧ (x <= y)%Q.
Proof.
  destruct a as [x |], b as [y |]; try discriminate.
  intros H. exists x, y. now apply fl_le_Fin in H.
Qed.

Lemma fl_le_trans (a b c : pyfloat) :
  fl_le a b = true → fl_le b c = true → fl_le a c = true.
Proof.
  intros H1 H2.
  apply fl_le_inv in H1 as (x & y & -> & -> & Hxy).
  apply fl_le_inv in H2 as (y' & z & E & -> & Hyz). injection E as <-.
  apply fl_le_Fin. now apply Qle_trans with y.
Qed.

Lemma fl_eq_Fin (x y : Q) : fl_eq (Fin x) (Fin y) = true ↔ (x == y)%Q.
Proof. apply Qeq_bool_iff. Qed.

Lemma not_NaN (a : pyfloat) : a ≠ NaN → ∃ x, a = Fin x.
Proof. destruct a as [x |]; [eauto | congruence]. Qed.

End PyFacts.

(** ** Properties of the selector *)

Module SelectorFacts.
Import PyStr PyNum PyFacts Selector.

Lemma total_est_app (l k : list Selected) :
  total_est (l ++ k) = total_est l + total_est k.
Proof. induction l as [|s l IH]; simpl; [reflexivity | rewrite IH; lia]. Qed.

Lemma estimate_ge_1 (self : ContextSelector) (t : string) :
  1 <= _estimate_tokens self t.
Proof. unfold _estimate_tokens. lia. Qed.

Lemma estimate_factor_1 (self : ContextSelector) (t : string) :
  (avg_tokens_per_word self == 1)%Q →
  _estimate_tokens self t = Z.max 1 (Z.of_nat (length (split t))).
Proof.
  intros E. unfold _estimate_tokens. f_equal.
  rewrite <- (py_int_inject_Z (Z.of_nat (length (split t)))) at 2.
  apply py_int_comp. rewrite E. ring.
Qed.

(** *** The sort *)

Lemma key_gt_Fin (x y : Q) (m n : Z) :
  key_gt (Fin x, m) (Fin y, n) =
  match (x ?= y)%Q with
  | Gt => true
  | Lt => false
  | Eq => n <? m
  end.
Proof.
  unfold key_gt, key_lt. cbn [fst snd fl_eq fl_lt].
  destruct (x ?= y)%Q eqn:E.
  - apply Qeq_alt in E.
    assert (Qeq_bool y x = true) as -> by (apply Qeq_bool_iff; now symmetry).
    reflexivity.
  - apply Qlt_alt in E.
    destruct (Qeq_bool y x) eqn:B.
    + apply Qeq_bool_iff in B. rewrite B in E. now apply Qlt_irrefl in E.
    + assert (Qle_bool x y = true) as ->
        by (apply Qle_bool_iff; now apply Qlt_le_weak).
      reflexivity.
  - apply Qgt_alt in E.
    destruct (Qeq_bool y x) eqn:B.
    + apply Qeq_bool_iff in B. rewrite B in E. now apply Qlt_irrefl in E.
    + destruct (Qle_bool x y) eqn:L; [| reflexivity].
      apply Qle_bool_iff in L. exfalso. now apply (Qlt_not_le y x).
Qed.

(** A key with the score NaN is not greater than any key, and no key is
    greater than it. *)
Lemma key_gt_NaN_l (m : Z) (b : pyfloat * Z) : key_gt (NaN, m) b = false.
Proof. destruct b as [[y |] n]; reflexivity. Qed.

Lemma key_gt_NaN_r (a : pyfloat * Z) (n : Z) : key_gt a (NaN, n) = false.
Proof. destruct a as [[x |] m]; reflexivity. Qed.

Lemma key_gt_score (a b : pyfloat * Z) :
  key_gt a b = true → fl_le b.1 a.1 = true.
Proof.
  destruct a as [[x |] m]; [| now rewrite key_gt_NaN_l].
  destruct b as [[y |] n]; [| now rewrite key_gt_NaN_r].
  rewrite key_gt_Fin. cbn [fst]. rewrite fl_le_Fin.
  destruct (x ?= y)%Q eqn:E; intros H; try discriminate.
  - apply Qeq_alt in E. rewrite E. apply Qle_refl.
  - apply Qgt_alt in E. now apply Qlt_le_weak.
Qed.

Lemma key_not_gt_score (a b : pyfloat * Z) :
  a.1 ≠ NaN → b.1 ≠ NaN → key_gt a b = false → fl_le a.1 b.1 = true.
Proof.
  destruct a as [[x |] m], b as [[y |] n]; cbn [fst]; try congruence.
  intros _ _. rewrite key_gt_Fin, fl_le_Fin.
  destruct (x ?= y)%Q eqn:E; intros H; try discriminate.
  - apply Qeq_alt in E. rewrite E. apply Qle_refl.
  - apply Qlt_alt in E. now apply Qlt_le_weak.
Qed.

Lemma insert_desc_perm (x : ContextItem) (l : list ContextItem) :
  insert_desc x l ≡ₚ x :: l.
Proof.
  induction l as [|y l IH]; simpl; [reflexivity |].
  destruct (key_gt (sort_key y) (sort_key x)); [| reflexivity].
  rewrite IH. apply Permutation_swap.
Qed.

Lemma sort_desc_perm (l : list ContextItem) : sort_desc l ≡ₚ l.
Proof.
  induction l as [|x l IH]; simpl; [reflexivity |].
  now rewrite insert_desc_perm, IH.
Qed.

Lemma sort_desc_finite (l : list ContextItem) :
  Forall finite_score l → Forall finite_score (sort_desc l).
Proof.
  rewrite !Forall_forall. intros H x Hx. apply H. now rewrite <- sort_desc_perm.
Qed.

Lemma insert_desc_sorted (x : ContextItem) (l : list ContextItem) :
  finite_score x → Forall finite_score l →
  StronglySorted item_desc l → StronglySorted item_desc (insert_desc x l).
Proof.
  intros Hx Hfin. induction 1 as [|y l Hl IH Hy]; simpl; [repeat constructor |].
  apply Forall_cons in Hfin as [Hfy Hfl].
  destruct (key_gt (sort_key y) (sort_key x)) eqn:E.
  - constructor; [now apply IH |].
    rewrite insert_desc_perm. constructor; [| exact Hy].
    apply key_gt_score in E. exact E.
  - apply key_not_gt_score in E; [| exact Hfy | exact Hx]. simpl in E.
    constructor; [now constructor |].
    constructor; [exact E |].
    eapply Forall_impl; [exact Hy |].
    intros z Hz. unfold item_desc in *. now apply fl_le_trans with (score y).
Qed.

(** Without a NaN score the sorted scores do not increase. *)
Lemma sort_desc_sorted (l : list ContextItem) :
  Forall finite_score l → StronglySorted item_desc (sort_desc l).
Proof.
  induction l as [|x l IH]; intros Hfin; simpl; [constructor |].
  apply Forall_cons in Hfin as [Hx Hl].
  apply insert_desc_sorted; [exact Hx | now apply sort_desc_finite | now apply IH].
Qed.

(** The score is NaN exactly when the weight is. *)
Lemma score_item_NaN (now : Q) (it : ContextItem) (query : string) :
  score_item now it query = NaN ↔ metadata it !! "w" = Some PyNaN.
Proof.
  unfold score_item, _importance_score.
  destruct (metadata it !! "w") as [[| q |] |]; simpl; split; congruence.
Qed.

Lemma normalize_weight (src : string) (e : entry) :
  metadata (normalize src e) !! "w" = Some PyNaN ↔ nan_weight e.
Proof.
  destruct e as [s | d]; simpl.
  - rewrite lookup_empty. split; [discriminate | tauto].
  - now rewrite !lookup_delete_ne by discriminate.
Qed.

Lemma scored_items_finite (now : Q) (query : string)
    (documents messages tools_outputs : list entry) :
  Forall (fun e => ¬ nan_weight e) (documents ++ messages ++ tools_outputs) →
  Forall finite_score (scored_items now query documents messages tools_outputs).
Proof.
  intros H. apply Forall_app in H as [Hd H]. apply Forall_app in H as [Hm Ht].
  unfold scored_items. rewrite !fmap_app, !Forall_app, !Forall_fmap.
  repeat split; (eapply Forall_impl; [eassumption |]);
    intros e He; unfold finite_score; simpl;
    rewrite score_item_NaN, normalize_weight; exact He.
Qed.

(** *** The greedy fill *)

(** Once the budget is used up, the scan appends nothing. *)
Lemma greedy_fill_done (self : ContextSelector) (token_budget : Z)
    (items : list ContextItem) (selected : list Selected) (used : Z) :
  token_budget <= used →
  greedy_fill self token_budget items selected used = selected.
Proof.
  intros Hu. induction items as [|it rest IH]; cbn [greedy_fill]; [reflexivity |].
  pose proof (estimate_ge_1 self (text it)).
  destruct (Z.ltb_spec token_budget (used + _estimate_tokens self (text it))); [| lia].
  destruct (Z.ltb_spec used token_budget); [lia |].
  rewrite andb_false_r. exact IH.
Qed.

Lemma greedy_fill_sorted (self : ContextSelector) (token_budget : Z)
    (items : list ContextItem) (selected : list Selected) (used : Z) :
  StronglySorted item_desc items →
  StronglySorted score_desc selected →
  (∀ s it, s ∈ selected → it ∈ items → fl_le (score it) (sel_score s) = true) →
  StronglySorted score_desc (greedy_fill self token_budget items selected used).
Proof.
  revert selected used.
  induction items as [|it rest IH]; intros selected used Hitems Hsel Hle;
    cbn [greedy_fill]; [exact Hsel |].
  apply StronglySorted_cons in Hitems as [Hit Hrest].
  assert (Hext : ∀ t, sel_score t = score it →
            StronglySorted score_desc (selected ++ [t]) ∧
            (∀ s it', s ∈ selected ++ [t] → it' ∈ rest →
               fl_le (score it') (sel_score s) = true)).
  { intros t Ht. split.
    - apply StronglySorted_app_2; [| exact Hsel | repeat constructor].
      intros s t' Hs Ht'. apply list_elem_of_singleton in Ht' as ->.
      unfold score_desc. rewrite Ht. apply Hle; [exact Hs | left].
    - intros s it' Hs Hit'. apply elem_of_app in Hs as [Hs | Hs].
      + apply Hle; [exact Hs | now right].
      + apply list_elem_of_singleton in Hs as ->. rewrite Ht.
        rewrite Forall_forall in Hit. now apply Hit. }
  assert (Hskip : ∀ s it', s ∈ selected → it' ∈ rest →
            fl_le (score it') (sel_score s) = true).
  { intros s it' Hs Hit'. apply Hle; [exact Hs | now right]. }
  destruct (token_budget <? used + _estimate_tokens self (text it)).
  - destruct (fl_le (Fin (6 # 10)) (score it) && (used <? token_budget)).
    + destruct (Hext (truncated_item self token_budget used it) eq_refl).
      now apply IH.
    + now apply IH.
  - destruct (Hext (full_item self it) eq_refl) as [H1 H2].
    destruct (token_budget <=? used + _estimate_tokens self (text it));
      [exact H1 | now apply IH].
Qed.

(** *** The size of a truncated item *)

Lemma truncates_inv (self : ContextSelector) (token_budget used : Z)
    (it : ContextItem) :
  truncates self token_budget used it = true →
  token_budget < used + _estimate_tokens self (text it) ∧
  fl_le (Fin (6 # 10)) (score it) = true ∧ used < token_budget.
Proof.
  unfold truncates. intros H.
  apply andb_prop in H as [H H3]. apply andb_prop in H as [H1 H2].
  apply Z.ltb_lt in H1, H3. tauto.
Qed.

Lemma truncated_length (self : ContextSelector) (token_budget used : Z)
    (it : ContextItem) :
  length (split (sel_text (truncated_item self token_budget used it))) =
  Nat.min
    (Z.to_nat (Z.max 1 (py_int (inject_Z (token_budget - used) /
                                max_1 (avg_tokens_per_word self)))))
    (length (split (text it))).
Proof. unfold truncated_item; simpl. apply length_split_join_take. Qed.

(** With the factor 1.0 the truncated item takes exactly what is left. *)
Lemma truncated_exact (self : ContextSelector) (token_budget used : Z)
    (it : ContextItem) :
  (avg_tokens_per_word self == 1)%Q →
  truncates self token_budget used it = true →
  est_tokens (truncated_item self token_budget used it) = token_budget - used.
Proof.
  intros E Ht. apply truncates_inv in Ht as (Hover & _ & Hlt).
  rewrite (estimate_factor_1 _ _ E) in Hover.
  change (est_tokens (truncated_item self token_budget used it))
    with (_estimate_tokens self (sel_text (truncated_item self token_budget used it))).
  rewrite (estimate_factor_1 _ _ E), truncated_length.
  assert (Hq : py_int (inject_Z (token_budget - used) /
                       max_1 (avg_tokens_per_word self)) = token_budget - used).
  { rewrite <- (py_int_inject_Z (token_budget - used)) at 2.
    apply py_int_comp. rewrite (max_1_one _ E). field. }
  rewrite Hq. lia.
Qed.

(** For any factor, the truncated item fits into what is left of the
    budget unless it was cut down to the minimum of one word. *)
Lemma truncated_fits (self : ContextSelector) (token_budget used : Z)
    (it : ContextItem) :
  truncates self token_budget used it = true →
  let t := truncated_item self token_budget used it in
  est_tokens t <= token_budget - used ∨
  (length (split (sel_text t)) = 1%nat ∧
   est_tokens t = Z.max 1 (py_int (avg_tokens_per_word self))).
Proof.
  intros Ht t. apply truncates_inv in Ht as (Hover & _ & Hlt).
  set (f := avg_tokens_per_word self) in *.
  set (r := token_budget - used) in *.
  set (q := py_int (inject_Z r / max_1 f)).
  set (len := length (split (text it))).
  assert (Hk : length (split (sel_text t)) = Nat.min (Z.to_nat (Z.max 1 q)) len)
    by apply truncated_length.
  assert (Hest : est_tokens t =
            Z.max 1 (py_int (inject_Z (Z.of_nat (length (split (sel_text t)))) * f)))
    by reflexivity.
  assert (Hlen : (1 <= len)%nat).
  { destruct len as [|n] eqn:El; [| lia]. exfalso.
    unfold _estimate_tokens in Hover. fold len in Hover. rewrite El in Hover.
    assert (py_int (inject_Z (Z.of_nat 0) * avg_tokens_per_word self) = 0) as E0.
    { rewrite <- (py_int_inject_Z 0). apply py_int_comp. simpl. ring. }
    rewrite E0 in Hover. lia. }
  pose proof (max_1_ge_1 f) as Hm1. pose proof (max_1_ge f) as Hmf.
  destruct (Z_le_gt_dec q 1) as [Hq | Hq].
  - (* one word *)
    destruct (Z_le_gt_dec (est_tokens t) r) as [Hfit | Hno]; [now left | right].
    assert (Hone : length (split (sel_text t)) = 1%nat) by lia.
    split; [exact Hone |].
    rewrite Hest, Hone. f_equal. apply py_int_comp. simpl. ring.
  - (* [q] words, [2 <= q] *)
    left. rewrite Hest. apply Z.max_lub; [lia |].
    apply py_int_le_Z.
    set (k := Z.of_nat (length (split (sel_text t)))).
    assert (Hkq : k <= q) by lia.
    assert (Hk0 : 0 <= k) by lia.
    assert (Hr0 : (0 <= inject_Z r / max_1 f)%Q).
    { apply Qle_shift_div_l; [now apply Qlt_le_trans with 1%Q |].
      rewrite Qmult_0_l. change 0%Q with (inject_Z 0). rewrite <- Zle_Qle. lia. }
    assert (Hqr : (inject_Z q * max_1 f <= inject_Z r)%Q).
    { assert (Hfl : (inject_Z q <= inject_Z r / max_1 f)%Q).
      { unfold q, py_int. apply Qle_bool_iff in Hr0. rewrite Hr0. apply Qfloor_le. }
      apply Qle_trans with (inject_Z r / max_1 f * max_1 f)%Q.
      - apply Qmult_le_compat_r; [exact Hfl |].
        now apply Qle_trans with 1%Q.
      - assert (~ max_1 f == 0)%Q.
        { intros E. rewrite E in Hm1. now apply Hm1. }
        rewrite Qmult_comm, Qmult_div_r by assumption. apply Qle_refl. }
    destruct (Qlt_le_dec f 0) as [Hneg | Hpos].
    + apply Qle_trans with (0 * inject_Z k)%Q.
      * rewrite (Qmult_comm (inject_Z k) f).
        apply Qmult_le_compat_r; [now apply Qlt_le_weak |].
        change 0%Q with (inject_Z 0). now rewrite <- Zle_Qle.
      * rewrite Qmult_0_l. change 0%Q with (inject_Z 0). rewrite <- Zle_Qle. lia.
    + apply Qle_trans with (inject_Z q * f)%Q.
      * apply Qmult_le_compat_r; [now rewrite <- Zle_Qle | exact Hpos].
      * apply Qle_trans with (inject_Z q * max_1 f)%Q; [| exact Hqr].
        rewrite (Qmult_comm _ f), (Qmult_comm _ (max_1 f)).
        apply Qmult_le_compat_r; [exact Hmf |].
        change 0%Q with (inject_Z 0). rewrite <- Zle_Qle. lia.
Qed.

(** *** The model on the repository's tests *)

(** [test_respects_token_budget], scenario D: one truncated item of ten
    tokens. *)
Example run_respects_token_budget :
  (fun s => (sel_text s, est_tokens s)) <$>
    select_context default_selector 1700000000 "word"
      [EDict (mkDict (Some long_doc) None {["ts" := PyNum 9999999999]})] [] [] 10
  = [("word word word word word word word word word word", 10)].
Proof. vm_compute. reflexivity. Qed.

(** Scenario C: the document about the error comes first. *)
Example run_scenario_C :
  sel_text <$>
    select_context default_selector 1700000000 "file save error"
      [log_doc 1699999000; notes_doc 1000000000] [] [] 200
  = ["The system encountered an error while saving file.";
     "Release notes: added new endpoint for payments."].
Proof. vm_compute. reflexivity. Qed.

(** [test_selects_relevant_document]: the top item mentions the error. *)
Example run_selects_relevant_document :
  head (sel_text <$>
    select_context default_selector 1700000000 "file save error"
      [log_doc 9999999999; notes_doc 1000000000]
      [EStr "User: How do I fix file save error?";
       EStr "Assistant: Try checking permissions."] [] 200)
  = Some "User: How do I fix file save error?".
Proof. vm_compute. reflexivity. Qed.

End SelectorFacts.

(** ** The specification of the selector *)

Module SelectorSpec.
Import PyStr PyNum PyFacts Selector SelectorFacts.

Section Fill.
Variable self : ContextSelector.
Variable token_budget : Z.
Variable pool : list ContextItem.

Lemma greedy_fill_within (items : list ContextItem)
    (selected : list Selected) (used : Z) :
  used = total_est selected →
  used <= token_budget →
  items ⊆ pool →
  within_budget self token_budget pool
    (greedy_fill self token_budget items selected used).
Proof.
  revert selected used.
  induction items as [|it rest IH]; intros selected used Hu Hle Hin;
    cbn [greedy_fill].
  - left. lia.
  - assert (Hrest : rest ⊆ pool) by set_solver.
    destruct (Z.ltb_spec token_budget (used + _estimate_tokens self (text it)))
      as [Hover | Hfits].
    + destruct (fl_le (Fin (6 # 10)) (score it) && (used <? token_budget)) eqn:Hb;
        [| now apply IH].
      assert (Htr : truncates self token_budget used it = true).
      { unfold truncates. apply andb_prop in Hb as [-> ->].
        apply Z.ltb_lt in Hover. now rewrite Hover. }
      set (t := truncated_item self token_budget used it).
      destruct (Z_le_gt_dec (used + est_tokens t) token_budget) as [Hok | Hno].
      * apply IH; [rewrite total_est_app; simpl; lia | exact Hok | exact Hrest].
      * rewrite greedy_fill_done by lia.
        destruct (truncated_fits self token_budget used it Htr) as [Hfit | [H1 He]];
          [fold t in Hfit; lia |].
        apply truncates_inv in Htr as (_ & Hs & Hlt).
        right. exists selected, it. rewrite <- Hu. fold t.
        repeat split; [lia | set_solver | exact Hs | exact H1 | exact He].
    + destruct (Z.leb_spec token_budget (used + _estimate_tokens self (text it))).
      * left. rewrite total_est_app. simpl. lia.
      * apply IH; [rewrite total_est_app; simpl; lia | lia | exact Hrest].
Qed.

End Fill.

(** C3 (amended). For every call of [select_context] with a token budget
    that is not negative, the [est_tokens] of the returned items sum to at
    most [token_budget], except that the last returned item may be the
    truncated version of an item of score at least 0.6, cut down to the
    minimum of one word, the items before it summing to less than the budget;
    and with the default factor 1.0 the sum is at most [token_budget]. *)
Theorem select_context_budget (self : ContextSelector) (now : Q) (query : string)
    (documents messages tools_outputs : list entry) (token_budget : Z) :
  0 <= token_budget →
  within_budget self token_budget
    (scored_items now query documents messages tools_outputs)
    (select_context self now query documents messages tools_outputs token_budget)
  ∧ ((avg_tokens_per_word self == 1)%Q →
     total_est
       (select_context self now query documents messages tools_outputs token_budget)
     <= token_budget).
Proof.
  intros Hb.
  assert (Hw : within_budget self token_budget
            (scored_items now query documents messages tools_outputs)
            (select_context self now query documents messages tools_outputs
               token_budget)).
  { unfold select_context. apply greedy_fill_within; [reflexivity | exact Hb |].
    intros it Hit. now rewrite sort_desc_perm in Hit. }
  split; [exact Hw |].
  intros E. destruct Hw as [Hle | (pre & it & -> & Hpre & _ & _ & _ & He)];
    [exact Hle |].
  rewrite total_est_app. cbn [total_est foldr]. rewrite He.
  assert (py_int (avg_tokens_per_word self) = 1) as ->.
  { rewrite <- (py_int_inject_Z 1). now apply py_int_comp. }
  lia.
Qed.

Lemma select_context_budget_witness :
  total_est
    (select_context default_selector 0 "word"
       [EStr "word word word word word word word word word word word word"]
       [] [] 10) <= 10.
Proof.
  apply (select_context_budget default_selector 0 "word"
           [EStr "word word word word word word word word word word word word"]
           [] [] 10); [lia | reflexivity].
Defined.

(** C3, as stated, fails for a negative budget: nothing is returned, the
    empty sum exceeds the budget, and no truncated item accounts for it. *)
Lemma select_context_negative_budget :
  ¬ within_budget default_selector (-1)
      (scored_items 0 "word" [EStr "word word word"] [] [])
      (select_context default_selector 0 "word" [EStr "word word word"] [] [] (-1)).
Proof.
  assert (select_context default_selector 0 "word" [EStr "word word word"] [] [] (-1)
          = []) as -> by reflexivity.
  intros [H | (pre & it & E & _)].
  - simpl in H. lia.
  - destruct pre; discriminate.
Qed.

(** C8: the code at two items of equal score. The first returned item is
    the one of fewer characters, and its token estimate is the larger. *)
Theorem tie_break_uses_characters :
  let out := select_context default_selector 0 "x"
               [EStr "a b c"; EStr "abcdefgh"] [] [] 100 in
  (fun s => (sel_text s, est_tokens s)) <$> out = [("a b c", 3); ("abcdefgh", 1)]
  ∧ Forall (fun s => fl_eq (sel_score s) (Fin 0) = true) out.
Proof. split; [reflexivity | repeat constructor]. Qed.

(** C9 (amended). With the default factor 1.0, once the scan includes a
    truncated version of an item, that item is the last of the returned
    list: from any state of the scan at which the truncation branch is
    taken, the result is the selection so far followed by the truncated
    item. *)
Theorem truncation_ends_selection (self : ContextSelector) (token_budget : Z)
    (it : ContextItem) (rest : list ContextItem)
    (selected : list Selected) (used : Z) :
  (avg_tokens_per_word self == 1)%Q →
  truncates self token_budget used it = true →
  greedy_fill self token_budget (it :: rest) selected used =
  selected ++ [truncated_item self token_budget used it].
Proof.
  intros E Ht. pose proof (truncated_exact self token_budget used it E Ht) as Hex.
  pose proof Ht as Ht'. apply truncates_inv in Ht' as (Hover & Hs & Hlt).
  cbn [greedy_fill].
  apply Z.ltb_lt in Hover, Hlt.
  rewrite Hover, Hs, Hlt. cbn [andb].
  apply greedy_fill_done. lia.
Qed.

Lemma truncation_ends_selection_witness :
  greedy_fill default_selector 3
    [mkItem "document" "w w w w w" ∅ (Fin (7 # 10));
     mkItem "document" "w w w w w" ∅ (Fin (7 # 10))] [] 0 =
  [] ++ [truncated_item default_selector 3 0
           (mkItem "document" "w w w w w" ∅ (Fin (7 # 10)))].
Proof.
  apply (truncation_ends_selection default_selector 3
           (mkItem "document" "w w w w w" ∅ (Fin (7 # 10)))
           [mkItem "document" "w w w w w" ∅ (Fin (7 # 10))] [] 0);
    reflexivity.
Defined.

(** C9, as stated, fails for the factor 0.5: the first item is included
    truncated, and the scan goes on to append a second item. *)
Lemma truncation_not_last_factor_half :
  let self := mkSelector (1 # 2) in
  let docs := [EStr "w w w w w w"; EStr "w w w w w w w w"] in
  ∃ it rest t2,
    sort_desc (scored_items 0 "w" docs [] []) = it :: rest ∧
    truncates self 2 0 it = true ∧
    select_context self 0 "w" docs [] [] 2 = [truncated_item self 2 0 it; t2].
Proof. simpl. eexists _, _, _. repeat split; vm_compute; reflexivity. Qed.

(** C10 (amended). When no pool element has the weight NaN, the returned
    list is ordered by score, never increasing: of two consecutive returned
    items the earlier has a score at least that of the later, also when an
    item in between was skipped for exceeding the budget. *)
Theorem select_context_scores_descend (self : ContextSelector) (now : Q)
    (query : string) (documents messages tools_outputs : list entry)
    (token_budget : Z) :
  Forall (fun e => ¬ nan_weight e) (documents ++ messages ++ tools_outputs) →
  Sorted score_desc
    (select_context self now query documents messages tools_outputs token_budget).
Proof.
  intros Hw. apply StronglySorted_Sorted. unfold select_context.
  apply greedy_fill_sorted;
    [now apply sort_desc_sorted, scored_items_finite | constructor |].
  intros s it Hs. inversion Hs.
Qed.

Lemma select_context_scores_descend_witness :
  sel_text <$> select_context default_selector 0 "a b" skip_docs [] [] 3
    = ["a b"; "z"] ∧
  Sorted score_desc (select_context default_selector 0 "a b" skip_docs [] [] 3).
Proof.
  split; [vm_compute; reflexivity |].
  apply (select_context_scores_descend default_selector 0 "a b" skip_docs [] [] 3).
  repeat constructor; vm_compute; intros H; try exact H; discriminate H.
Defined.

(** C10, as stated, fails when a weight is NaN. The three documents of
    [nan_docs] score 0.0, NaN and 0.5; no key is less than another where one
    of the two scores is NaN, the sort leaves the items as they are, and all
    three are returned in that order: a score of 0.0 before a score of 0.5,
    with the NaN between them. And in whatever order the sort had left the
    three items, every comparison with NaN being false, the returned scores
    would not be in non-increasing order. *)
Lemma select_context_nan_weight :
  let out := select_context default_selector 0 "x" nan_docs [] [] 100 in
  (∃ a b c, out = [a; b; c] ∧
     (sel_text a, sel_text b, sel_text c) = ("a", "b", "c") ∧
     fl_eq (sel_score a) (Fin 0) = true ∧
     sel_score b = NaN ∧
     fl_eq (sel_score c) (Fin (1 # 2)) = true) ∧
  ¬ Sorted score_desc out ∧
  Forall (fun items =>
            ¬ Sorted score_desc (greedy_fill default_selector 100 items [] 0))
    (permutations (scored_items 0 "x" nan_docs [] [])).
Proof.
  cbv zeta. split; [| split].
  - eexists _, _, _. split; [vm_compute; reflexivity |].
    repeat split; vm_compute; reflexivity.
  - apply (bool_decide_eq_false_1 _). vm_compute. reflexivity.
  - apply (bool_decide_eq_true_1 _). vm_compute. reflexivity.
Qed.

End SelectorSpec.


(** ** Properties of the enforcer *)

Module EnforcerFacts.
Import PyStr Enforcer.

Section Facts.
Context `{Ext : Externals}.

Implicit Types (h : heap) (m : Message) (a : addr) (msgs messages : list addr).

(** *** The heap *)

Lemma deref_app_l h (k : heap) a :
  (a < length h)%nat → deref (h ++ k) a = deref h a.
Proof. intros Ha. unfold deref. now rewrite lookup_app_l. Qed.

Lemma deref_app_r h (k : heap) (i : nat) :
  deref (h ++ k) (length h + i) = default blank (k !! i).
Proof.
  unfold deref. rewrite lookup_app_r by lia.
  now replace (length h + i - length h)%nat with i by lia.
Qed.

Lemma same_but_truncated_refl m : same_but_truncated m m.
Proof. repeat split. now left. Qed.

Lemma truncate_content_same (k : Z) m : same_but_truncated m (truncate_content k m).
Proof.
  unfold truncate_content.
  destruct (content m) as [s|p] eqn:E; [| apply same_but_truncated_refl].
  destruct (k <? Z.of_nat (encode_len s)); [| apply same_but_truncated_refl].
  repeat split. right. exists s, k. now split.
Qed.

Lemma truncate_long_cons (k : Z) h a msgs :
  truncate_long k h (a :: msgs) =
  truncate_long k (<[a := truncate_content k (deref h a)]> h) msgs.
Proof. reflexivity. Qed.

(** Stage 1 rewrites the copies and nothing else. *)
Lemma truncate_long_copies (k : Z) h (cs : heap) :
  truncate_long k (h ++ cs) (seq (length h) (length cs)) =
  h ++ (truncate_content k <$> cs).
Proof.
  revert h. induction cs as [|c cs IH]; intros h; [reflexivity |].
  cbn [length seq]. rewrite truncate_long_cons.
  replace (deref (h ++ c :: cs) (length h)) with c.
  2:{ rewrite <- (Nat.add_0_r (length h)) at 1. now rewrite deref_app_r. }
  rewrite insert_app_r_alt by lia. rewrite Nat.sub_diag.
  change (<[0%nat:=truncate_content k c]> (c :: cs))
    with (truncate_content k c :: cs).
  rewrite (cons_middle _ h cs), app_assoc.
  replace (S (length h)) with (length (h ++ [truncate_content k c]))
    by (rewrite length_app; simpl; lia).
  rewrite IH. rewrite <- app_assoc. reflexivity.
Qed.

(** *** The preserved set *)

Lemma preserve_recent_raises (recent : list addr) (st : pstate) (e : exn) :
  preserve_recent recent st = inl e → e = UnboundLocalError.
Proof.
  revert st. induction recent as [|m rest IH]; intros st; simpl; [discriminate |].
  destruct st.2 as [ids|]; [| congruence].
  destruct (decide (m ∈ ids)); apply IH.
Qed.

Lemma preserve_recent_unbound (recent : list addr) (p : list addr) :
  recent ≠ [] → preserve_recent recent (p, None) = inl UnboundLocalError.
Proof. destruct recent; [congruence | reflexivity]. Qed.

(** With [preserved_ids] bound the loop succeeds, keeps what was in the set
    and adds every recent message. *)
Lemma preserve_recent_bound (recent : list addr) (p : list addr) (ids : gset addr) :
  ∃ p' ids', preserve_recent recent (p, Some ids) = inr (p', Some ids') ∧
    ids ⊆ ids' ∧ (∀ a, a ∈ recent → a ∈ ids').
Proof.
  revert p ids. induction recent as [|m rest IH]; intros p ids; simpl.
  - exists p, ids. repeat split; [set_solver | intros a Ha; inversion Ha].
  - destruct (decide (m ∈ ids)) as [Hin | Hout].
    + destruct (IH p ids) as (p' & ids' & E & Hsub & Hrec).
      exists p', ids'. repeat split; [exact E | exact Hsub |].
      intros a Ha. apply elem_of_cons in Ha as [-> | Ha]; [set_solver | auto].
    + destruct (IH (p ++ [m]) ({[m]} ∪ ids)) as (p' & ids' & E & Hsub & Hrec).
      exists p', ids'. repeat split; [exact E | set_solver |].
      intros a Ha. apply elem_of_cons in Ha as [-> | Ha]; [set_solver | auto].
Qed.

Lemma preserve_essentials_no_user h msgs :
  filter (has_role h user) msgs = [] →
  (preserve_essentials h msgs).2 = None.
Proof. intros E. unfold preserve_essentials. rewrite E. reflexivity. Qed.

(** When there is a user message, [preserved_ids] is bound and holds the
    system messages and the first user message. *)
Lemma preserve_essentials_user h msgs (u : addr) (us : list addr) :
  filter (has_role h user) msgs = u :: us →
  ∃ p ids, preserve_essentials h msgs = (p, Some ids) ∧
    u ∈ ids ∧ (∀ a, a ∈ msgs → has_role h system a → a ∈ ids).
Proof.
  intros E. unfold preserve_essentials. rewrite E.
  set (p1 := filter (has_role h system) msgs ++ [u]).
  set (p2 := match filter (is_planning h) (filter (has_role h assistant) msgs) with
             | [] => p1
             | _ :: _ => p1 ++ last_n 3 (filter (is_planning h)
                                          (filter (has_role h assistant) msgs))
             end).
  assert (Hp1 : ∀ a, a ∈ p1 → a ∈ p2).
  { intros a Ha. unfold p2.
    destruct (filter (is_planning h) (filter (has_role h assistant) msgs));
      [exact Ha | apply elem_of_app; now left]. }
  assert (Hu : u ∈ p2) by (apply Hp1, elem_of_app; right; now left).
  assert (Hs : ∀ a, a ∈ msgs → has_role h system a → a ∈ p2).
  { intros a Ha Hr. apply Hp1, elem_of_app. left. now apply list_elem_of_filter. }
  destruct (last (u :: us)) as [lu|] eqn:El.
  2:{ apply last_None in El. discriminate. }
  destruct (decide (lu ∈ (list_to_set p2 : gset addr))).
  - eexists _, _. split; [reflexivity |]. split; [set_solver |].
    intros a Ha Hr. apply elem_of_list_to_set. auto.
  - eexists _, _. split; [reflexivity |]. split; [set_solver |].
    intros a Ha Hr. apply elem_of_union. right. apply elem_of_list_to_set. auto.
Qed.

(** *** The pruning loop *)

(** The loop moves messages from the front of [prunable] to the end of
    [removed_accumulator]. *)
Lemma prune_loop_split (target pt mi : Z) (tc : gmap addr Z) h
    (prunable : list addr) (ptok it : Z) (removed : list addr)
    (prunable' removed' : list addr) :
  prune_loop target pt mi tc h prunable ptok it removed = (prunable', removed') →
  ∃ r, removed' = removed ++ r ∧ prunable = r ++ prunable'.
Proof.
  revert ptok it removed.
  induction prunable as [|x prunable IH]; intros ptok it removed; simpl.
  - intros [= <- <-]. exists []. now rewrite app_nil_r.
  - destruct (target <? pt + ptok).
    + destruct (mi <=? it).
      * intros [= <- <-]. exists []. now rewrite app_nil_r.
      * intros E. apply IH in E as (r & -> & ->).
        exists (x :: r). now rewrite <- app_assoc.
    + intros [= <- <-]. exists []. now rewrite app_nil_r.
Qed.

(** *** The place of the notice *)

Lemma find_insert_index_spec h (l : list addr) (i idx : nat) :
  let k := find_insert_index h l i idx in
  (k = idx ∧ Forall (fun a => ¬ has_role h system a) l) ∨
  (∃ j a, k = S (i + j) ∧ l !! j = Some a ∧ has_role h system a ∧
          Forall (fun a => ¬ has_role h system a) (drop (S j) l)).
Proof.
  revert i idx. induction l as [|m rest IH]; intros i idx; simpl.
  - left. split; [reflexivity | constructor].
  - destruct (IH (S i) (if decide (has_role h system m) then S i else idx))
      as [[Hk Hall] | (j & a & Hk & Hj & Ha & Hall)].
    + destruct (decide (has_role h system m)) as [Hm | Hm].
      * right. exists 0%nat, m. rewrite Hk. repeat split; [f_equal; lia | exact Hm |].
        now rewrite drop_0.
      * left. split; [exact Hk | now constructor].
    + right. exists (S j), a. rewrite Hk. repeat split; [f_equal; lia | exact Hj | exact Ha |].
      exact Hall.
Qed.

Lemma find_insert_index_place h (kept : list addr) :
  notice_place h kept (find_insert_index h kept 0 0).
Proof.
  destruct (find_insert_index_spec h kept 0 0) as [[-> Hall] | (j & a & -> & Hj & Ha & Hall)].
  - split; [now rewrite drop_0 | now left].
  - split; [exact Hall | right]. exists a. simpl. now rewrite Nat.sub_0_r.
Qed.

(** *** Stage 2 as a whole *)

Lemma filter_all {A} (P : A → Prop) `{!∀ x, Decision (P x)} (l : list A) :
  (∀ x, x ∈ l → P x) → filter P l = l.
Proof.
  induction l as [|x l IH]; intros Hall; [reflexivity |].
  rewrite filter_cons_True by (apply Hall; now left).
  f_equal. apply IH. intros y Hy. apply Hall. now right.
Qed.

Lemma prune_inv h msgs (target pmt : Z) :
  NoDup msgs → msgs ≠ [] →
  prune_result h msgs (prune h msgs target pmt).
Proof.
  intros Hnd Hne. unfold prune.
  assert (Hrecent : last_n 4 msgs ≠ []).
  { unfold last_n. intros E. apply (f_equal length) in E.
    rewrite length_drop in E. destruct msgs; [congruence | simpl in E; lia]. }
  destruct (filter (has_role h user) msgs) as [|u us] eqn:Eu.
  { (* no user message: [preserved_ids] is unbound *)
    pose proof (preserve_essentials_no_user h msgs Eu) as En.
    destruct (preserve_essentials h msgs) as [p o]. simpl in En. subst o.
    rewrite (preserve_recent_unbound _ p Hrecent).
    now constructor. }
  destruct (preserve_essentials_user h msgs u us Eu) as (p0 & ids0 & -> & Hu & Hsys).
  destruct (preserve_recent_bound (last_n 4 msgs) p0 ids0)
    as (p & ids & -> & Hsub & Hrec).
  set (prunable := filter (fun a => a ∉ ids) msgs).
  set (tc := foldl _ _ _).
  destruct (prune_loop _ _ _ _ _ _ _ _ _) as [prunable' removed] eqn:Eloop.
  apply prune_loop_split in Eloop as (r & Er & Ep). simpl in Er. subst r.
  destruct removed as [|x removed].
  - (* nothing removed *)
    simpl in Ep. subst prunable'.
    rewrite filter_all; [now constructor |].
    intros a Ha. destruct (decide (a ∈ ids)); [set_solver |].
    apply elem_of_union. right. apply elem_of_list_to_set.
    now apply list_elem_of_filter.
  - (* at least one message removed *)
    cbn [alloc fst snd].
    assert (Hxm : x ∈ msgs ∧ x ∉ ids).
    { assert (x ∈ prunable) as Hxp by (rewrite Ep; now left).
      apply list_elem_of_filter in Hxp. tauto. }
    assert (Hfresh : x ∉ prunable').
    { assert (NoDup prunable) as Hndp by now apply NoDup_filter.
      rewrite Ep in Hndp. change (x :: removed ++ prunable')
        with ((x :: removed) ++ prunable') in Hndp.
      apply NoDup_app in Hndp as (_ & Hdis & _). apply Hdis. now left. }
    set (allowed := ids ∪ list_to_set prunable').
    eapply (prune_removes h msgs ids).
    + intros u' us' E. rewrite Eu in E. injection E as <- _. exact (Hsub u Hu).
    + intros a Ha Hr. exact (Hsub a (Hsys a Ha Hr)).
    + exact Hrec.
    + apply sublist_filter.
    + apply (length_filter_lt _ _ x); [tauto |].
      unfold allowed. rewrite elem_of_union, elem_of_list_to_set. tauto.
    + intros a Ha Hi. apply list_elem_of_filter. split; [| exact Ha].
      apply elem_of_union. now left.
    + reflexivity.
    + destruct (filter (has_role h system) msgs) as [|s ss] eqn:Es.
      * split; [| now left]. rewrite drop_0. apply Forall_forall.
        intros a Ha Hr. apply list_elem_of_filter in Ha as [_ Ha].
        assert (a ∈ filter (has_role h system) msgs) as Hf
          by (apply list_elem_of_filter; tauto).
        rewrite Es in Hf. inversion Hf.
      * apply find_insert_index_place.
Qed.

(** *** The call as a whole *)

Lemma enforce_unfold (self : LLMClientBase) h messages (mcl sm : option Z) :
  let target := target_for self mcl sm in
  let k := per_message_target_for target in
  let msgs := copies h messages in
  enforce_context_limit self h messages mcl sm =
  if decide (length messages < 2)%nat then (stage0_heap h messages, inl IndexError)
  else if _estimate_tokens_for_messages (stage0_heap h messages) msgs <=? target
  then (stage0_heap h messages, inr msgs)
  else if _estimate_tokens_for_messages (stage1_heap k h messages) msgs <=? target
  then (stage1_heap k h messages, inr msgs)
  else prune (stage1_heap k h messages) msgs target k.
Proof.
  intros target k msgs.
  unfold enforce_context_limit, copy_messages.
  fold (target_for self mcl sm). fold target. fold (per_message_target_for target).
  fold k. fold (copies h messages). fold msgs. fold (stage0_heap h messages).
  assert (Hs1 : truncate_long k (stage0_heap h messages) msgs = stage1_heap k h messages).
  { unfold msgs, copies, stage0_heap, stage1_heap.
    rewrite <- (length_fmap (deref h) messages). apply truncate_long_copies. }
  rewrite Hs1.
  destruct (decide (length messages < 2)%nat) as [Hlt | Hge].
  - unfold msgs, copies. now rewrite lookup_seq_ge by lia.
  - unfold msgs at 1, copies. now rewrite lookup_seq_lt by lia.
Qed.

Lemma copied_stage0 h messages : copied h messages (deref h <$> messages).
Proof.
  split; [apply length_fmap |]. intros i src Hi.
  exists (deref h src). rewrite list_lookup_fmap, Hi. split; [reflexivity |].
  apply same_but_truncated_refl.
Qed.

Lemma copied_stage1 (k : Z) h messages :
  copied h messages (truncate_content k <$> (deref h <$> messages)).
Proof.
  split; [now rewrite !length_fmap |]. intros i src Hi.
  exists (truncate_content k (deref h src)).
  rewrite !list_lookup_fmap, Hi. split; [reflexivity |].
  apply truncate_content_same.
Qed.

Lemma length_copies h messages : length (copies h messages) = length messages.
Proof. apply length_seq. Qed.

Lemma copies_NoDup h messages : NoDup (copies h messages).
Proof. apply NoDup_seq. Qed.

Lemma copies_nonempty h messages :
  ¬ (length messages < 2)%nat → copies h messages ≠ [].
Proof.
  intros Hn E. apply (f_equal length) in E. unfold copies in E.
  rewrite length_seq in E. simpl in E. lia.
Qed.

(** The shape of every result: the heap is the old heap, then the copies,
    then possibly the notice. *)
Lemma enforce_inv (self : LLMClientBase) h messages (mcl sm : option Z) :
  ∃ cs, copied h messages cs ∧
    (((length messages < 2)%nat ∧
      enforce_context_limit self h messages mcl sm = (h ++ cs, inl IndexError))
     ∨ ((2 ≤ length messages)%nat ∧
        (enforce_context_limit self h messages mcl sm =
           (h ++ cs, inr (copies h messages))
         ∨ prune_result (h ++ cs) (copies h messages)
             (enforce_context_limit self h messages mcl sm)))).
Proof.
  rewrite enforce_unfold.
  destruct (decide (length messages < 2)%nat) as [Hlt | Hge].
  { exists (deref h <$> messages). split; [apply copied_stage0 | now left]. }
  destruct (_ <=? _).
  { exists (deref h <$> messages). split; [apply copied_stage0 |].
    right. split; [lia | now left]. }
  eexists. split; [apply copied_stage1 |]. right. split; [lia |].
  destruct (_ <=? _); [now left | right].
  apply prune_inv; [apply copies_NoDup | now apply copies_nonempty].
Qed.

Lemma copied_deref h messages (cs tl : heap) (i : nat) (src : addr) :
  copied h messages cs → messages !! i = Some src →
  same_but_truncated (deref h src) (deref ((h ++ cs) ++ tl) (copy_at h i)).
Proof.
  intros [Hlen Hc] Hi. destruct (Hc i src Hi) as (c & Hci & Hsame).
  rewrite deref_app_l.
  2:{ rewrite length_app. unfold copy_at. apply lookup_lt_Some in Hci. lia. }
  unfold copy_at. rewrite deref_app_r, Hci. exact Hsame.
Qed.

Lemma copied_deref0 h messages (cs : heap) (i : nat) (src : addr) :
  copied h messages cs → messages !! i = Some src →
  same_but_truncated (deref h src) (deref (h ++ cs) (copy_at h i)).
Proof.
  intros Hc Hi. pose proof (copied_deref h messages cs [] i src Hc Hi) as H.
  now rewrite app_nil_r in H.
Qed.

Lemma elem_of_copies h messages a :
  a ∈ copies h messages ↔
  ∃ i, a = copy_at h i ∧ (i < length messages)%nat.
Proof.
  unfold copies, copy_at. rewrite elem_of_seq. split.
  - intros [H1 H2]. exists (a - length h)%nat. lia.
  - intros (i & -> & Hi). lia.
Qed.

Lemma copies_lt_notice h messages a :
  a ∈ copies h messages → a ≠ notice_addr h messages.
Proof. unfold copies, notice_addr. rewrite elem_of_seq. lia. Qed.

Lemma sublist_elem_of {A} (l k : list A) (x : A) :
  l `sublist_of` k → x ∈ l → x ∈ k.
Proof. intros Hs Hx. eapply elem_of_sublist; eassumption. Qed.

(** Taking the notice out of the returned list gives back what was kept. *)
Lemma filter_insert_notice h messages (kept : list addr) (k : nat) :
  kept `sublist_of` copies h messages →
  filter (fun a => a ≠ notice_addr h messages)
         (list_insert_at k (notice_addr h messages) kept) = kept.
Proof.
  intros Hs. unfold list_insert_at.
  rewrite filter_app, filter_cons_False by (intros H; now apply H).
  rewrite <- filter_app, take_drop. apply filter_all.
  intros a Ha. apply copies_lt_notice. eapply sublist_elem_of; eassumption.
Qed.

Lemma elem_of_list_insert_at {A} (i : nat) (x : A) (l : list A) (y : A) :
  y ∈ l → y ∈ list_insert_at i x l.
Proof.
  intros Hy. rewrite <- (take_drop i l) in Hy. unfold list_insert_at.
  apply elem_of_app in Hy as [Hy | Hy]; apply elem_of_app;
    [now left | right; now right].
Qed.

Lemma filter_head {A} (P : A → Prop) `{!∀ x, Decision (P x)} (l : list A)
    (i : nat) (a : A) :
  l !! i = Some a → P a →
  (∀ j b, (j < i)%nat → l !! j = Some b → ¬ P b) →
  ∃ rest, filter P l = a :: rest.
Proof.
  revert i. induction l as [|x l IH]; intros i Hi Ha Hbefore; [discriminate |].
  destruct i as [|i].
  - injection Hi as ->. exists (filter P l). now apply filter_cons_True.
  - rewrite filter_cons_False by (apply (Hbefore 0%nat); [lia | reflexivity]).
    apply (IH i); [exact Hi | exact Ha |].
    intros j b Hj Hb. apply (Hbefore (S j)); [lia | exact Hb].
Qed.

Lemma length_stage h messages (cs : heap) :
  copied h messages cs → length (h ++ cs) = notice_addr h messages.
Proof. intros [Hl _]. rewrite length_app, Hl. reflexivity. Qed.

Lemma filter_none {A} (P : A → Prop) `{!∀ x, Decision (P x)} (l : list A) :
  (∀ x, x ∈ l → ¬ P x) → filter P l = [].
Proof.
  induction l as [|x l IH]; intros Hall; [reflexivity |].
  rewrite filter_cons_False by (apply Hall; now left).
  apply IH. intros y Hy. apply Hall. now right.
Qed.

(** A copy has the role of the message it was copied from. *)
Lemma copy_role h messages (cs : heap) (i : nat) (src : addr) :
  copied h messages cs → messages !! i = Some src →
  role (deref (h ++ cs) (copy_at h i)) = role (deref h src).
Proof. intros Hc Hi. now destruct (copied_deref0 h messages cs i src Hc Hi). Qed.

Lemma copies_lookup h messages a :
  a ∈ copies h messages →
  ∃ i src, a = copy_at h i ∧ messages !! i = Some src.
Proof.
  intros (i & -> & Hi)%elem_of_copies.
  destruct (lookup_lt_is_Some_2 messages i Hi) as [src Hsrc]. eauto.
Qed.

Lemma prune_no_user h msgs (target k : Z) :
  msgs ≠ [] → filter (has_role h user) msgs = [] →
  prune h msgs target k = (h, inl UnboundLocalError).
Proof.
  intros Hne Eu. unfold prune.
  assert (Hrecent : last_n 4 msgs ≠ []).
  { unfold last_n. intros E. apply (f_equal length) in E.
    rewrite length_drop in E. destruct msgs; [congruence | simpl in E; lia]. }
  pose proof (preserve_essentials_no_user h msgs Eu) as En.
  destruct (preserve_essentials h msgs) as [p o]. simpl in En. subst o.
  now rewrite (preserve_recent_unbound _ p Hrecent).
Qed.

Lemma notice_place_ext h (h' : heap) (kept : list addr) (k : nat) :
  (∀ a, a ∈ kept → deref h' a = deref h a) →
  notice_place h kept k → notice_place h' kept k.
Proof.
  intros Heq [Hall Hk]. split.
  - apply Forall_forall. intros a Ha. rewrite Forall_forall in Hall.
    unfold has_role. rewrite Heq.
    + now apply Hall.
    + rewrite <- (take_drop k kept). apply elem_of_app. now right.
  - destruct Hk as [-> | (a & Ha & Hr)]; [now left | right].
    exists a. split; [exact Ha |]. unfold has_role. rewrite Heq; [exact Hr |].
    eapply list_elem_of_lookup_2; eassumption.
Qed.

Lemma prune_result_heap h msgs (r : heap * (exn + list addr)) :
  prune_result h msgs r → r.1 = h ∨ ∃ notice, r.1 = h ++ [notice].
Proof. destruct 1; simpl; eauto. Qed.

End Facts.

(** *** The model on the sample conversation

    With limit 1024 the target is 1024 and the per-message target 512. Every
    long text is cut to 512 characters in its copy; the two messages that are
    not preserved (addresses 9 and 10) are removed; the notice (address 16)
    comes after the system message (address 11). *)
Example run_sample :
  let r := enforce_context_limit sample_client sample_heap (seq 0 8) (Some 1024) None in
  r.2 = inr [8; 11; 16; 12; 13; 14; 15]%nat
  ∧ (fun m => match content m with
              | CText s => String.length s
              | CStruct _ => 0%nat
              end) <$> r.1
    = [600; 600; 600; 10; 600; 600; 600; 600;
       512; 512; 512; 10; 512; 512; 512; 512; 546]%nat.
Proof. vm_compute. split; reflexivity. Qed.

End EnforcerFacts.

(** ** The specification of the enforcer *)

Module EnforcerSpec.
Import PyStr Enforcer EnforcerFacts.

Section Spec.
Context `{Ext : Externals}.

Implicit Types (h : heap) (messages : list addr) (self : LLMClientBase).

(** C1: the code on short inputs and on inputs without a user message. The
    call raises [IndexError] on the empty sequence and on a sequence of one
    message, and it raises [UnboundLocalError] on a sequence of two or more
    messages, none of role user, whose estimate exceeds the target before and
    after the truncation of long contents. *)
Theorem enforce_raises :
  (∀ self h mcl sm,
     (enforce_context_limit self h [] mcl sm).2 = inl IndexError) ∧
  (∀ self h (a : addr) mcl sm,
     (enforce_context_limit self h [a] mcl sm).2 = inl IndexError) ∧
  (∀ self h messages mcl sm,
     (2 ≤ length messages)%nat →
     over_budget self h messages mcl sm →
     (∀ src, src ∈ messages → role (deref h src) ≠ user) →
     (enforce_context_limit self h messages mcl sm).2 = inl UnboundLocalError).
Proof.
  split; [| split].
  - intros. now rewrite enforce_unfold.
  - intros. now rewrite enforce_unfold.
  - intros self h messages mcl sm Hlen [H0 H1] Hnouser.
    rewrite enforce_unfold.
    destruct (decide (length messages < 2)%nat); [lia |].
    apply Z.leb_gt in H0, H1. rewrite H0, H1.
    rewrite prune_no_user; [reflexivity | now apply copies_nonempty |].
    apply filter_none. intros a Ha Hr.
    apply copies_lookup in Ha as (i & src & -> & Hi).
    unfold has_role, stage1_heap in Hr.
    rewrite (copy_role h messages _ i src (copied_stage1 _ h messages) Hi) in Hr.
    apply (Hnouser src); [| exact Hr]. eapply list_elem_of_lookup_2; eassumption.
Qed.

(** C4. When the call returns, the returned list without the summary notice
    is a subsequence of the list of copies, and the copy at position [i] is
    the input message at position [i] up to truncation: the survivors are in
    the order of the input. *)
Theorem enforce_preserves_order self h messages (mcl sm : option Z)
    (h' : heap) (out : list addr) :
  enforce_context_limit self h messages mcl sm = (h', inr out) →
  filter (fun a => a ≠ notice_addr h messages) out `sublist_of` copies h messages
  ∧ ∀ i src, messages !! i = Some src →
      same_but_truncated (deref h src) (deref h' (copy_at h i)).
Proof.
  intros E.
  destruct (enforce_inv self h messages mcl sm)
    as (cs & Hc & [[_ E'] | [_ [E' | Hp]]]).
  - congruence.
  - rewrite E' in E. injection E as <- <-. split.
    + rewrite filter_all; [reflexivity | apply copies_lt_notice].
    + intros i src Hi. now apply (copied_deref0 h messages).
  - rewrite E in Hp. inversion Hp as [| | ids kept k notice]; subst.
    + split.
      * rewrite filter_all; [reflexivity | apply copies_lt_notice].
      * intros i src Hi. now apply (copied_deref0 h messages).
    + split.
      * rewrite (length_stage h messages cs Hc).
        now rewrite filter_insert_notice.
      * intros i src Hi. now apply (copied_deref h messages).
Qed.

(** C5. On a sequence of at least four messages with at least one user
    message the call returns, and the returned list holds the copy of every
    system message, of the first user message and of the last four messages,
    each the input message up to truncation. *)
Theorem enforce_keeps_preserved self h messages (mcl sm : option Z) :
  (4 ≤ length messages)%nat →
  (∃ src, src ∈ messages ∧ role (deref h src) = user) →
  ∃ h' out,
    enforce_context_limit self h messages mcl sm = (h', inr out) ∧
    ∀ i src, messages !! i = Some src →
      (role (deref h src) = system ∨ first_user h messages i
       ∨ (length messages - 4 ≤ i)%nat) →
      copy_at h i ∈ out ∧
      same_but_truncated (deref h src) (deref h' (copy_at h i)).
Proof.
  intros Hlen (usrc & Hu & Hur).
  destruct (enforce_inv self h messages mcl sm)
    as (cs & Hc & [[Hlt _] | [_ [E | Hp]]]); [lia | |].
  - (* everything is returned *)
    eexists _, _. split; [exact E |]. intros i src Hi _. split.
    + apply elem_of_copies. exists i. split; [reflexivity |].
      now apply lookup_lt_Some in Hi.
    + now apply (copied_deref0 h messages).
  - destruct (enforce_context_limit self h messages mcl sm) as [h' r].
    inversion Hp as [Hnone | | ids kept k notice Hfirst Hsys Hrec Hsub Hlt Hkept Hrole Hplace];
      subst.
    + (* it cannot raise: there is a user message *)
      exfalso. apply list_elem_of_lookup_1 in Hu as [j Hj].
      assert (copy_at h j ∈ filter (has_role (h ++ cs) user) (copies h messages)) as Hin.
      { apply list_elem_of_filter. split.
        - unfold has_role. now rewrite (copy_role h messages cs j usrc).
        - apply elem_of_copies. exists j. split; [reflexivity |].
          now apply lookup_lt_Some in Hj. }
      rewrite Hnone in Hin. inversion Hin.
    + eexists _, _. split; [reflexivity |]. intros i src Hi _. split.
      * apply elem_of_copies. exists i. split; [reflexivity |].
        now apply lookup_lt_Some in Hi.
      * now apply (copied_deref0 h messages).
    + eexists _, _. split; [reflexivity |]. intros i src Hi Hwhy.
      split; [| now apply (copied_deref h messages)].
      assert (Hcopy : copy_at h i ∈ copies h messages).
      { apply elem_of_copies. exists i. split; [reflexivity |].
        now apply lookup_lt_Some in Hi. }
      apply elem_of_list_insert_at, Hkept; [exact Hcopy |].
      destruct Hwhy as [Hs | [Hf | Hl]].
      * apply Hsys; [exact Hcopy |]. unfold has_role.
        now rewrite (copy_role h messages cs i src).
      * destruct Hf as (src' & Hi' & Hru & Hbefore).
        destruct (filter_head (has_role (h ++ cs) user) (copies h messages)
                    i (copy_at h i)) as [rest Hrest].
        -- unfold copies, copy_at. apply lookup_seq_lt.
           now apply lookup_lt_Some in Hi.
        -- unfold has_role. now rewrite (copy_role h messages cs i src').
        -- intros j b Hj Hb Hr. unfold copies in Hb.
           apply lookup_seq in Hb as [-> Hjn].
           destruct (lookup_lt_is_Some_2 messages j Hjn) as [s Hs].
           unfold has_role in Hr.
           change (length h + j)%nat with (copy_at h j) in Hr.
           rewrite (copy_role h messages cs j s Hc Hs) in Hr.
           now apply (Hbefore j s).
        -- now apply (Hfirst _ rest).
      * apply Hrec. unfold last_n. apply list_elem_of_lookup.
        exists (i - (length messages - 4))%nat.
        rewrite lookup_drop, length_copies.
        replace (length messages - 4 + (i - (length messages - 4)))%nat with i by lia.
        unfold copies, copy_at. apply lookup_seq_lt.
        now apply lookup_lt_Some in Hi.
Qed.

(** C6. When the call returns, either the returned list is the list of all
    copies, with no notice, or at least one message was removed and the
    returned list is what was kept with exactly one notice put in: the notice
    is a new system message, no system message follows it, a system message
    precedes it unless it is at index 0, and it is at index 0 when the input
    has no system message. *)
Theorem enforce_summary_notice self h messages (mcl sm : option Z)
    (h' : heap) (out : list addr) :
  enforce_context_limit self h messages mcl sm = (h', inr out) →
  out = copies h messages
  ∨ ∃ kept k,
      kept `sublist_of` copies h messages ∧
      (length kept < length messages)%nat ∧
      out = list_insert_at k (notice_addr h messages) kept ∧
      (notice_addr h messages ∉ kept) ∧
      role (deref h' (notice_addr h messages)) = system ∧
      notice_place h' kept k ∧
      ((∀ src, src ∈ messages → role (deref h src) ≠ system) → k = 0%nat).
Proof.
  intros E.
  destruct (enforce_inv self h messages mcl sm)
    as (cs & Hc & [[_ E'] | [_ [E' | Hp]]]).
  - congruence.
  - rewrite E' in E. injection E as <- <-. now left.
  - rewrite E in Hp.
    inversion Hp as [| | ids kept k notice _ _ _ Hsub Hlt _ Hrole Hplace]; subst;
      [now left | right].
    pose proof (length_stage h messages cs Hc) as Hlen.
    assert (Hin : ∀ a, a ∈ kept → a ∈ copies h messages)
      by (intros a Ha; eapply sublist_elem_of; eassumption).
    exists kept, k. rewrite Hlen. rewrite length_copies in Hlt.
    refine (conj Hsub (conj Hlt (conj eq_refl (conj _ (conj _ (conj _ _)))))).
    + intros Hn. now apply (copies_lt_notice h messages _ (Hin _ Hn)).
    + rewrite <- Hlen, <- (Nat.add_0_r (length (h ++ cs))), deref_app_r. exact Hrole.
    + apply (notice_place_ext (h ++ cs)); [| exact Hplace].
      intros a Ha. apply deref_app_l. rewrite Hlen.
      apply Hin in Ha. unfold copies, notice_addr in *. apply elem_of_seq in Ha. lia.
    + intros Hnosys. destruct Hplace as [_ [-> | (a & Ha & Hr)]]; [reflexivity |].
      exfalso. apply list_elem_of_lookup_2, Hin, copies_lookup in Ha
        as (i & src & -> & Hi).
      unfold has_role in Hr. rewrite (copy_role h messages cs i src Hc Hi) in Hr.
      apply (Hnosys src); [| exact Hr]. eapply list_elem_of_lookup_2; eassumption.
Qed.

(** C7. Every object of the heap of the caller is the same after the call
    as before it, whether the call returns or raises, and the returned list
    names new objects only: the copies and the notice are allocated by the
    call, and the truncation writes to the copies. *)
Theorem enforce_frame self h messages (mcl sm : option Z) :
  let r := enforce_context_limit self h messages mcl sm in
  (∀ (a : addr) (m : Message), h !! a = Some m → r.1 !! a = Some m) ∧
  (∀ (out : list addr) (a : addr), r.2 = inr out → a ∈ out → (length h ≤ a)%nat).
Proof.
  intros r. unfold r.
  assert (Hfresh : ∀ a, a ∈ copies h messages → (length h ≤ a)%nat).
  { intros a Ha. unfold copies in Ha. apply elem_of_seq in Ha. lia. }
  destruct (enforce_inv self h messages mcl sm)
    as (cs & Hc & [[_ E] | [_ [E | Hp]]]).
  - rewrite E. split; [intros a m Ha; now apply lookup_app_l_Some | discriminate].
  - rewrite E. split; [intros a m Ha; now apply lookup_app_l_Some |].
    intros out a [= <-]. apply Hfresh.
  - destruct (enforce_context_limit self h messages mcl sm) as [h' res].
    inversion Hp as [| | ids kept k notice _ _ _ Hsub _ _ _ _]; subst; simpl.
    + split; [intros a m Ha; now apply lookup_app_l_Some | discriminate].
    + split; [intros a m Ha; now apply lookup_app_l_Some |].
      intros out a [= <-]. apply Hfresh.
    + split; [intros a m Ha; now repeat apply lookup_app_l_Some |].
      intros out a [= <-] Ha. unfold list_insert_at in Ha.
      apply elem_of_app in Ha as [Ha | Ha];
        [| apply elem_of_cons in Ha as [-> | Ha]; [rewrite length_app; lia |]].
      * apply Hfresh. eapply sublist_elem_of; [exact Hsub |].
        rewrite <- (take_drop k kept). apply elem_of_app. now left.
      * apply Hfresh. eapply sublist_elem_of; [exact Hsub |].
        rewrite <- (take_drop k kept). apply elem_of_app. now right.
Qed.

(** What the fast path does on two or more messages: the result is the list
    of the copies, each equal to the message it was copied from. *)
Lemma fast_path_returns_copies self h messages (mcl sm : option Z) :
  (2 ≤ length messages)%nat →
  _estimate_tokens_for_messages (stage0_heap h messages) (copies h messages)
    <= target_for self mcl sm →
  enforce_context_limit self h messages mcl sm =
    (stage0_heap h messages, inr (copies h messages))
  ∧ ∀ i src, messages !! i = Some src →
      deref (stage0_heap h messages) (copy_at h i) = deref h src.
Proof.
  intros Hlen Hle. split.
  - rewrite enforce_unfold.
    destruct (decide (length messages < 2)%nat); [lia |].
    apply Z.leb_le in Hle. now rewrite Hle.
  - intros i src Hi. unfold stage0_heap, copy_at.
    now rewrite deref_app_r, list_lookup_fmap, Hi.
Qed.

(** C2: the code on scenario A, the single message
    [system: "You are helpful"] with limit 65536 and margin 512. The call
    raises [IndexError]. *)
Theorem scenario_A_raises :
  (enforce_context_limit (mkClient None 512)
     [mkMessage system (CText "You are helpful") None None] [0%nat]
     (Some 65536) (Some 512)).2 = inl IndexError.
Proof. reflexivity. Qed.

End Spec.

(** *** The theorems at the sample conversation *)

Lemma enforce_raises_witness :
  (enforce_context_limit sample_client sample_heap [1; 2; 4; 5; 7]%nat
     (Some 1024) None).2 = inl UnboundLocalError.
Proof.
  apply (proj2 (proj2 (enforce_raises (Ext := char_tokens)))).
  - simpl. lia.
  - split; vm_compute; reflexivity.
  - intros src Hsrc.
    repeat (apply elem_of_cons in Hsrc as [-> | Hsrc]; [discriminate |]).
    inversion Hsrc.
Defined.

Lemma enforce_preserves_order_witness :
  filter (fun a => a ≠ notice_addr sample_heap (seq 0 8)) [8; 11; 16; 12; 13; 14; 15]%nat
    `sublist_of` copies sample_heap (seq 0 8).
Proof.
  eapply proj1,
    (enforce_preserves_order (Ext := char_tokens) sample_client sample_heap
       (seq 0 8) (Some 1024) None).
  vm_compute. reflexivity.
Defined.

Lemma enforce_keeps_preserved_witness :
  ∃ h' out,
    enforce_context_limit sample_client sample_heap (seq 0 8) (Some 1024) None
      = (h', inr out) ∧
    ∀ i src, seq 0 8 !! i = Some src →
      (role (deref sample_heap src) = system ∨ first_user sample_heap (seq 0 8) i
       ∨ (length (seq 0 8) - 4 ≤ i)%nat) →
      copy_at sample_heap i ∈ out ∧
      same_but_truncated (deref sample_heap src) (deref h' (copy_at sample_heap i)).
Proof.
  apply (enforce_keeps_preserved (Ext := char_tokens)).
  - simpl. lia.
  - exists 0%nat. split; [now left | reflexivity].
Defined.

Lemma enforce_summary_notice_witness :
  ∃ h' out,
    enforce_context_limit sample_client sample_heap (seq 0 8) (Some 1024) None
      = (h', inr out) ∧
    (out = copies sample_heap (seq 0 8)
     ∨ ∃ kept k,
         kept `sublist_of` copies sample_heap (seq 0 8) ∧
         (length kept < length (seq 0 8))%nat ∧
         out = list_insert_at k (notice_addr sample_heap (seq 0 8)) kept ∧
         (notice_addr sample_heap (seq 0 8) ∉ kept) ∧
         role (deref h' (notice_addr sample_heap (seq 0 8))) = system ∧
         notice_place h' kept k ∧
         ((∀ src, src ∈ seq 0 8 → role (deref sample_heap src) ≠ system) →
          k = 0%nat)).
Proof.
  eexists _, _. split; [vm_compute; reflexivity |].
  apply (enforce_summary_notice (Ext := char_tokens) sample_client sample_heap
           (seq 0 8) (Some 1024) None).
  vm_compute. reflexivity.
Defined.

Lemma enforce_frame_witness :
  (enforce_context_limit sample_client sample_heap (seq 0 8) (Some 1024) None).1
    !! 0%nat = Some (sample_message user 600).
Proof.
  apply (proj1 (enforce_frame (Ext := char_tokens) sample_client sample_heap
                  (seq 0 8) (Some 1024) None)).
  reflexivity.
Defined.

End EnforcerSpec.


(** ** Further properties of the selector *)

Module SelectorExtra.
Import PyStr PyNum PyFacts Selector SelectorFacts.

(** *** The scorer *)

Lemma Qdiv_nat_le_1 (a b : nat) :
  (a ≤ b)%nat → (1 ≤ b)%nat →
  (0 <= inject_Z (Z.of_nat a) / inject_Z (Z.max 1 (Z.of_nat b)) <= 1)%Q.
Proof.
  intros Hab Hb.
  assert (Hpos : (0 < inject_Z (Z.max 1 (Z.of_nat b)))%Q).
  { change 0%Q with (inject_Z 0). rewrite <- Zlt_Qlt. lia. }
  split.
  - apply Qle_shift_div_l; [exact Hpos |]. rewrite Qmult_0_l.
    change 0%Q with (inject_Z 0). rewrite <- Zle_Qle. lia.
  - apply Qle_shift_div_r; [exact Hpos |]. rewrite Qmult_1_l.
    rewrite <- Zle_Qle. lia.
Qed.

(** X1. The lexical score lies between 0 and 1. *)
Theorem lexical_score_bounds (query txt : string) :
  (0 <= _lexical_score query txt <= 1)%Q.
Proof.
  unfold _lexical_score.
  destruct (decide (word_set query = ∅ ∨ word_set txt = ∅)) as [He | Hne].
  - split; discriminate.
  - apply Qdiv_nat_le_1.
    + apply subseteq_size, intersection_subseteq_l.
    + destruct (size (word_set query)) eqn:E; [| lia].
      apply size_empty_inv in E. exfalso. apply Hne. left.
      now apply leibniz_equiv.
Qed.

Lemma lower_ascii_idemp (c : ascii) : lower_ascii (lower_ascii c) = lower_ascii c.
Proof. destruct c as [[] [] [] [] [] [] [] []]; reflexivity. Qed.

Lemma is_space_lower_ascii (c : ascii) : is_space (lower_ascii c) = is_space c.
Proof. destruct c as [[] [] [] [] [] [] [] []]; reflexivity. Qed.

Lemma lower_idemp (s : string) : lower (lower s) = lower s.
Proof.
  induction s as [|c s IH]; [reflexivity |]. simpl.
  now rewrite lower_ascii_idemp, IH.
Qed.

Lemma cons_word_lower (w : string) (ws : list string) :
  cons_word (lower w) (lower <$> ws) = lower <$> cons_word w ws.
Proof. destruct w; reflexivity. Qed.

Lemma split_aux_lower (s : string) :
  split_aux (lower s) = (lower (split_aux s).1, lower <$> (split_aux s).2).
Proof.
  induction s as [|c s IH]; [reflexivity |]. simpl. rewrite IH.
  destruct (split_aux s) as [w ws]. simpl.
  rewrite is_space_lower_ascii. destruct (is_space c); simpl.
  - now rewrite cons_word_lower.
  - reflexivity.
Qed.

(** Splitting commutes with lower-casing. *)
Lemma split_lower (s : string) : split (lower s) = lower <$> split s.
Proof.
  unfold split. rewrite split_aux_lower. destruct (split_aux s) as [w ws].
  apply cons_word_lower.
Qed.

Lemma word_set_lower (s : string) : word_set (lower s) = word_set s.
Proof.
  unfold word_set. rewrite split_lower. f_equal.
  rewrite <- list_fmap_compose. apply list_fmap_ext.
  intros i w _. apply lower_idemp.
Qed.

(** X2. The lexical score ignores case: lower-casing the query or the text
    does not change it. *)
Theorem lexical_score_ignores_case (query txt : string) :
  _lexical_score (lower query) txt = _lexical_score query txt ∧
  _lexical_score query (lower txt) = _lexical_score query txt.
Proof. unfold _lexical_score. now rewrite !word_set_lower. Qed.

Lemma max_0_nonneg (x : Q) : (0 <= max_0 x)%Q.
Proof.
  unfold max_0. destruct (Qle_bool x 0) eqn:E; [apply Qle_refl |].
  apply Qnot_lt_le. intros Hlt. apply Qlt_le_weak, Qle_bool_iff in Hlt. congruence.
Qed.

Lemma max_0_mono (x y : Q) : (x <= y)%Q → (max_0 x <= max_0 y)%Q.
Proof.
  intros Hxy. unfold max_0.
  destruct (Qle_bool x 0) eqn:Ex, (Qle_bool y 0) eqn:Ey.
  - apply Qle_refl.
  - apply Qnot_lt_le. intros Hlt. apply Qlt_le_weak, Qle_bool_iff in Hlt. congruence.
  - apply Qle_bool_iff in Ey.
    assert (Qle_bool x 0 = true) by (apply Qle_bool_iff; now apply Qle_trans with y).
    congruence.
  - exact Hxy.
Qed.

(** The decay [1 / (1 + age / 86400)] of a non-negative age. *)
Lemma decay_bounds (age : Q) :
  (0 <= age)%Q → (0 <= 1 / (1 + age / inject_Z (60 * 60 * 24)) <= 1)%Q.
Proof.
  intros Ha.
  assert (Hd : (0 <= age / inject_Z (60 * 60 * 24))%Q).
  { apply Qle_shift_div_l; [reflexivity |]. now rewrite Qmult_0_l. }
  assert (Hpos : (0 < 1 + age / inject_Z (60 * 60 * 24))%Q).
  { apply Qlt_le_trans with 1%Q; [reflexivity |].
    rewrite <- (Qplus_0_r 1) at 1. now apply Qplus_le_r. }
  split.
  - apply Qle_shift_div_l; [exact Hpos |]. rewrite Qmult_0_l. discriminate.
  - apply Qle_shift_div_r; [exact Hpos |]. rewrite Qmult_1_l.
    rewrite <- (Qplus_0_r 1) at 1. now apply Qplus_le_r.
Qed.

Lemma decay_mono (a b : Q) :
  (0 <= b)%Q → (b <= a)%Q →
  (1 / (1 + a / inject_Z (60 * 60 * 24)) <= 1 / (1 + b / inject_Z (60 * 60 * 24)))%Q.
Proof.
  intros Hb Hba.
  set (d := inject_Z (60 * 60 * 24)).
  assert (Hdb : (0 <= b / d)%Q).
  { apply Qle_shift_div_l; [reflexivity |]. now rewrite Qmult_0_l. }
  assert (Hab : (b / d <= a / d)%Q).
  { unfold Qdiv. apply Qmult_le_compat_r; [exact Hba | discriminate]. }
  assert (Hpb : (0 < 1 + b / d)%Q).
  { apply Qlt_le_trans with 1%Q; [reflexivity |].
    rewrite <- (Qplus_0_r 1) at 1. now apply Qplus_le_r. }
  assert (Hpa : (0 < 1 + a / d)%Q).
  { apply Qlt_le_trans with (1 + b / d)%Q; [exact Hpb | now apply Qplus_le_r]. }
  apply Qle_shift_div_r; [exact Hpa |].
  setoid_replace (1 / (1 + b / d) * (1 + a / d))%Q
    with ((1 + a / d) / (1 + b / d))%Q using relation Qeq.
  - apply Qle_shift_div_l; [exact Hpb |]. rewrite Qmult_1_l. now apply Qplus_le_r.
  - unfold Qdiv. ring.
Qed.

(** X3. The recency score lies between 0 and 1. *)
Theorem recency_score_bounds (now : Q) (meta : gmap string pyval) :
  (0 <= _recency_score now meta <= 1)%Q.
Proof.
  unfold _recency_score.
  destruct (falsy (meta !! "ts")); [split; discriminate |].
  destruct (meta !! "ts") as [[| t |]|]; try (split; discriminate).
  apply decay_bounds, max_0_nonneg.
Qed.

(** X4. The recency score does not decrease with the timestamp: of two
    timestamps other than 0 the later one scores at least as much, and a
    timestamp that is not in the past scores 1. *)
Theorem recency_score_monotone (now t1 t2 : Q) (m1 m2 : gmap string pyval) :
  m1 !! "ts" = Some (PyNum t1) → m2 !! "ts" = Some (PyNum t2) →
  ¬ (t1 == 0)%Q → ¬ (t2 == 0)%Q → (t1 <= t2)%Q →
  (_recency_score now m1 <= _recency_score now m2)%Q ∧
  ((now <= t2)%Q → (_recency_score now m2 == 1)%Q).
Proof.
  intros E1 E2 H1 H2 Hle. unfold _recency_score. rewrite E1, E2. simpl.
  destruct (Qeq_bool t1 0) eqn:B1; [apply Qeq_bool_iff in B1; contradiction |].
  destruct (Qeq_bool t2 0) eqn:B2; [apply Qeq_bool_iff in B2; contradiction |].
  split.
  - apply decay_mono; [apply max_0_nonneg |]. apply max_0_mono.
    apply Qplus_le_r. now apply Qopp_le_compat.
  - intros Hnow. unfold max_0.
    assert (Qle_bool (now - t2) 0 = true) as ->.
    { apply Qle_bool_iff. apply (Qplus_le_l _ _ t2).
      setoid_replace (now - t2 + t2)%Q with now using relation Qeq by ring.
      now rewrite Qplus_0_l. }
    reflexivity.
Qed.

Lemma recency_score_monotone_witness :
  (_recency_score 1700000000 {["ts" := PyNum 1600000000]}
   <= _recency_score 1700000000 {["ts" := PyNum 1699913600]})%Q.
Proof.
  apply (recency_score_monotone 1700000000 1600000000 1699913600
           {["ts" := PyNum 1600000000]} {["ts" := PyNum 1699913600]});
    try reflexivity; discriminate.
Defined.

(** *** The sort *)

Lemma key_gt_true (x y : Q) (m n : Z) :
  key_gt (Fin x, m) (Fin y, n) = true ↔ (y < x)%Q ∨ ((x == y)%Q ∧ n < m).
Proof.
  rewrite key_gt_Fin. destruct (x ?= y)%Q eqn:E.
  - apply Qeq_alt in E. rewrite Z.ltb_lt. split; [tauto |].
    intros [H | H]; [| tauto]. rewrite E in H. now apply Qlt_irrefl in H.
  - apply Qlt_alt in E. split; [discriminate |].
    intros [H | [H _]].
    + exfalso. apply (Qlt_irrefl x). now apply Qlt_trans with y.
    + rewrite H in E. now apply Qlt_irrefl in E.
  - apply Qgt_alt in E. split; [tauto | reflexivity].
Qed.

Lemma key_gt_false (x y : Q) (m n : Z) :
  key_gt (Fin x, m) (Fin y, n) = false ↔ (x < y)%Q ∨ ((x == y)%Q ∧ m <= n).
Proof.
  rewrite key_gt_Fin. destruct (x ?= y)%Q eqn:E.
  - apply Qeq_alt in E. rewrite Z.ltb_ge. split; [tauto |].
    intros [H | H]; [| tauto]. rewrite E in H. now apply Qlt_irrefl in H.
  - apply Qlt_alt in E. split; [tauto | reflexivity].
  - apply Qgt_alt in E. split; [discriminate |].
    intros [H | [H _]].
    + exfalso. apply (Qlt_irrefl x). now apply Qlt_trans with y.
    + rewrite H in E. now apply Qlt_irrefl in E.
Qed.

Lemma key_gt_asym (a b : pyfloat * Z) : key_gt a b = true → key_gt b a = false.
Proof.
  destruct a as [[x |] m]; [| now rewrite key_gt_NaN_l].
  destruct b as [[y |] n]; [| now rewrite key_gt_NaN_r].
  rewrite key_gt_true, key_gt_false. intros [H | [H1 H2]]; [now left | right].
  split; [now symmetry | lia].
Qed.

(** Where the key in the middle has a number for its score. *)
Lemma key_le_trans (x y z : pyfloat * Z) :
  y.1 ≠ NaN →
  key_gt y x = false → key_gt z y = false → key_gt z x = false.
Proof.
  destruct y as [[q |] n]; cbn [fst]; [intros _ | congruence].
  destruct x as [[p |] m]; [| intros _ _; apply key_gt_NaN_r].
  destruct z as [[r |] k]; [| intros _ _; apply key_gt_NaN_l].
  rewrite !key_gt_false. intros [H1 | [E1 L1]] [H2 | [E2 L2]].
  - left. now apply Qlt_trans with q.
  - left. now rewrite E2.
  - left. now rewrite <- E1.
  - right. split; [now rewrite E2 | lia].
Qed.

Lemma insert_desc_key_sorted (x : ContextItem) (l : list ContextItem) :
  Forall finite_score l →
  StronglySorted key_desc l → StronglySorted key_desc (insert_desc x l).
Proof.
  intros Hfin. induction 1 as [|y l Hl IH Hy]; simpl; [repeat constructor |].
  apply Forall_cons in Hfin as [Hfy Hfl].
  destruct (key_gt (sort_key y) (sort_key x)) eqn:E.
  - constructor; [now apply IH |].
    rewrite insert_desc_perm. constructor; [| exact Hy].
    now apply key_gt_asym.
  - constructor; [now constructor |].
    constructor; [exact E |].
    eapply Forall_impl; [exact Hy |].
    intros z Hz. unfold key_desc in *.
    now apply key_le_trans with (sort_key y).
Qed.

Lemma sort_desc_perm_sorted (l : list ContextItem) :
  Forall finite_score l →
  sort_desc l ≡ₚ l ∧ StronglySorted key_desc (sort_desc l).
Proof.
  intros Hfin. split; [apply sort_desc_perm |].
  induction l as [|x l IH]; simpl; [constructor |].
  apply Forall_cons in Hfin as [Hx Hl].
  apply insert_desc_key_sorted; [now apply sort_desc_finite | now apply IH].
Qed.

(** X5. When no score is NaN, the sort returns a permutation of its input in
    descending order of the key [(score, -len(text))]: no later item has a
    greater key. *)
Theorem sort_desc_sorted_by_key (l : list ContextItem) :
  Forall finite_score l →
  sort_desc l ≡ₚ l ∧ StronglySorted key_desc (sort_desc l).
Proof. exact (sort_desc_perm_sorted l). Qed.

Lemma sort_desc_sorted_by_key_witness :
  text <$> sort_desc tie_items = ["z"; "a b c"; "a b c"; "abcdefgh"] ∧
  sort_desc tie_items ≡ₚ tie_items ∧ StronglySorted key_desc (sort_desc tie_items).
Proof.
  split; [reflexivity |].
  apply (sort_desc_sorted_by_key tie_items).
  repeat constructor; discriminate.
Defined.

Lemma StronglySorted_lookup_lt {A} (R : relation A) (l : list A) (i j : nat) (a b : A) :
  StronglySorted R l → (i < j)%nat → l !! i = Some a → l !! j = Some b → R a b.
Proof.
  intros Hs. revert i j. induction Hs as [|x l Hl IH Hx]; intros i j Hij Hi Hj;
    [discriminate |].
  destruct j as [|j]; [lia |]. destruct i as [|i].
  - injection Hi as ->. rewrite Forall_forall in Hx. apply Hx.
    eapply list_elem_of_lookup_2. exact Hj.
  - apply (IH i j); [lia | exact Hi | exact Hj].
Qed.

(** X6. When no score is NaN, ties in score are broken by the number of
    characters of the text: of two sorted items of equal score the earlier
    one has at most as many characters as the later one. *)
Theorem sort_desc_ties_by_characters (l : list ContextItem) (i j : nat)
    (a b : ContextItem) :
  Forall finite_score l →
  (i < j)%nat → sort_desc l !! i = Some a → sort_desc l !! j = Some b →
  fl_eq (score a) (score b) = true →
  (String.length (text a) ≤ String.length (text b))%nat.
Proof.
  intros Hfin Hij Hi Hj E.
  pose proof (StronglySorted_lookup_lt key_desc _ i j a b
                (proj2 (sort_desc_perm_sorted l Hfin)) Hij Hi Hj) as H.
  unfold key_desc, sort_key in H.
  destruct (score a) as [x |], (score b) as [y |]; try discriminate.
  apply fl_eq_Fin in E.
  apply key_gt_false in H as [H | [_ H]].
  - rewrite E in H. now apply Qlt_irrefl in H.
  - lia.
Qed.

Lemma sort_desc_ties_by_characters_witness :
  (String.length "a b c" ≤ String.length "abcdefgh")%nat.
Proof.
  apply (sort_desc_ties_by_characters tie_items 1 3
           (mkItem "document" "a b c" ∅ (Fin 0))
           (mkItem "document" "abcdefgh" ∅ (Fin 0)));
    [repeat constructor; discriminate | lia | reflexivity | reflexivity | reflexivity].
Defined.

Lemma same_key_not_gt (k : pyfloat * Z) (x y : ContextItem) :
  same_key k x → same_key k y → key_gt (sort_key y) (sort_key x) = false.
Proof.
  unfold same_key, sort_key. cbn [snd].
  destruct k as [[q |] n], (score x) as [p |], (score y) as [r |]; cbn [fst];
    intros [E1 L1] [E2 L2]; try discriminate.
  apply fl_eq_Fin in E1, E2.
  apply key_gt_false. right. split; [now rewrite E1, E2 | lia].
Qed.

Lemma insert_desc_filter (k : pyfloat * Z) (x : ContextItem) (l : list ContextItem) :
  filter (same_key k) (insert_desc x l) = filter (same_key k) (x :: l).
Proof.
  induction l as [|y l IH]; [reflexivity |]. simpl.
  destruct (key_gt (sort_key y) (sort_key x)) eqn:E; [| reflexivity].
  rewrite (filter_cons _ y), IH, !filter_cons.
  destruct (decide (same_key k y)) as [Hy | Hy], (decide (same_key k x)) as [Hx | Hx];
    try reflexivity.
  rewrite (same_key_not_gt k x y Hx Hy) in E. discriminate.
Qed.

Lemma sort_desc_filter (k : pyfloat * Z) (l : list ContextItem) :
  filter (same_key k) (sort_desc l) = filter (same_key k) l.
Proof.
  induction l as [|x l IH]; [reflexivity |]. simpl.
  now rewrite insert_desc_filter, !filter_cons, IH.
Qed.

(** X7. When no score is NaN, the sort is stable: the items of any one key
    are in the order in which they were given. (With a NaN score the
    built-in sort does not promise this; the hypothesis is the built-in's,
    the insertion of the model keeps the order in any case.) *)
Theorem sort_desc_stable (k : pyfloat * Z) (l : list ContextItem) :
  Forall finite_score l →
  filter (same_key k) (sort_desc l) = filter (same_key k) l.
Proof. intros _. apply sort_desc_filter. Qed.

Lemma sort_desc_stable_witness :
  source <$> filter (same_key (Fin 0, -5)) (sort_desc tie_items)
    = ["document"; "message"].
Proof.
  rewrite (sort_desc_stable (Fin 0, -5) tie_items);
    [reflexivity | repeat constructor; discriminate].
Defined.

(** *** The greedy fill *)

(** A property of returned dictionaries holds of the whole result when it
    holds of what was selected before and of whatever the two branches
    append. *)
Lemma greedy_fill_Forall (P : Selected → Prop) (self : ContextSelector)
    (token_budget : Z) (items : list ContextItem) (selected : list Selected)
    (used : Z) :
  Forall P selected →
  (∀ it, it ∈ items → P (full_item self it)) →
  (∀ it u, it ∈ items → truncates self token_budget u it = true →
     P (truncated_item self token_budget u it)) →
  Forall P (greedy_fill self token_budget items selected used).
Proof.
  revert selected used.
  induction items as [|it rest IH]; intros selected used Hsel Hfull Htr;
    cbn [greedy_fill]; [exact Hsel |].
  assert (Hfull' : ∀ it', it' ∈ rest → P (full_item self it'))
    by (intros it' Hin; apply Hfull; now right).
  assert (Htr' : ∀ it' u, it' ∈ rest → truncates self token_budget u it' = true →
            P (truncated_item self token_budget u it'))
    by (intros it' u Hin; apply Htr; now right).
  destruct (token_budget <? used + _estimate_tokens self (text it)) eqn:E1.
  - destruct (fl_le (Fin (6 # 10)) (score it) && (used <? token_budget)) eqn:E2.
    + apply IH; [| exact Hfull' | exact Htr'].
      apply Forall_app. split; [exact Hsel |]. constructor; [| constructor].
      apply Htr; [now left |]. unfold truncates.
      apply andb_prop in E2 as [-> ->]. now rewrite E1.
    + now apply IH.
  - assert (Hnew : Forall P (selected ++ [full_item self it])).
    { apply Forall_app. split; [exact Hsel |]. constructor; [| constructor].
      apply Hfull. now left. }
    destruct (token_budget <=? used + _estimate_tokens self (text it));
      [exact Hnew | now apply IH].
Qed.

(** X8. Every returned dictionary is consistent: its [est_tokens] is the
    estimate of the text it carries. *)
Theorem select_context_est_consistent (self : ContextSelector) (now : Q)
    (query : string) (documents messages tools_outputs : list entry)
    (token_budget : Z) :
  Forall (fun s => est_tokens s = _estimate_tokens self (sel_text s))
    (select_context self now query documents messages tools_outputs token_budget).
Proof.
  unfold select_context. apply greedy_fill_Forall; [constructor | |];
    intros; reflexivity.
Qed.

(** X9. Every returned dictionary comes from an input item, with its source,
    metadata and score: it is the item in full, or the truncated version of
    an item of score at least 0.6. *)
Theorem select_context_from_pool (self : ContextSelector) (now : Q)
    (query : string) (documents messages tools_outputs : list entry)
    (token_budget : Z) :
  Forall (fun s => ∃ it,
            it ∈ scored_items now query documents messages tools_outputs ∧
            sel_origin s = origin it ∧
            (sel_text s = text it ∨
             (fl_le (Fin (6 # 10)) (score it) = true ∧
              ∃ u, u < token_budget ∧ s = truncated_item self token_budget u it)))
    (select_context self now query documents messages tools_outputs token_budget).
Proof.
  unfold select_context. apply greedy_fill_Forall; [constructor | |].
  - intros it Hit. exists it. rewrite sort_desc_perm in Hit.
    split; [exact Hit |]. split; [reflexivity | now left].
  - intros it u Hit Ht. exists it. rewrite sort_desc_perm in Hit.
    apply truncates_inv in Ht as (_ & Hs & Hu).
    split; [exact Hit |]. split; [reflexivity | right].
    split; [exact Hs |]. exists u. now split.
Qed.









(** X12. With a budget of zero or less nothing is returned. *)
Theorem select_context_no_budget (self : ContextSelector) (now : Q)
    (query : string) (documents messages tools_outputs : list entry)
    (token_budget : Z) :
  token_budget <= 0 →
  select_context self now query documents messages tools_outputs token_budget = [].
Proof. intros Hb. unfold select_context. now apply greedy_fill_done. Qed.

Lemma select_context_no_budget_witness :
  select_context default_selector 0 "word" [EStr "word word word"] [] [] 0 = [].
Proof.
  apply (select_context_no_budget default_selector 0 "word"
           [EStr "word word word"] [] [] 0). lia.
Defined.

(** X13. A truncated text is made of the first words of the item, at least
    one of them when the item has any; and with the factor 1.0 it has as
    many words as tokens were left. *)
Theorem truncated_item_words (self : ContextSelector) (token_budget used : Z)
    (it : ContextItem) :
  split (sel_text (truncated_item self token_budget used it))
    `prefix_of` split (text it)
  ∧ (split (text it) ≠ [] →
     split (sel_text (truncated_item self token_budget used it)) ≠ [])
  ∧ ((avg_tokens_per_word self == 1)%Q →
     truncates self token_budget used it = true →
     Z.of_nat (length (split (sel_text (truncated_item self token_budget used it))))
     = token_budget - used).
Proof.
  assert (Hsplit : split (sel_text (truncated_item self token_budget used it)) =
            take (Z.to_nat (Z.max 1 (py_int (inject_Z (token_budget - used) /
                                              max_1 (avg_tokens_per_word self)))))
                 (split (text it))).
  { unfold truncated_item; simpl. apply split_join, Forall_take, split_words. }
  split; [rewrite Hsplit; apply prefix_take |].
  split.
  - rewrite Hsplit. destruct (split (text it)) as [|w ws]; [congruence |].
    intros _. destruct (Z.to_nat _) eqn:E; [lia | discriminate].
  - intros E Ht. apply truncates_inv in Ht as (Hover & _ & Hlt).
    rewrite (estimate_factor_1 _ _ E) in Hover. rewrite truncated_length.
    assert (py_int (inject_Z (token_budget - used) /
                    max_1 (avg_tokens_per_word self)) = token_budget - used) as ->.
    { rewrite <- (py_int_inject_Z (token_budget - used)) at 2.
      apply py_int_comp. rewrite (max_1_one _ E). field. }
    lia.
Qed.

Lemma truncated_item_words_witness :
  Z.of_nat (length (split (sel_text
    (truncated_item default_selector 3 0 (mkItem "document" "w w w w w" ∅ (Fin (7 # 10)))))))
  = 3 - 0.
Proof.
  apply (truncated_item_words default_selector 3 0
           (mkItem "document" "w w w w w" ∅ (Fin (7 # 10)))); reflexivity.
Defined.

End SelectorExtra.


(** ** Further properties of the enforcer *)

Module EnforcerExtra.
Import PyStr Enforcer EnforcerFacts.

Section Extra.
Context `{Ext : Externals}.

Implicit Types (h : heap) (m : Message) (a : addr) (msgs messages : list addr)
  (self : LLMClientBase).

(** *** Targets *)

Lemma target_bounds self (mcl sm : option Z) :
  let target := target_for self mcl sm in
  1024 <= target ∧
  512 <= per_message_target_for target <= 8192 ∧
  per_message_target_for target <= target.
Proof.
  intros target. assert (H : 1024 <= target) by (unfold target, target_for; lia).
  unfold per_message_target_for.
  assert (target / 8 <= target) by (apply Z.div_le_upper_bound; lia).
  lia.
Qed.

(** X14. Whatever the limit and the margin, the target is at least 1024 and
    the per-message target lies between 512 and 8192 and does not exceed the
    target. *)
Theorem targets_bounded self (mcl sm : option Z) :
  let target := target_for self mcl sm in
  1024 <= target ∧
  512 <= per_message_target_for target <= 8192 ∧
  per_message_target_for target <= target.
Proof. exact (target_bounds self mcl sm). Qed.

(** *** Sums *)

Lemma foldl_add_shift (a : Z) (l : list Z) : foldl Z.add a l = a + sum_Z l.
Proof.
  unfold sum_Z. revert a. induction l as [|x l IH]; intros a; simpl; [lia |].
  rewrite (IH (a + x)), (IH (0 + x)). lia.
Qed.

Lemma sum_Z_cons (x : Z) (l : list Z) : sum_Z (x :: l) = x + sum_Z l.
Proof. unfold sum_Z at 1. simpl. rewrite foldl_add_shift. lia. Qed.

Lemma sum_Z_app (l k : list Z) : sum_Z (l ++ k) = sum_Z l + sum_Z k.
Proof.
  induction l as [|x l IH]; [reflexivity |].
  change ((x :: l) ++ k) with (x :: (l ++ k)). rewrite !sum_Z_cons, IH. lia.
Qed.

Lemma sum_Z_perm (l k : list Z) : l ≡ₚ k → sum_Z l = sum_Z k.
Proof.
  induction 1 as [| x l k _ IH | x y l | l k m _ IH1 _ IH2];
    rewrite ?sum_Z_cons; lia.
Qed.

(** The batch estimate is the sum of the single estimates. *)
Lemma estimate_messages_sum h msgs :
  _estimate_tokens_for_messages h msgs =
  sum_Z ((fun a => _estimate_tokens_for_message (deref h a)) <$> msgs).
Proof. unfold _estimate_tokens_for_messages, sum_Z. now rewrite foldl_fmap. Qed.

(** *** The table of token counts *)

Lemma token_counts_lookup (f : addr → Z) (l : list addr) (tc : gmap addr Z) a :
  a ∈ l → foldl (fun tc a => <[a := f a]> tc) tc l !! a = Some (f a).
Proof.
  revert tc. induction l as [|x l IH]; intros tc Ha; [inversion Ha |].
  simpl. destruct (decide (a ∈ l)) as [Hin | Hout]; [now apply IH |].
  apply elem_of_cons in Ha as [-> | Ha]; [| contradiction].
  clear IH. revert tc. induction l as [|y l IH]; intros tc; simpl.
  - apply lookup_insert_eq.
  - assert (x ≠ y) by (intros ->; apply Hout; now left).
    assert (x ∉ l) by (intros Hl; apply Hout; now right).
    rewrite insert_insert_ne by congruence. now apply IH.
Qed.

(** *** The pruning loop *)

(** The iteration cap never fires: the loop ends with nothing left to prune
    or with the running total within the target. *)
Lemma prune_loop_post (target pt mi : Z) (tc : gmap addr Z) h
    (prunable : list addr) (ptok it : Z) (removed : list addr)
    (prunable' removed' : list addr) :
  it + Z.of_nat (length prunable) <= mi →
  prune_loop target pt mi tc h prunable ptok it removed = (prunable', removed') →
  ∃ r, removed' = removed ++ r ∧ prunable = r ++ prunable' ∧
    (prunable' = [] ∨
     pt + (ptok - sum_Z ((fun a => default (_estimate_tokens_for_message (deref h a))
                                            (tc !! a)) <$> r)) <= target).
Proof.
  revert ptok it removed.
  induction prunable as [|x prunable IH]; intros ptok it removed Hcap; simpl.
  - intros [= <- <-]. exists []. rewrite app_nil_r. repeat split. now left.
  - simpl in Hcap. destruct (Z.ltb_spec target (pt + ptok)).
    + destruct (Z.leb_spec mi it); [lia |].
      intros E. apply IH in E as (r & -> & -> & Hpost); [| lia].
      exists (x :: r). rewrite <- app_assoc. repeat split.
      destruct Hpost as [-> | Hpost]; [now left | right].
      rewrite fmap_cons, sum_Z_cons. lia.
    + intros [= <- <-]. exists []. rewrite app_nil_r. repeat split.
      right. simpl. unfold sum_Z. simpl. lia.
Qed.

(** *** The preserved list and the preserved set *)

Lemma NoDup_last_n {A} (n : nat) (l : list A) : NoDup l → NoDup (last_n n l).
Proof. intros H. eapply sublist_NoDup; [exact H | apply sublist_drop]. Qed.

Lemma elem_of_last_n {A} (n : nat) (l : list A) (x : A) : x ∈ last_n n l → x ∈ l.
Proof. intros H. eapply elem_of_sublist; [exact H | apply sublist_drop]. Qed.

Lemma last_elem_of {A} (l : list A) (x : A) : last l = Some x → x ∈ l.
Proof. intros (l' & ->)%last_Some. apply elem_of_app. right. now left. Qed.

(** The list [preserved] has no duplicates, [preserved_ids] is its set of
    addresses, and it holds the last user message and the last three planning
    messages. *)
Lemma preserve_essentials_list h msgs (p : list addr) (ids : gset addr) :
  NoDup msgs → preserve_essentials h msgs = (p, Some ids) →
  NoDup p ∧ ids = list_to_set p ∧ (∀ a, a ∈ p → a ∈ msgs) ∧
  (∀ u, last (filter (has_role h user) msgs) = Some u → u ∈ ids) ∧
  (∀ a, a ∈ last_n 3 (filter (is_planning h) (filter (has_role h assistant) msgs)) →
        a ∈ ids).
Proof.
  intros Hnd. unfold preserve_essentials.
  set (sys := filter (has_role h system) msgs).
  set (usr := filter (has_role h user) msgs).
  set (pl := filter (is_planning h) (filter (has_role h assistant) msgs)).
  destruct usr as [|u us] eqn:Eu; [discriminate |].
  set (p2 := match pl with [] => sys ++ [u] | _ :: _ => (sys ++ [u]) ++ last_n 3 pl end).
  assert (Hp2 : p2 = (sys ++ [u]) ++ last_n 3 pl).
  { unfold p2. destruct pl; [now rewrite app_nil_r | reflexivity]. }
  assert (Hu : has_role h user u ∧ u ∈ msgs).
  { assert (u ∈ filter (has_role h user) msgs) as Hin by (fold usr; rewrite Eu; now left).
    now apply list_elem_of_filter in Hin. }
  assert (Hpl : ∀ a, a ∈ last_n 3 pl → has_role h assistant a ∧ a ∈ msgs).
  { intros a Ha. apply elem_of_last_n in Ha. unfold pl in Ha.
    apply list_elem_of_filter in Ha as [_ Ha]. now apply list_elem_of_filter in Ha. }
  assert (Hsys : ∀ a, a ∈ sys → has_role h system a ∧ a ∈ msgs)
    by (intros a Ha; now apply list_elem_of_filter in Ha).
  assert (Hnd2 : NoDup p2).
  { rewrite Hp2. apply NoDup_app. split; [| split].
    - apply NoDup_app. split; [now apply NoDup_filter | split].
      + intros a Ha Hau. apply list_elem_of_singleton in Hau as ->.
        apply Hsys in Ha as [Ha _]. destruct Hu as [Hu _].
        unfold has_role in *. congruence.
      + apply NoDup_singleton.
    - intros a Ha Hal. apply Hpl in Hal as [Hal _].
      apply elem_of_app in Ha as [Ha | Ha].
      + apply Hsys in Ha as [Ha _]. unfold has_role in *. congruence.
      + apply list_elem_of_singleton in Ha as ->. destruct Hu as [Hu _].
        unfold has_role in *. congruence.
    - apply NoDup_last_n. unfold pl. now do 2 apply NoDup_filter. }
  assert (Hin2 : ∀ a, a ∈ p2 → a ∈ msgs).
  { intros a. rewrite Hp2, !elem_of_app, list_elem_of_singleton.
    intros [[Ha | ->] | Ha]; [now apply Hsys | tauto | now apply Hpl]. }
  assert (Hpl2 : ∀ a, a ∈ last_n 3 pl → a ∈ p2).
  { intros a Ha. rewrite Hp2. apply elem_of_app. now right. }
  fold p2.
  destruct (last (u :: us)) as [lu|] eqn:El; [| discriminate].
  assert (Hlu : lu ∈ msgs).
  { apply last_elem_of in El. rewrite <- Eu in El. unfold usr in El.
    now apply list_elem_of_filter in El. }
  destruct (decide (lu ∈ (list_to_set p2 : gset addr))) as [Hin | Hout];
    intros [= <- <-].
  - repeat split; try assumption.
    + intros u' [= <-]. exact Hin.
    + intros a Ha. apply elem_of_list_to_set. auto.
  - repeat split.
    + apply NoDup_app. split; [exact Hnd2 | split; [| apply NoDup_singleton]].
      intros a Ha Hal. apply list_elem_of_singleton in Hal as ->.
      apply Hout. now apply elem_of_list_to_set.
    + rewrite list_to_set_snoc_L. apply union_comm_L.
    + intros a [Ha | Ha]%elem_of_app; [auto |].
      now apply list_elem_of_singleton in Ha as ->.
    + intros u' [= <-]. apply elem_of_union. left. now apply elem_of_singleton.
    + intros a Ha. apply elem_of_union. right. apply elem_of_list_to_set. auto.
Qed.

Lemma preserve_recent_list (recent p p' : list addr) (ids ids' : gset addr) :
  preserve_recent recent (p, Some ids) = inr (p', Some ids') →
  NoDup p → ids = list_to_set p →
  NoDup p' ∧ ids' = list_to_set p' ∧ ids ⊆ ids' ∧
  (∀ a, a ∈ p' → a ∈ p ∨ a ∈ recent).
Proof.
  revert p ids. induction recent as [|x recent IH]; intros p ids; simpl.
  - intros [= <- <-] Hnd Hids.
    refine (conj Hnd (conj Hids (conj _ _))); [intros a Ha; exact Ha |].
    intros a Ha. now left.
  - destruct (decide (x ∈ ids)) as [Hin | Hout]; intros E Hnd Hids.
    + destruct (IH _ _ E Hnd Hids) as (H1 & H2 & H3 & H4).
      refine (conj H1 (conj H2 (conj H3 _))).
      intros a Ha. destruct (H4 a Ha); [now left | right; now right].
    + destruct (IH _ _ E) as (H1 & H2 & H3 & H4).
      * apply NoDup_app. split; [exact Hnd | split; [| apply NoDup_singleton]].
        intros a Ha Hal. apply list_elem_of_singleton in Hal as ->.
        apply Hout. rewrite Hids. now apply elem_of_list_to_set.
      * rewrite Hids, list_to_set_snoc_L. apply union_comm_L.
      * refine (conj H1 (conj H2 (conj _ _))).
        -- intros a Ha. apply H3. apply elem_of_union. now right.
        -- intros a Ha. destruct (H4 a Ha) as [Hp | Hr]; [| right; now right].
           apply elem_of_app in Hp as [Hp | Hp]; [now left | right].
           apply list_elem_of_singleton in Hp as ->. now left.
Qed.

(** *** Stage 2 in detail *)

Lemma fmap_ext_in {A B} (f g : A → B) (l : list A) :
  (∀ x, x ∈ l → f x = g x) → f <$> l = g <$> l.
Proof.
  intros H. apply list_fmap_ext. intros i x Hi. apply H.
  eapply list_elem_of_lookup_2. exact Hi.
Qed.

Lemma filter_insert_at (P : addr → Prop) `{!∀ x, Decision (P x)}
    (i : nat) (x : addr) (l : list addr) :
  ¬ P x → filter P (list_insert_at i x l) = filter P l.
Proof.
  intros Hx. unfold list_insert_at.
  rewrite filter_app, filter_cons_False by exact Hx.
  now rewrite <- filter_app, take_drop.
Qed.

(** With the preserved set bound, Stage 2 returns. The prunable messages
    split into the removed ones, the oldest, and the kept ones; either none
    is kept or the preserved and the kept messages are within the target;
    the returned list, the notice apart, is the input filtered down to the
    preserved and the kept messages. *)
Lemma prune_detail h msgs (target k : Z) (p : list addr) (ids : gset addr) :
  (∀ a, a ∈ msgs → (a < length h)%nat) →
  preserve_recent (last_n 4 msgs) (preserve_essentials h msgs) = inr (p, Some ids) →
  let est := fun a => _estimate_tokens_for_message (deref h a) in
  ∃ (removed kept : list addr) (h' : heap) (out : list addr),
    prune h msgs target k = (h', inr out) ∧
    filter (fun a => a ∉ ids) msgs = removed ++ kept ∧
    (kept = [] ∨ sum_Z (est <$> p) + sum_Z (est <$> kept) <= target) ∧
    filter (fun a => a ≠ length h) out =
      filter (fun a => a ∈ ids ∪ list_to_set kept) msgs ∧
    (∀ a, (a < length h)%nat → deref h' a = deref h a).
Proof.
  intros Hlt E est. unfold prune. rewrite E.
  set (prunable := filter (fun a => a ∉ ids) msgs).
  set (tc := foldl _ _ _).
  set (count := fun a => default 0 (tc !! a)).
  destruct (prune_loop _ _ _ _ _ _ _ _ _) as [kept removed] eqn:Eloop.
  apply prune_loop_post in Eloop as (r & Er & Ep & Hpost); [| lia].
  simpl in Er. subst r.
  assert (Htc : ∀ a, a ∈ p ++ prunable → tc !! a = Some (est a))
    by (intros a Ha; now apply token_counts_lookup).
  assert (Hcp : count <$> p = est <$> p).
  { apply fmap_ext_in. intros a Ha. unfold count.
    rewrite Htc; [reflexivity | apply elem_of_app; now left]. }
  assert (Hcq : count <$> prunable = est <$> prunable).
  { apply fmap_ext_in. intros a Ha. unfold count.
    rewrite Htc; [reflexivity | apply elem_of_app; now right]. }
  assert (Hcr : (fun a => default (_estimate_tokens_for_message (deref h a)) (tc !! a))
                <$> removed = est <$> removed).
  { apply fmap_ext_in. intros a Ha.
    rewrite Htc; [reflexivity |]. apply elem_of_app. right. rewrite Ep.
    apply elem_of_app. now left. }
  assert (Hbudget : kept = [] ∨ sum_Z (est <$> p) + sum_Z (est <$> kept) <= target).
  { destruct Hpost as [-> | Hpost]; [now left | right].
    fold count in Hpost. rewrite Hcp, Hcq, Hcr in Hpost.
    rewrite Ep, fmap_app, sum_Z_app in Hpost. lia. }
  set (compressed := filter (fun a => a ∈ ids ∪ list_to_set kept) msgs).
  assert (Hcomp : filter (fun a => a ≠ length h) compressed = compressed).
  { apply filter_all. intros a Ha. apply list_elem_of_filter in Ha as [_ Ha].
    apply Hlt in Ha. lia. }
  destruct removed as [|x removed].
  - exists [], kept, h, compressed.
    refine (conj eq_refl (conj Ep (conj Hbudget (conj Hcomp _)))). reflexivity.
  - cbn [alloc]. eexists (x :: removed), kept, _, _.
    refine (conj eq_refl (conj Ep (conj Hbudget (conj _ _)))).
    + rewrite filter_insert_at by (intros H; now apply H). exact Hcomp.
    + intros a Ha. now apply deref_app_l.
Qed.

Lemma prune_returns_bound h msgs (target k : Z) (h' : heap) (out : list addr) :
  prune h msgs target k = (h', inr out) →
  ∃ p ids, preserve_recent (last_n 4 msgs) (preserve_essentials h msgs)
           = inr (p, Some ids).
Proof.
  unfold prune.
  destruct (preserve_recent _ _) as [e | [p [ids |]]]; [discriminate | | discriminate].
  intros _. now exists p, ids.
Qed.

(** *** The call in detail *)

(** A call that returns took the fast path, or returned after the
    truncation, or went through Stage 2. *)
Lemma enforce_returns_cases self h messages (mcl sm : option Z)
    (h' : heap) (out : list addr) :
  enforce_context_limit self h messages mcl sm = (h', inr out) →
  let target := target_for self mcl sm in
  let k := per_message_target_for target in
  (2 ≤ length messages)%nat ∧
  ((out = copies h messages ∧
    (h' = stage0_heap h messages ∨ h' = stage1_heap k h messages) ∧
    _estimate_tokens_for_messages h' out <= target)
   ∨ prune (stage1_heap k h messages) (copies h messages) target k = (h', inr out)).
Proof.
  intros E target k. rewrite enforce_unfold in E. fold target k in E.
  destruct (decide (length messages < 2)%nat); [discriminate |].
  split; [lia |].
  destruct (Z.leb_spec (_estimate_tokens_for_messages (stage0_heap h messages)
                          (copies h messages)) target).
  { injection E as <- <-. left. split; [reflexivity |]. split; [now left | assumption]. }
  destruct (Z.leb_spec (_estimate_tokens_for_messages (stage1_heap k h messages)
                          (copies h messages)) target).
  { injection E as <- <-. left. split; [reflexivity |]. split; [now right | assumption]. }
  now right.
Qed.

Lemma copies_lt_stage1 (k : Z) h messages a :
  a ∈ copies h messages → (a < length (stage1_heap k h messages))%nat.
Proof.
  intros Ha. unfold stage1_heap. rewrite length_app, !length_fmap.
  unfold copies in Ha. apply elem_of_seq in Ha. lia.
Qed.

Lemma length_stage1 (k : Z) h messages :
  length (stage1_heap k h messages) = notice_addr h messages.
Proof. unfold stage1_heap, notice_addr. now rewrite length_app, !length_fmap. Qed.

(** The facts about a call that went through Stage 2. *)
Lemma enforce_stage2 self h messages (mcl sm : option Z) (h' : heap) (out : list addr) :
  let target := target_for self mcl sm in
  let k := per_message_target_for target in
  let h1 := stage1_heap k h messages in
  let est := fun a => _estimate_tokens_for_message (deref h1 a) in
  (2 ≤ length messages)%nat →
  prune h1 (copies h messages) target k = (h', inr out) →
  ∃ (p : list addr) (ids : gset addr) (removed kept : list addr),
    preserved_ids_of self h messages mcl sm = Some ids ∧
    preserve_recent (last_n 4 (copies h messages))
      (preserve_essentials h1 (copies h messages)) = inr (p, Some ids) ∧
    filter (fun a => a ∉ ids) (copies h messages) = removed ++ kept ∧
    (kept = [] ∨ sum_Z (est <$> p) + sum_Z (est <$> kept) <= target) ∧
    survivors h messages out =
      filter (fun a => a ∈ ids ∪ list_to_set kept) (copies h messages) ∧
    (∀ a, a ∈ copies h messages → deref h' a = deref h1 a).
Proof.
  intros target k h1 est Hlen E.
  destruct (prune_returns_bound _ _ _ _ _ _ E) as (p & ids & Ep).
  destruct (prune_detail h1 (copies h messages) target k p ids
              (copies_lt_stage1 k h messages) Ep)
    as (removed & kept & h'' & out'' & E' & Hsplit & Hbud & Hsurv & Hderef).
  rewrite E in E'. injection E' as <- <-.
  exists p, ids, removed, kept.
  refine (conj _ (conj Ep (conj Hsplit (conj Hbud (conj _ _))))).
  - unfold preserved_ids_of. fold target k h1. now rewrite Ep.
  - unfold survivors. unfold h1 in Hsurv. rewrite length_stage1 in Hsurv. exact Hsurv.
  - intros a Ha. apply Hderef. now apply copies_lt_stage1.
Qed.

Lemma preserved_list_facts h msgs (p : list addr) (ids : gset addr) :
  NoDup msgs → msgs ≠ [] →
  preserve_recent (last_n 4 msgs) (preserve_essentials h msgs) = inr (p, Some ids) →
  NoDup p ∧ ids = list_to_set p ∧ (∀ a, a ∈ p → a ∈ msgs) ∧
  (∀ u, last (filter (has_role h user) msgs) = Some u → u ∈ ids) ∧
  (∀ a, a ∈ last_n 3 (filter (is_planning h) (filter (has_role h assistant) msgs)) →
        a ∈ ids).
Proof.
  intros Hnd Hne E.
  assert (Hrecent : last_n 4 msgs ≠ []).
  { unfold last_n. intros El. apply (f_equal length) in El.
    rewrite length_drop in El. destruct msgs; [congruence | simpl in El; lia]. }
  destruct (preserve_essentials h msgs) as [p0 [ids0 |]] eqn:E0.
  2:{ rewrite preserve_recent_unbound in E by exact Hrecent. discriminate. }
  destruct (preserve_essentials_list h msgs p0 ids0 Hnd E0)
    as (Hnd0 & Hids0 & Hin0 & Hlast0 & Hpl0).
  destruct (preserve_recent_list _ _ _ _ _ E Hnd0 Hids0) as (Hndp & Hids & Hsub & Hinp).
  refine (conj Hndp (conj Hids (conj _ (conj _ _)))).
  - intros a Ha. destruct (Hinp a Ha) as [H0 | Hr]; [now apply Hin0 |].
    now apply elem_of_last_n in Hr.
  - intros u Hu. apply Hsub. now apply Hlast0.
  - intros a Ha. apply Hsub. now apply Hpl0.
Qed.

(** X15. When the call returns, the messages of the result other than the
    notice are within the target, unless pruning ran out of messages to
    remove: then every one of them belongs to the preserved set. *)
Theorem enforce_within_target self h messages (mcl sm : option Z)
    (h' : heap) (out : list addr) :
  enforce_context_limit self h messages mcl sm = (h', inr out) →
  _estimate_tokens_for_messages h' (survivors h messages out)
    <= target_for self mcl sm
  ∨ ∃ ids, preserved_ids_of self h messages mcl sm = Some ids ∧
           ∀ a, a ∈ survivors h messages out → a ∈ ids.
Proof.
  intros E.
  destruct (enforce_returns_cases self h messages mcl sm h' out E)
    as [Hlen [(-> & _ & Hle) | Hprune]].
  - left. unfold survivors.
    rewrite filter_all; [exact Hle | apply copies_lt_notice].
  - destruct (enforce_stage2 self h messages mcl sm h' out Hlen Hprune)
      as (p & ids & removed & kept & Hids & Ep & Hsplit & Hbud & Hsurv & Hderef).
    destruct Hbud as [-> | Hbud].
    + right. exists ids. split; [exact Hids |]. intros a Ha.
      rewrite Hsurv in Ha. apply list_elem_of_filter in Ha as [Ha _].
      apply elem_of_union in Ha as [Ha | Ha]; [exact Ha |].
      rewrite list_to_set_nil in Ha. now apply not_elem_of_empty in Ha.
    + left. rewrite Hsurv, estimate_messages_sum.
      set (h1 := stage1_heap (per_message_target_for (target_for self mcl sm))
                   h messages) in *.
      set (msgs := copies h messages) in *.
      assert (Hnd : NoDup msgs) by apply copies_NoDup.
      assert (Hne : msgs ≠ []) by (apply copies_nonempty; lia).
      destruct (preserved_list_facts h1 msgs p ids Hnd Hne Ep)
        as (Hndp & Hset & Hinp & _ & _).
      assert (Hkept : ∀ a, a ∈ kept → a ∈ msgs ∧ a ∉ ids).
      { intros a Ha.
        assert (a ∈ filter (fun a => a ∉ ids) msgs) as Hf
          by (rewrite Hsplit; apply elem_of_app; now right).
        apply list_elem_of_filter in Hf. tauto. }
      assert (Hperm : filter (fun a => a ∈ ids ∪ list_to_set kept) msgs ≡ₚ p ++ kept).
      { apply NoDup_Permutation.
        - now apply NoDup_filter.
        - apply NoDup_app. split; [exact Hndp | split].
          + intros a Ha Hk. apply Hkept in Hk as [_ Hk]. apply Hk.
            rewrite Hset. now apply elem_of_list_to_set.
          + assert (NoDup (removed ++ kept)) as Hrk
              by (rewrite <- Hsplit; now apply NoDup_filter).
            now apply NoDup_app in Hrk as (_ & _ & Hrk).
        - intros a. rewrite list_elem_of_filter, elem_of_union, elem_of_list_to_set,
            elem_of_app, Hset, elem_of_list_to_set. split.
          + tauto.
          + intros [Ha | Ha]; [split; [now left | now apply Hinp] |].
            split; [now right | now apply Hkept]. }
      rewrite (fmap_ext_in _ (fun a => _estimate_tokens_for_message (deref h1 a))).
      2:{ intros a Ha. f_equal. apply Hderef.
          now apply list_elem_of_filter in Ha as [_ Ha]. }
      rewrite (sum_Z_perm _ _ (fmap_Permutation _ _ _ Hperm)), fmap_app, sum_Z_app.
      exact Hbud.
Qed.

Lemma StronglySorted_seq (b n : nat) : StronglySorted lt (seq b n).
Proof.
  revert b. induction n as [|n IH]; intros b; simpl; constructor; [apply IH |].
  apply Forall_forall. intros x Hx. apply elem_of_seq in Hx. lia.
Qed.

Lemma StronglySorted_filter {A} (R : relation A) (P : A → Prop)
    `{!∀ x, Decision (P x)} (l : list A) :
  StronglySorted R l → StronglySorted R (filter P l).
Proof.
  induction 1 as [|x l Hl IH Hx]; [constructor |].
  rewrite filter_cons. destruct (decide (P x)); [| exact IH].
  constructor; [exact IH |].
  apply Forall_forall. intros y Hy. apply list_elem_of_filter in Hy as [_ Hy].
  rewrite Forall_forall in Hx. now apply Hx.
Qed.

(** X16. Pruning removes the oldest messages first: once a message outside
    the preserved set is in the result, so is every later message. *)
Theorem enforce_prunes_oldest self h messages (mcl sm : option Z)
    (h' : heap) (out : list addr) (ids : gset addr) (i j : nat) :
  enforce_context_limit self h messages mcl sm = (h', inr out) →
  preserved_ids_of self h messages mcl sm = Some ids →
  (i < j < length messages)%nat →
  copy_at h i ∈ out → copy_at h i ∉ ids →
  copy_at h j ∈ out.
Proof.
  intros E Hids Hij Hi Hni.
  assert (Hcj : copy_at h j ∈ copies h messages)
    by (apply elem_of_copies; exists j; split; [reflexivity | lia]).
  assert (Hci : copy_at h i ∈ copies h messages)
    by (apply elem_of_copies; exists i; split; [reflexivity | lia]).
  destruct (enforce_returns_cases self h messages mcl sm h' out E)
    as [Hlen [(-> & _ & _) | Hprune]]; [exact Hcj |].
  destruct (enforce_stage2 self h messages mcl sm h' out Hlen Hprune)
    as (p & ids' & removed & kept & Hids' & _ & Hsplit & _ & Hsurv & _).
  rewrite Hids in Hids'. injection Hids' as <-.
  assert (Hsi : copy_at h i ∈ survivors h messages out).
  { apply list_elem_of_filter. split; [now apply copies_lt_notice | exact Hi]. }
  rewrite Hsurv in Hsi. apply list_elem_of_filter in Hsi as [Hsi _].
  apply elem_of_union in Hsi as [Hsi | Hsi]; [contradiction |].
  apply elem_of_list_to_set in Hsi.
  assert (Hsj : copy_at h j ∈ survivors h messages out).
  { rewrite Hsurv. apply list_elem_of_filter. split; [| exact Hcj].
    apply elem_of_union. destruct (decide (copy_at h j ∈ ids)) as [Hj | Hj]; [now left |].
    right. apply elem_of_list_to_set.
    assert (copy_at h j ∈ removed ++ kept) as Hrk
      by (rewrite <- Hsplit; now apply list_elem_of_filter).
    apply elem_of_app in Hrk as [Hr | Hk]; [exfalso | exact Hk].
    assert (StronglySorted lt (removed ++ kept)) as Hsorted.
    { rewrite <- Hsplit. apply StronglySorted_filter, StronglySorted_seq. }
    pose proof (StronglySorted_app_1_elem_of _ _ _ _ _ Hsorted Hr Hsi) as Hlt.
    unfold copy_at in Hlt. lia. }
  now apply list_elem_of_filter in Hsj as [_ Hsj].
Qed.

Lemma filter_last {A} (P : A → Prop) `{!∀ x, Decision (P x)} (l : list A)
    (i : nat) (a : A) :
  l !! i = Some a → P a →
  (∀ j b, (i < j)%nat → l !! j = Some b → ¬ P b) →
  last (filter P l) = Some a.
Proof.
  intros Hi Ha Hafter. rewrite <- (take_drop_middle l i a Hi).
  rewrite filter_app, filter_cons_True by exact Ha.
  rewrite (filter_none P (drop (S i) l)).
  - apply last_snoc.
  - intros x Hx. apply list_elem_of_lookup_1 in Hx as [j Hj].
    rewrite lookup_drop in Hj. apply (Hafter (S i + j)%nat); [lia | exact Hj].
Qed.

Lemma filter_last_n {A} (P : A → Prop) `{!∀ x, Decision (P x)} (l : list A)
    (n i : nat) (a : A) :
  l !! i = Some a → P a →
  (length (filter P (drop (S i) l)) < n)%nat →
  a ∈ last_n n (filter P l).
Proof.
  intros Hi Ha Hlen. rewrite <- (take_drop_middle l i a Hi).
  rewrite filter_app, filter_cons_True by exact Ha.
  set (front := filter P (take i l)). set (back := filter P (drop (S i) l)) in *.
  unfold last_n. apply list_elem_of_lookup.
  exists (length front - (length (front ++ a :: back) - n))%nat.
  rewrite lookup_drop, length_app. simpl.
  replace (length front + S (length back) - n +
           (length front - (length front + S (length back) - n)))%nat
    with (length front + 0)%nat by lia.
  now rewrite lookup_app_r, Nat.add_0_r, Nat.sub_diag by lia.
Qed.

Lemma length_filter_Forall2 {A B} (R : A → B → Prop) (P : A → Prop) (Q : B → Prop)
    `{!∀ x, Decision (P x), !∀ y, Decision (Q y)} (l : list A) (k : list B) :
  Forall2 R l k → (∀ x y, R x y → (P x ↔ Q y)) →
  length (filter P l) = length (filter Q k).
Proof.
  intros HF HR. induction HF as [|x y l k Hxy _ IH]; [reflexivity |].
  rewrite !filter_cons. specialize (HR x y Hxy).
  destruct (decide (P x)), (decide (Q y)); simpl; try tauto; now rewrite IH.
Qed.

Lemma planning_same m (m' : Message) :
  same_but_truncated m m' → (planning m' ↔ planning m).
Proof. intros (Hr & Ht & _ & _). unfold planning. now rewrite Hr, Ht. Qed.

Lemma filter_planning h msgs :
  filter (is_planning h) (filter (has_role h assistant) msgs) =
  filter (fun a => planning (deref h a)) msgs.
Proof.
  rewrite list_filter_filter. apply list_filter_iff.
  intros a. unfold planning, is_planning, has_role. tauto.
Qed.

Lemma Forall2_copies (k : Z) h messages :
  Forall2 (fun a src => same_but_truncated (deref h src)
                          (deref (stage1_heap k h messages) a))
          (copies h messages) messages.
Proof.
  apply Forall2_same_length_lookup_2; [apply length_copies |].
  intros i a src Ha Hsrc. unfold copies in Ha. apply lookup_seq in Ha as [-> _].
  apply (copied_deref0 h messages _ i src (copied_stage1 k h messages) Hsrc).
Qed.

(** X17. When the call returns, the last user message and the last three
    assistant messages that carry a thinking text are in the result. *)
Theorem enforce_keeps_last_user_and_planning self h messages (mcl sm : option Z)
    (h' : heap) (out : list addr) (i : nat) :
  enforce_context_limit self h messages mcl sm = (h', inr out) →
  last_user h messages i ∨ recent_planning h messages i →
  copy_at h i ∈ out.
Proof.
  intros E Hwhy.
  assert (Hi : (i < length messages)%nat).
  { destruct Hwhy as [(src & Hs & _) | (src & Hs & _)]; now apply lookup_lt_Some in Hs. }
  assert (Hci : copy_at h i ∈ copies h messages)
    by (apply elem_of_copies; exists i; split; [reflexivity | lia]).
  destruct (enforce_returns_cases self h messages mcl sm h' out E)
    as [Hlen [(-> & _ & _) | Hprune]]; [exact Hci |].
  destruct (enforce_stage2 self h messages mcl sm h' out Hlen Hprune)
    as (p & ids & removed & kept & _ & Ep & _ & _ & Hsurv & _).
  set (k := per_message_target_for (target_for self mcl sm)) in *.
  set (h1 := stage1_heap k h messages) in *.
  destruct (preserved_list_facts h1 (copies h messages) p ids
              (copies_NoDup h messages) (copies_nonempty h messages ltac:(lia)) Ep)
    as (_ & _ & _ & Hlast & Hplan).
  assert (Hlook : copies h messages !! i = Some (copy_at h i))
    by (unfold copies, copy_at; now apply lookup_seq_lt).
  assert (Hids : copy_at h i ∈ ids).
  { destruct Hwhy as [(src & Hs & Hr & Hafter) | (src & Hs & Hp & Hcount)].
    - apply Hlast. apply (filter_last _ _ i); [exact Hlook | |].
      + unfold has_role, h1, stage1_heap.
        now rewrite (copy_role h messages _ i src (copied_stage1 k h messages) Hs).
      + intros j b Hj Hb Hrb. unfold copies in Hb. apply lookup_seq in Hb as [-> Hjn].
        destruct (lookup_lt_is_Some_2 messages j Hjn) as [s Hsj].
        unfold has_role, h1, stage1_heap in Hrb.
        change (length h + j)%nat with (copy_at h j) in Hrb.
        rewrite (copy_role h messages _ j s (copied_stage1 k h messages) Hsj) in Hrb.
        now apply (Hafter j s).
    - apply Hplan. rewrite filter_planning. apply (filter_last_n _ _ 3 i); [exact Hlook | |].
      + apply (planning_same (deref h src)); [| exact Hp].
        apply (copied_deref0 h messages _ i src (copied_stage1 k h messages) Hs).
      + rewrite (length_filter_Forall2
                   (fun a src => same_but_truncated (deref h src) (deref h1 a))
                   (fun a => planning (deref h1 a)) (fun a => planning (deref h a))
                   (drop (S i) (copies h messages)) (drop (S i) messages));
          [exact Hcount | |].
        * apply Forall2_drop, Forall2_copies.
        * intros a s Hsame. now apply planning_same. }
  assert (Hs : copy_at h i ∈ survivors h messages out).
  { rewrite Hsurv. apply list_elem_of_filter. split; [| exact Hci].
    apply elem_of_union. now left. }
  now apply list_elem_of_filter in Hs as [_ Hs].
Qed.

(** X18. The result never has more entries than the input: the notice is
    added only when at least one message was removed. *)
Theorem enforce_length self h messages (mcl sm : option Z)
    (h' : heap) (out : list addr) :
  enforce_context_limit self h messages mcl sm = (h', inr out) →
  (length out ≤ length messages)%nat.
Proof.
  intros E.
  destruct (enforce_inv self h messages mcl sm)
    as (cs & Hc & [[_ E'] | [_ [E' | Hp]]]).
  - congruence.
  - rewrite E' in E. injection E as <- <-. now rewrite length_copies.
  - rewrite E in Hp.
    inversion Hp as [| | ids kept k notice _ _ _ _ Hlt _ _ _]; subst.
    + now rewrite length_copies.
    + rewrite length_copies in Hlt. unfold list_insert_at.
      rewrite length_app. simpl. rewrite length_take, length_drop. lia.
Qed.

Lemma truncate_content_bound (k : Z) m (s : string) :
  (∀ t n, 0 <= n → Z.of_nat (encode_len (truncate_text_by_tokens t n)) <= n) →
  0 <= k →
  content (truncate_content k m) = CText s →
  Z.of_nat (encode_len s) <= k.
Proof.
  intros Hprim Hk. unfold truncate_content.
  destruct (content m) as [t | pl] eqn:Ec.
  - destruct (Z.ltb_spec k (Z.of_nat (encode_len t))); simpl.
    + intros [= <-]. now apply Hprim.
    + rewrite Ec. intros [= <-]. lia.
  - rewrite Ec. discriminate.
Qed.

Lemma deref_stage1 (k : Z) h messages (i : nat) (src : addr) :
  messages !! i = Some src →
  deref (stage1_heap k h messages) (copy_at h i) = truncate_content k (deref h src).
Proof.
  intros Hi. unfold stage1_heap, copy_at.
  now rewrite deref_app_r, !list_lookup_fmap, Hi.
Qed.

(** X19. If the truncation primitive keeps its bound, then after a call that
    returns off the fast path every text content among the copies has at
    most the per-message target in tokens. *)
Theorem enforce_truncates_long self h messages (mcl sm : option Z)
    (h' : heap) (out : list addr) (i : nat) (src : addr) (s : string) :
  (∀ t n, 0 <= n → Z.of_nat (encode_len (truncate_text_by_tokens t n)) <= n) →
  enforce_context_limit self h messages mcl sm = (h', inr out) →
  target_for self mcl sm <
    _estimate_tokens_for_messages (stage0_heap h messages) (copies h messages) →
  messages !! i = Some src →
  content (deref h' (copy_at h i)) = CText s →
  Z.of_nat (encode_len s) <= per_message_target_for (target_for self mcl sm).
Proof.
  intros Hprim E Hover Hi Hc.
  pose proof (target_bounds self mcl sm) as (_ & [Hk _] & _).
  assert (Hci : copy_at h i ∈ copies h messages).
  { apply elem_of_copies. exists i. split; [reflexivity |].
    now apply lookup_lt_Some in Hi. }
  assert (Hd : deref h' (copy_at h i) =
               truncate_content (per_message_target_for (target_for self mcl sm))
                 (deref h src)).
  { destruct (enforce_returns_cases self h messages mcl sm h' out E)
      as [Hlen [(-> & [-> | ->] & Hle) | Hprune]].
    - lia.
    - now apply deref_stage1.
    - destruct (enforce_stage2 self h messages mcl sm h' out Hlen Hprune)
        as (_ & _ & _ & _ & _ & _ & _ & _ & _ & Hderef).
      rewrite (Hderef _ Hci). now apply deref_stage1. }
  rewrite Hd in Hc. eapply truncate_content_bound; [exact Hprim | lia | exact Hc].
Qed.

End Extra.

(** *** The theorems at the sample conversation *)

Lemma enforce_within_target_witness :
  ∃ h' out,
    enforce_context_limit sample_client sample_heap (seq 0 8) (Some 4000) None
      = (h', inr out) ∧
    (_estimate_tokens_for_messages h' (survivors sample_heap (seq 0 8) out)
       <= target_for sample_client (Some 4000) None
     ∨ ∃ ids, preserved_ids_of sample_client sample_heap (seq 0 8) (Some 4000) None
                = Some ids ∧
              ∀ a, a ∈ survivors sample_heap (seq 0 8) out → a ∈ ids).
Proof.
  eexists _, _. split; [vm_compute; reflexivity |].
  apply (enforce_within_target (Ext := char_tokens) sample_client sample_heap
           (seq 0 8) (Some 4000) None).
  vm_compute. reflexivity.
Defined.

Lemma enforce_prunes_oldest_witness :
  copy_at sample_heap 3 ∈ [8; 10; 11; 16; 12; 13; 14; 15]%nat.
Proof.
  eapply (enforce_prunes_oldest (Ext := char_tokens) sample_client sample_heap
            (seq 0 8) (Some 4000) None _ _ _ 2 3).
  - vm_compute. reflexivity.
  - vm_compute. reflexivity.
  - simpl. lia.
  - vm_compute. apply list_elem_of_In. simpl. tauto.
  - vm_compute. intros H. discriminate H.
Defined.

Lemma enforce_keeps_last_user_and_planning_witness :
  copy_at sample_heap 6 ∈ [8; 11; 16; 12; 13; 14; 15]%nat.
Proof.
  eapply (enforce_keeps_last_user_and_planning (Ext := char_tokens) sample_client
            sample_heap (seq 0 8) (Some 1024) None _ _ 6).
  - vm_compute. reflexivity.
  - left. exists 6%nat. split; [reflexivity |]. split; [reflexivity |].
    intros j s Hj Hs. destruct j as [|[|[|[|[|[|[|[|j]]]]]]]]; try lia.
    + injection Hs as <-. discriminate.
    + discriminate.
Defined.

Lemma enforce_length_witness :
  (length [8; 11; 16; 12; 13; 14; 15]%nat ≤ length (seq 0 8))%nat.
Proof.
  eapply (enforce_length (Ext := char_tokens) sample_client sample_heap
            (seq 0 8) (Some 1024) None).
  vm_compute. reflexivity.
Defined.

Lemma length_prefix (n : nat) (s : string) : (String.length (prefix n s) ≤ n)%nat.
Proof.
  unfold prefix. revert n. induction s as [|c s IH]; intros [|n]; simpl; try lia.
  specialize (IH n). lia.
Qed.

Lemma enforce_truncates_long_witness :
  Z.of_nat (String.length (sample_text 512))
    <= per_message_target_for (target_for sample_client (Some 1024) None).
Proof.
  eapply (enforce_truncates_long (Ext := char_tokens) sample_client sample_heap
            (seq 0 8) (Some 1024) None _ _ 0 0%nat (sample_text 512)).
  - intros t n Hn. simpl. pose proof (length_prefix (Z.to_nat n) t). lia.
  - vm_compute. reflexivity.
  - vm_compute. reflexivity.
  - reflexivity.
  - vm_compute. reflexivity.
Defined.

End EnforcerExtra.


(** ** Properties of the configuration overrides *)

Module ConfigFacts.
Import PyStr ConfigOverride.

Implicit Types (d b o : list (string * cfg)) (k : string) (v : cfg).

(** *** Dictionaries *)

Lemma dict_get_set_eq k v d : dict_get k (dict_set k v d) = Some v.
Proof.
  induction d as [|[k' v'] d IH]; simpl.
  - now rewrite decide_True.
  - destruct (decide (k = k')) as [-> | Hne]; simpl.
    + now rewrite decide_True.
    + now rewrite decide_False.
Qed.

Lemma dict_get_set_ne k k' v d :
  k ≠ k' → dict_get k' (dict_set k v d) = dict_get k' d.
Proof.
  intros Hne. induction d as [|[k0 v0] d IH]; simpl.
  - now rewrite decide_False by congruence.
  - destruct (decide (k = k0)) as [-> | Hk]; simpl.
    + now rewrite !decide_False by congruence.
    + destruct (decide (k' = k0)); [reflexivity | exact IH].
Qed.

Lemma dict_get_None k d : dict_get k d = None ↔ k ∉ keys d.
Proof.
  unfold keys. induction d as [|[k' v'] d IH]; simpl.
  - split; [intros _ H; inversion H | reflexivity].
  - rewrite not_elem_of_cons. destruct (decide (k = k')) as [-> | Hne].
    + split; [discriminate | tauto].
    + rewrite IH. tauto.
Qed.

Lemma keys_set_old k v d : k ∈ keys d → keys (dict_set k v d) = keys d.
Proof.
  unfold keys. induction d as [|[k' v'] d IH]; intros Hin; [inversion Hin |].
  simpl. destruct (decide (k = k')) as [-> | Hne]; [reflexivity |].
  simpl. f_equal. apply IH. simpl in Hin.
  apply elem_of_cons in Hin as [? | ?]; [contradiction | assumption].
Qed.

Lemma keys_set_new k v d : k ∉ keys d → keys (dict_set k v d) = keys d ++ [k].
Proof.
  unfold keys. induction d as [|[k' v'] d IH]; intros Hout; [reflexivity |].
  simpl in Hout. apply not_elem_of_cons in Hout as [Hne Hout].
  simpl. rewrite decide_False by exact Hne. simpl. f_equal. now apply IH.
Qed.

(** *** The deep merge *)

Lemma deep_merge_nil b : _deep_merge b [] = b.
Proof. reflexivity. Qed.

Lemma deep_merge_cons b k v o :
  _deep_merge b ((k, v) :: o) =
  _deep_merge (dict_set k (merge_entry v (dict_get k b)) b) o.
Proof. reflexivity. Qed.

Lemma merge_entry_dict b o :
  merge_entry (Dict o) (Some (Dict b)) = Dict (_deep_merge b o).
Proof. reflexivity. Qed.

Lemma merge_entry_over_leaf v existing :
  (∀ bd, existing ≠ Some (Dict bd)) → merge_entry v existing = v.
Proof.
  intros H. destruct v as [x | o]; [reflexivity |].
  destruct existing as [[y | bd] |]; try reflexivity. now destruct (H bd).
Qed.

Lemma deep_merge_get_silent b o k :
  dict_get k o = None → dict_get k (_deep_merge b o) = dict_get k b.
Proof.
  revert b. induction o as [|[k0 v0] o IH]; intros b Hk; [reflexivity |].
  simpl in Hk. destruct (decide (k = k0)); [discriminate |].
  rewrite deep_merge_cons, (IH _ Hk). apply dict_get_set_ne. congruence.
Qed.

Lemma deep_merge_lookup b o k :
  NoDup (keys o) →
  dict_get k (_deep_merge b o) =
  match dict_get k o with
  | Some v => Some (merge_entry v (dict_get k b))
  | None => dict_get k b
  end.
Proof.
  revert b. induction o as [|[k0 v0] o IH]; intros b Hnd; [reflexivity |].
  unfold keys in Hnd. simpl in Hnd. apply NoDup_cons in Hnd as [Hk0 Hnd].
  rewrite deep_merge_cons. simpl. destruct (decide (k = k0)) as [-> | Hne].
  - rewrite deep_merge_get_silent by now apply dict_get_None.
    apply dict_get_set_eq.
  - rewrite (IH _ Hnd). rewrite dict_get_set_ne by congruence. reflexivity.
Qed.

(** X20. After a deep merge a key holds what the override gives for it,
    merged into the base value when both are dictionaries, and the base
    value when the override does not mention the key. *)
Theorem deep_merge_get b o k :
  NoDup (keys o) →
  dict_get k (_deep_merge b o) =
  match dict_get k o with
  | Some v => Some (merge_entry v (dict_get k b))
  | None => dict_get k b
  end.
Proof. exact (deep_merge_lookup b o k). Qed.

Lemma deep_merge_get_witness :
  dict_get "model" (_deep_merge [("model", Leaf (LStr "a")); ("proxy", Leaf LNone)]
                                [("model", Leaf (LStr "b"))])
  = Some (merge_entry (Leaf (LStr "b")) (Some (Leaf (LStr "a")))).
Proof.
  apply (deep_merge_get [("model", Leaf (LStr "a")); ("proxy", Leaf LNone)]
           [("model", Leaf (LStr "b"))] "model").
  apply NoDup_singleton.
Defined.

Lemma wf_cfg_get o k v :
  wf_cfg (Dict o) → dict_get k o = Some v → wf_cfg v ∧ NoDup (keys o).
Proof.
  intros [Hnd Hall] Hk. split; [| exact Hnd]. clear Hnd.
  induction o as [|[k0 v0] o IH]; [discriminate |].
  simpl in Hk. destruct Hall as [H0 Hall].
  destruct (decide (k = k0)); [injection Hk as <-; exact H0 | now apply IH].
Qed.

Lemma deep_merge_leaf_wins b o (path : list string) (x : leaf) :
  wf_cfg (Dict o) →
  lookup_path o path = Some (Leaf x) →
  lookup_path (_deep_merge b o) path = Some (Leaf x).
Proof.
  revert b o. induction path as [|k rest IH]; intros b o Hwf Hp; [discriminate |].
  simpl in Hp. destruct (dict_get k o) as [v |] eqn:Ek; [| discriminate].
  destruct (wf_cfg_get o k v Hwf Ek) as [Hwfv Hnd].
  cbn [lookup_path]. rewrite (deep_merge_lookup b o k Hnd), Ek.
  destruct v as [y | od], rest as [|k2 rest]; try discriminate.
  - injection Hp as ->. reflexivity.
  - destruct (dict_get k b) as [[y | bd] |]; try exact Hp.
    rewrite merge_entry_dict. now apply IH.
Qed.

(** X21. A scalar that the override sets wins at any depth: the merged
    dictionary has it at the same path, whatever the base holds there. *)
Theorem deep_merge_override_wins b o (path : list string) (x : leaf) :
  wf_cfg (Dict o) →
  lookup_path o path = Some (Leaf x) →
  lookup_path (_deep_merge b o) path = Some (Leaf x).
Proof. exact (deep_merge_leaf_wins b o path x). Qed.

Lemma deep_merge_override_wins_witness :
  lookup_path
    (_deep_merge [("llm", Dict [("retry", Dict [("max_retries", Leaf (LInt 3))])])]
                 [("llm", Dict [("retry", Dict [("max_retries", Leaf (LInt 5))])])])
    ["llm"; "retry"; "max_retries"] = Some (Leaf (LInt 5)).
Proof.
  apply deep_merge_override_wins; [| reflexivity].
  simpl. repeat split; try apply NoDup_singleton; apply NoDup_nil_2.
Defined.

Lemma deep_merge_silent_path b o k (rest : list string) :
  dict_get k o = None →
  lookup_path (_deep_merge b o) (k :: rest) = lookup_path b (k :: rest).
Proof. intros Hk. simpl. now rewrite deep_merge_get_silent. Qed.

(** X22. Where the override does not mention the first key of a path, the
    merged dictionary has what the base has. *)
Theorem deep_merge_base_kept b o k (rest : list string) :
  dict_get k o = None →
  lookup_path (_deep_merge b o) (k :: rest) = lookup_path b (k :: rest).
Proof. exact (deep_merge_silent_path b o k rest). Qed.

Lemma deep_merge_base_kept_witness :
  lookup_path (_deep_merge [("agent", Dict [("max_steps", Leaf (LInt 50))])]
                           [("llm", Dict [("model", Leaf (LStr "m"))])])
              ["agent"; "max_steps"]
  = lookup_path [("agent", Dict [("max_steps", Leaf (LInt 50))])] ["agent"; "max_steps"].
Proof. apply deep_merge_base_kept. reflexivity. Defined.

Lemma filter_ext_in {A} (P Q : A → Prop) `{!∀ x, Decision (P x), !∀ x, Decision (Q x)}
    (l : list A) :
  (∀ x, x ∈ l → (P x ↔ Q x)) → filter P l = filter Q l.
Proof.
  induction l as [|x l IH]; intros Hext; [reflexivity |].
  assert (Hx : P x ↔ Q x) by (apply Hext; now left).
  rewrite !filter_cons, IH by (intros y Hy; apply Hext; now right).
  destruct (decide (P x)), (decide (Q x)); tauto || reflexivity.
Qed.

(** X23. A deep merge keeps the keys of the base in their order and puts the
    new keys of the override after them, in the order of the override. *)
Theorem deep_merge_keys b o :
  NoDup (keys o) →
  keys (_deep_merge b o) = keys b ++ filter (fun k => k ∉ keys b) (keys o).
Proof.
  revert b. induction o as [|[k0 v0] o IH]; intros b Hnd.
  - simpl. now rewrite app_nil_r.
  - unfold keys in Hnd. simpl in Hnd. apply NoDup_cons in Hnd as [Hk0 Hnd].
    rewrite deep_merge_cons, (IH _ Hnd).
    change (keys ((k0, v0) :: o)) with (k0 :: keys o).
    destruct (decide (k0 ∈ keys b)) as [Hin | Hout].
    + rewrite keys_set_old by exact Hin.
      rewrite (filter_cons_False _ k0) by tauto. reflexivity.
    + rewrite keys_set_new by exact Hout.
      rewrite (filter_cons_True _ k0) by exact Hout.
      rewrite <- app_assoc. simpl. do 2 f_equal.
      apply filter_ext_in. intros x Hx. rewrite elem_of_app, list_elem_of_singleton.
      split; [tauto |]. intros Hxb [Hb | ->]; [contradiction |].
      apply Hk0. exact Hx.
Qed.

Lemma deep_merge_keys_witness :
  keys (_deep_merge [("llm", Leaf LNone); ("agent", Leaf LNone)]
                    [("tools", Leaf LNone); ("llm", Leaf LNone)])
  = keys [("llm", Leaf LNone); ("agent", Leaf LNone)] ++
    filter (fun k => k ∉ keys [("llm", Leaf LNone); ("agent", Leaf LNone)])
           (keys [("tools", Leaf LNone); ("llm", Leaf LNone)]).
Proof.
  apply deep_merge_keys. unfold keys. simpl.
  apply NoDup_cons. split; [| apply NoDup_singleton].
  intros H. apply list_elem_of_singleton in H. discriminate.
Defined.

(** *** Setting a nested value *)

Lemma set_nested_single d k v : _set_nested_value d [k] v = inr (dict_set k v d).
Proof. reflexivity. Qed.

Lemma set_nested_deep d k k2 (rest : list string) v :
  _set_nested_value d (k :: k2 :: rest) v =
  match dict_get k d with
  | None =>
      match _set_nested_value [] (k2 :: rest) v with
      | inr sub => inr (dict_set k (Dict sub) d)
      | inl e => inl e
      end
  | Some (Dict current) =>
      match _set_nested_value current (k2 :: rest) v with
      | inr sub => inr (dict_set k (Dict sub) d)
      | inl e => inl e
      end
  | Some (Leaf _) => inl TypeError
  end.
Proof. reflexivity. Qed.

Lemma lookup_path_single d k : lookup_path d [k] = dict_get k d.
Proof. simpl. destruct (dict_get k d) as [[x | d'] |]; reflexivity. Qed.

Lemma lookup_path_deep d k k2 (rest : list string) :
  lookup_path d (k :: k2 :: rest) =
  match dict_get k d with
  | Some (Dict d') => lookup_path d' (k2 :: rest)
  | _ => None
  end.
Proof. cbn [lookup_path]. destruct (dict_get k d) as [[x | d'] |]; reflexivity. Qed.

Lemma lookup_path_empty k (rest : list string) : lookup_path [] (k :: rest) = None.
Proof. destruct rest; reflexivity. Qed.

Lemma set_nested_lookup d (path : list string) v d' :
  _set_nested_value d path v = inr d' → lookup_path d' path = Some v.
Proof.
  revert d d'. induction path as [|k rest IH]; intros d d' E; [discriminate |].
  destruct rest as [|k2 rest].
  - rewrite set_nested_single in E. injection E as <-.
    rewrite lookup_path_single. apply dict_get_set_eq.
  - rewrite set_nested_deep in E. rewrite lookup_path_deep.
    destruct (dict_get k d) as [[x | cur] |]; [discriminate | |].
    + destruct (_set_nested_value cur (k2 :: rest) v) as [e | sub] eqn:Es;
        [discriminate |].
      injection E as <-. rewrite dict_get_set_eq. now apply IH in Es.
    + destruct (_set_nested_value [] (k2 :: rest) v) as [e | sub] eqn:Es;
        [discriminate |].
      injection E as <-. rewrite dict_get_set_eq. now apply IH in Es.
Qed.

(** X24. What was set is found: after a successful assignment the value is
    at its path. *)
Theorem set_nested_get d (path : list string) v d' :
  _set_nested_value d path v = inr d' → lookup_path d' path = Some v.
Proof. exact (set_nested_lookup d path v d'). Qed.

Lemma set_nested_get_witness :
  lookup_path [("agent", Dict [("max_steps", Leaf (LInt 200))])] ["agent"; "max_steps"]
  = Some (Leaf (LInt 200)).
Proof.
  apply (set_nested_get [("agent", Dict [("max_steps", Leaf (LInt 50))])]
           ["agent"; "max_steps"] (Leaf (LInt 200))).
  reflexivity.
Defined.

Lemma not_blocked_single d k : ¬ blocked d [k].
Proof.
  intros (pre & suf & x & Hp & Hs & Hl). destruct pre as [|k' pre].
  - discriminate.
  - injection Hp as _ Hp. destruct pre; [| discriminate]. simpl in Hp. congruence.
Qed.

Lemma blocked_cons d k (path : list string) :
  path ≠ [] →
  blocked d (k :: path) ↔
  match dict_get k d with
  | Some (Leaf _) => True
  | Some (Dict cur) => blocked cur path
  | None => False
  end.
Proof.
  intros Hne. split.
  - intros (pre & suf & x & Hp & Hs & Hl). destruct pre as [|k' pre]; [discriminate |].
    injection Hp as <- Hp. destruct pre as [|k2 pre].
    + rewrite lookup_path_single in Hl. now rewrite Hl.
    + rewrite lookup_path_deep in Hl.
      destruct (dict_get k d) as [[y | cur] |]; [exact I | | discriminate].
      exists (k2 :: pre), suf, x. tauto.
  - destruct (dict_get k d) as [[y | cur] |] eqn:Ek; [| | tauto].
    + intros _. exists [k], path, y. rewrite lookup_path_single. tauto.
    + intros (pre & suf & x & Hp & Hs & Hl). destruct pre as [|k2 pre]; [discriminate |].
      exists (k :: k2 :: pre), suf, x. rewrite lookup_path_deep, Ek. subst path. tauto.
Qed.

Lemma not_blocked_empty (path : list string) : ¬ blocked [] path.
Proof.
  intros (pre & suf & x & _ & _ & Hl). destruct pre; [discriminate |].
  now rewrite lookup_path_empty in Hl.
Qed.

Lemma set_nested_outcome d (path : list string) v :
  match _set_nested_value d path v with
  | inl IndexError => path = []
  | inl TypeError => blocked d path
  | inl ValueError => False
  | inr _ => path ≠ [] ∧ ¬ blocked d path
  end.
Proof.
  revert d. induction path as [|k rest IH]; intros d; [reflexivity |].
  destruct rest as [|k2 rest].
  - rewrite set_nested_single. split; [discriminate | apply not_blocked_single].
  - rewrite set_nested_deep.
    pose proof (blocked_cons d k (k2 :: rest) ltac:(discriminate)) as Hb.
    destruct (dict_get k d) as [[x | cur] |].
    + now apply Hb.
    + specialize (IH cur).
      destruct (_set_nested_value cur (k2 :: rest) v) as [[| |] | sub].
      * discriminate.
      * now apply Hb.
      * exact IH.
      * split; [discriminate |]. rewrite Hb. tauto.
    + specialize (IH []).
      destruct (_set_nested_value [] (k2 :: rest) v) as [[| |] | sub].
      * discriminate.
      * now apply not_blocked_empty in IH.
      * exact IH.
      * split; [discriminate |]. rewrite Hb. tauto.
Qed.

(** X26. The assignment fails in two ways only: with [IndexError] on the
    empty path, and with [TypeError] exactly when a scalar lies on the way. *)
Theorem set_nested_errors d (path : list string) v :
  match _set_nested_value d path v with
  | inl IndexError => path = []
  | inl TypeError => blocked d path
  | inl ValueError => False
  | inr _ => path ≠ [] ∧ ¬ blocked d path
  end.
Proof. exact (set_nested_outcome d path v). Qed.

(** *** Applying the overrides *)

Lemma split_on_nonempty (sep : ascii) (s : string) : split_on sep s ≠ [].
Proof.
  destruct s as [|c s]; [discriminate |]. simpl.
  destruct (decide (c = sep)); [discriminate |].
  destruct (split_on sep s); discriminate.
Qed.

Lemma apply_cli_snoc (r : list (string * cfg)) (cli : list (string * cfg))
    (path : string) v :
  apply_cli r (cli ++ [(path, v)]) =
  match apply_cli r cli with
  | inr r' => _set_nested_value r' (split_on "." path) v
  | inl e => inl e
  end.
Proof.
  revert r. induction cli as [|[p0 v0] cli IH]; intros r; simpl.
  - now destruct (_set_nested_value r (split_on "." path) v).
  - destruct (_set_nested_value r (split_on "." p0) v0); [reflexivity | apply IH].
Qed.

Lemma apply_overrides_no_cli (c f e : list (string * cfg)) :
  apply_overrides c f e [] = inr (_deep_merge (_deep_merge c f) e).
Proof. unfold apply_overrides. now destruct f, e. Qed.

(** X27. The command line has the last word: the value of the CLI override
    that is applied last is at its path in the result, whatever the base
    configuration, the override file and the environment say. *)
Theorem apply_overrides_cli_wins (c f e : list (string * cfg))
    (cli : list (string * cfg)) (path : string) v (r : list (string * cfg)) :
  apply_overrides c f e (cli ++ [(path, v)]) = inr r →
  lookup_path r (split_on "." path) = Some v.
Proof.
  unfold apply_overrides. rewrite apply_cli_snoc.
  destruct (apply_cli _ cli) as [err | r']; [discriminate |].
  apply set_nested_lookup.
Qed.

Lemma apply_overrides_cli_wins_witness :
  lookup_path [("llm", Dict [("model", Leaf (LStr "gpt-4"))])] (split_on "." "llm.model")
  = Some (Leaf (LStr "gpt-4")).
Proof.
  apply (apply_overrides_cli_wins
           [("llm", Dict [("model", Leaf (LStr "base"))])]
           [("llm", Dict [("model", Leaf (LStr "file"))])]
           [("llm", Dict [("model", Leaf (LStr "env"))])]
           [] "llm.model" (Leaf (LStr "gpt-4"))).
  reflexivity.
Defined.

(** X28. Without CLI overrides the call returns, and the layers have the
    documented priority: a scalar of the environment overrides is in the
    result; a scalar of the override file is in the result when the
    environment overrides do not mention the first key of its path; and a
    path whose first key neither mentions holds what the base holds. *)
Theorem apply_overrides_layers (c f e : list (string * cfg)) :
  wf_cfg (Dict f) → wf_cfg (Dict e) →
  ∃ r, apply_overrides c f e [] = inr r ∧
    (∀ path x, lookup_path e path = Some (Leaf x) →
               lookup_path r path = Some (Leaf x)) ∧
    (∀ k rest x, dict_get k e = None →
                 lookup_path f (k :: rest) = Some (Leaf x) →
                 lookup_path r (k :: rest) = Some (Leaf x)) ∧
    (∀ k rest, dict_get k e = None → dict_get k f = None →
               lookup_path r (k :: rest) = lookup_path c (k :: rest)).
Proof.
  intros Hf He. eexists. split; [apply apply_overrides_no_cli |].
  split; [| split].
  - intros path x Hp. now apply deep_merge_leaf_wins.
  - intros k rest x Hk Hp. rewrite deep_merge_silent_path by exact Hk.
    now apply deep_merge_leaf_wins.
  - intros k rest Hke Hkf. now rewrite !deep_merge_silent_path.
Qed.

Lemma apply_overrides_layers_witness :
  ∃ r, apply_overrides [("llm", Dict [("model", Leaf (LStr "base"))])]
         [("llm", Dict [("model", Leaf (LStr "file"))])] [] [] = inr r ∧
       lookup_path r ["llm"; "model"] = Some (Leaf (LStr "file")).
Proof.
  destruct (apply_overrides_layers [("llm", Dict [("model", Leaf (LStr "base"))])]
              [("llm", Dict [("model", Leaf (LStr "file"))])] [])
    as (r & E & _ & Hfile & _).
  - simpl. repeat split; try apply NoDup_singleton; apply NoDup_nil_2.
  - simpl. split; [apply NoDup_nil_2 | exact I].
  - exists r. split; [exact E |]. now apply Hfile.
Defined.

Lemma apply_cli_errors (r : list (string * cfg)) (cli : list (string * cfg)) (err : exn) :
  apply_cli r cli = inl err → err = TypeError.
Proof.
  revert r. induction cli as [|[p0 v0] cli IH]; intros r; simpl; [discriminate |].
  pose proof (set_nested_outcome r (split_on "." p0) v0) as Hs.
  destruct (_set_nested_value r (split_on "." p0) v0) as [[| |] | r'].
  - now apply split_on_nonempty in Hs.
  - congruence.
  - contradiction.
  - apply IH.
Qed.

(** X29. Once the override file and the environment have been read, the
    only way for [apply_overrides] to fail is the [TypeError] of a CLI path
    that runs through a scalar: a path is never empty, since splitting a
    string at the dots gives at least one part. *)
Theorem apply_overrides_errors (c f e : list (string * cfg))
    (cli : list (string * cfg)) (err : exn) :
  apply_overrides c f e cli = inl err → err = TypeError.
Proof. unfold apply_overrides. apply apply_cli_errors. Qed.

Lemma apply_overrides_errors_witness :
  apply_overrides [("llm", Dict [("model", Leaf (LStr "m1"))])] [] []
    [("llm.model.name", Leaf (LStr "gpt-4"))] = inl TypeError.
Proof.
  assert (∃ err, apply_overrides [("llm", Dict [("model", Leaf (LStr "m1"))])] [] []
                   [("llm.model.name", Leaf (LStr "gpt-4"))] = inl err) as [err E]
    by (eexists; reflexivity).
  rewrite E. f_equal.
  exact (apply_overrides_errors _ _ _ _ _ E).
Defined.

End ConfigFacts.

(** ** Properties of the nested assignment on shared dictionaries *)

Module ConfigStoreFacts.
Import ConfigStore.

Lemma obj_get_set_eq k v o : obj_get k (obj_set k v o) = Some v.
Proof.
  induction o as [|[k' v'] o IH]; simpl.
  - now rewrite decide_True.
  - destruct (decide (k = k')) as [-> | Hne]; simpl.
    + now rewrite decide_True.
    + now rewrite decide_False.
Qed.

Lemma obj_get_set_ne k k' v o : k' ≠ k → obj_get k' (obj_set k v o) = obj_get k' o.
Proof.
  intros Hne. induction o as [|[k0 v0] o IH]; simpl.
  - now rewrite decide_False.
  - destruct (decide (k = k0)) as [-> | Hk]; simpl.
    + now rewrite !decide_False.
    + destruct (decide (k' = k0)); [reflexivity | exact IH].
Qed.

Lemma read_write_ne σ a b k v : a ≠ b → read (write σ a k v) b = read σ b.
Proof. intros H. unfold read, write. now rewrite list_lookup_insert_ne. Qed.

Lemma read_write_eq σ a k v :
  (a < length σ)%nat → read (write σ a k v) a = obj_set k v (read σ a).
Proof. intros H. unfold read at 1, write. now rewrite list_lookup_insert_eq. Qed.

Lemma length_write σ a k v : length (write σ a k v) = length σ.
Proof. apply length_insert. Qed.

Lemma read_alloc_old σ a : (a < length σ)%nat → read (σ ++ [[]]) a = read σ a.
Proof. intros H. unfold read. now rewrite lookup_app_l. Qed.

Lemma read_alloc_new σ : read (σ ++ [[]]) (length σ) = [].
Proof. unfold read. now rewrite list_lookup_middle. Qed.

Lemma read_beyond σ a : (length σ ≤ a)%nat → read σ a = [].
Proof. intros H. unfold read. now rewrite lookup_ge_None_2. Qed.

(** An entry other than the one written holds what it held. *)
Lemma get_write σ a k v b k' :
  (a, k) ≠ (b, k') → obj_get k' (read (write σ a k v) b) = obj_get k' (read σ b).
Proof.
  intros Hne. destruct (decide (a = b)) as [<- | Hab]; [| now rewrite read_write_ne].
  destruct (decide (a < length σ)%nat) as [Hlt | Hge].
  - rewrite read_write_eq by exact Hlt. apply obj_get_set_ne. congruence.
  - unfold write. rewrite list_insert_ge by lia. reflexivity.
Qed.

Lemma wf_step σ current part :
  wf σ → (current < length σ)%nat →
  wf (write (σ ++ [[]]) current part (VDict (length σ))).
Proof.
  intros Hwf Hc a k b. rewrite length_write, length_app. simpl.
  destruct (decide ((current, part) = (a, k))) as [[= <- <-] | Hne].
  - rewrite read_write_eq by (rewrite length_app; simpl; lia).
    rewrite obj_get_set_eq. intros [= <-]. lia.
  - rewrite get_write by exact Hne.
    destruct (decide (a < length σ)%nat) as [Ha | Ha].
    + rewrite read_alloc_old by exact Ha. intros H. apply Hwf in H. lia.
    + destruct (decide (a = length σ)) as [-> | Hne'].
      * rewrite read_alloc_new. discriminate.
      * rewrite read_beyond by (rewrite length_app; simpl; lia). discriminate.
Qed.

Lemma obj_get_elem k v o : obj_get k o = Some v → (k, v) ∈ o.
Proof.
  induction o as [|[k' v'] o IH]; simpl; [discriminate |].
  destruct (decide (k = k')) as [-> | Hne].
  - intros [= ->]. left.
  - intros H. right. now apply IH.
Qed.

(** A store is well formed when every item of every object is. *)
Lemma wf_intro σ :
  Forall (Forall (fun kv => match kv.2 with
                            | VDict b => (b < length σ)%nat
                            | VLeaf _ => True
                            end)) σ →
  wf σ.
Proof.
  intros H a k b G. unfold read in G.
  destruct (σ !! a) as [o |] eqn:E; [| discriminate]. simpl in G.
  rewrite Forall_forall in H. specialize (H o (list_elem_of_lookup_2 _ _ _ E)).
  rewrite Forall_forall in H. apply obj_get_elem in G. exact (H _ G).
Qed.

(** In a new, empty object the first key of the path is the one written. *)
Lemma written_empty σ current (path : list string) :
  read σ current = [] → path ≠ [] →
  ∃ k, written σ current path = Some (current, k).
Proof.
  intros He Hp. destruct path as [|k [|k' rest]]; [congruence | |]; simpl.
  - eauto.
  - rewrite He. simpl. eauto.
Qed.

(** The assignment changes one entry among the objects of the store. *)
Lemma set_nested_effect (path : list string) : ∀ σ current v σ' r,
  wf σ → (current < length σ)%nat →
  _set_nested_value σ current path v = (σ', r) →
  ∀ a k, (a < length σ)%nat → written σ current path ≠ Some (a, k) →
         obj_get k (read σ' a) = obj_get k (read σ a).
Proof.
  induction path as [|part rest IH]; intros σ current v σ' r Hwf Hc E a k Ha Hw.
  - injection E as <- _. reflexivity.
  - destruct rest as [|part' rest].
    + simpl in E, Hw. injection E as <- _. apply get_write. congruence.
    + cbn [_set_nested_value written] in E, Hw.
      destruct (obj_get part (read σ current)) as [[x | next] |] eqn:G.
      * injection E as <- _. reflexivity.
      * apply (IH σ next v σ' r); try assumption. now apply Hwf in G.
      * cbn [alloc] in E.
        set (σ1 := write (σ ++ [[]]) current part (VDict (length σ))) in *.
        assert (Hl1 : length σ1 = S (length σ)).
        { unfold σ1. rewrite length_write, length_app. simpl. lia. }
        assert (Hnew : read σ1 (length σ) = []).
        { unfold σ1. rewrite read_write_ne by lia. apply read_alloc_new. }
        destruct (written_empty σ1 (length σ) (part' :: rest) Hnew) as [k1 Hk1];
          [discriminate |].
        rewrite (IH σ1 (length σ) v σ' r); try assumption.
        -- unfold σ1. rewrite get_write by congruence. now rewrite read_alloc_old.
        -- now apply wf_step.
        -- lia.
        -- lia.
        -- rewrite Hk1. intros [= Heq _]. lia.
Qed.

(** A lookup that reads none of the entries that changed finds what it
    found. *)
Lemma lookup_frame (σ σ' : store) (w : option (nat * string)) (path : list string) :
  wf σ →
  (∀ a k, (a < length σ)%nat → w ≠ Some (a, k) →
          obj_get k (read σ' a) = obj_get k (read σ a)) →
  ∀ current, (current < length σ)%nat →
    (∀ cell, w = Some cell → cell ∉ reads σ current path) →
    lookup_path σ' current path = lookup_path σ current path.
Proof.
  intros Hwf Hsame. induction path as [|k rest IH]; intros current Hc Hr;
    [reflexivity |].
  cbn [lookup_path]. cbn [reads] in Hr.
  rewrite Hsame; [| exact Hc |].
  - destruct (obj_get k (read σ current)) as [[x | next] |] eqn:G; try reflexivity.
    destruct rest as [|k' rest]; [reflexivity |].
    apply IH; [now apply Hwf in G |].
    intros cell Hcell Hin. apply (Hr cell Hcell). now right.
  - intros Hw. apply (Hr _ Hw). left.
Qed.

(** X25. The assignment is in place and changes one entry of one object of
    the store, the entry [written]: every other entry of every object of the
    store is after the call, returning or raising, what it was before; and
    so a path whose lookup reads other entries only finds the scalar or the
    dictionary object that it found before. This is so whether or not
    dictionaries are shared between places. *)
Theorem set_nested_frame (σ : store) (root : nat) (path_parts : list string)
    (value : val) (σ' : store) (r : option ConfigOverride.exn) :
  wf σ → (root < length σ)%nat →
  _set_nested_value σ root path_parts value = (σ', r) →
  (∀ a k, (a < length σ)%nat → written σ root path_parts ≠ Some (a, k) →
          obj_get k (read σ' a) = obj_get k (read σ a)) ∧
  (∀ path,
     (∀ cell, written σ root path_parts = Some cell → cell ∉ reads σ root path) →
     lookup_path σ' root path = lookup_path σ root path).
Proof.
  intros Hwf Hroot E.
  assert (Hsame : ∀ a k, (a < length σ)%nat →
            written σ root path_parts ≠ Some (a, k) →
            obj_get k (read σ' a) = obj_get k (read σ a)).
  { intros a k Ha Hw. now apply (set_nested_effect path_parts σ root value σ' r). }
  split; [exact Hsame |].
  intros path Hr.
  now apply (lookup_frame σ σ' (written σ root path_parts)).
Qed.

(** Two keys of one dictionary object that do not meet: the assignment
    through ["x"] leaves ["y"; "b"] as it was. *)
Lemma set_nested_frame_witness :
  lookup_path
    (_set_nested_value shared_store 0 ["x"; "a"] (VLeaf (ConfigOverride.LInt 1))).1
    0 ["y"; "b"]
  = Some (VLeaf (ConfigOverride.LInt 2)).
Proof.
  assert (Hwf : wf shared_store) by (apply wf_intro; repeat constructor).
  assert (Hroot : (0 < length shared_store)%nat) by (simpl; lia).
  destruct (set_nested_frame shared_store 0 ["x"; "a"]
              (VLeaf (ConfigOverride.LInt 1)) _ None Hwf Hroot eq_refl) as [_ H].
  rewrite H; [reflexivity |].
  intros cell E. vm_compute in E. injection E as <-. vm_compute.
  intros Hin. apply elem_of_cons in Hin as [Hin | Hin]; [discriminate Hin |].
  apply elem_of_cons in Hin as [Hin | Hin]; [discriminate Hin |].
  now apply elem_of_nil in Hin.
Defined.

(** And the shared dictionary is seen through both keys: after the
    assignment through ["x"] the new entry is found through ["y"]. *)
Example set_nested_alias :
  lookup_path shared_store 0 ["y"; "a"] = None ∧
  lookup_path
    (_set_nested_value shared_store 0 ["x"; "a"] (VLeaf (ConfigOverride.LInt 1))).1
    0 ["y"; "a"]
  = Some (VLeaf (ConfigOverride.LInt 1)).
Proof. split; reflexivity. Qed.

End ConfigStoreFacts.

(** ** Properties of the keyboard listener *)

Module KeyboardFacts.
Import Keyboard.

(** X30. [is_esc_pressed] reads and clears the key: its result is true as a
    condition exactly when the stored key is a [str] that starts with ESC,
    so never for a [bytes] key, whatever its first byte; it is [None], not
    [False], when no key is stored; and afterwards no key is stored, so that
    a second call right after it gives [None]. *)
Theorem is_esc_pressed_reads_and_clears (key : option pykey) :
  (truthy (is_esc_pressed key).1 = true ↔
     ∃ rest, key = Some (KStr (String esc rest))) ∧
  (∀ b, truthy (is_esc_pressed (Some (KBytes b))).1 = false) ∧
  ((is_esc_pressed key).1 = RNone ↔ key = None) ∧
  (is_esc_pressed key).2 = None ∧
  (is_esc_pressed (is_esc_pressed key).2).1 = RNone.
Proof.
  split; [| split; [| split; [| split; reflexivity]]].
  - destruct key as [[k | b] |]; simpl.
    + destruct (decide (k = String esc EmptyString)) as [-> | Hne]; simpl.
      * split; [eauto | reflexivity].
      * destruct k as [|c rest]; simpl.
        -- split; [discriminate | intros [r [=]]].
        -- rewrite andb_true_iff, !bool_decide_eq_true. split.
           ++ intros [_ ->]. eauto.
           ++ intros [r [= -> ->]]. split; [| reflexivity].
              destruct r; [contradiction | simpl; lia].
    + destruct b as [|x b]; simpl.
      * split; [discriminate | intros [r [=]]].
      * rewrite andb_false_r. split; [discriminate | intros [r [=]]].
    + split; [discriminate | intros [r [=]]].
  - intros [|x b]; simpl; [reflexivity | apply andb_false_r].
  - destruct key as [[k | b] |]; simpl; [| | tauto].
    + destruct (decide (k = String esc EmptyString)); [split; discriminate |].
      destruct k; split; discriminate.
    + destruct b; split; discriminate.
Qed.

End KeyboardFacts.
